(** * urbs [comp.py]: scenario comparison, legend and bar-group layout

    A shallow embedding of the pure core of [comp.py]:
    [deduplicate_legend], [group_hbar_plots], the merging / analysis
    part of [compare_scenarios] with its tick formatters, and the two
    functions that find the workbooks.

    Conventions.
    - A Python call that may raise is a function into [result]; the
      exception classes that occur are the constructors of [exn].
    - float64 values are idealised as exact rationals ([Q]); a missing
      cell (NaN) is [None].
    - A Python list that is mutated in place lives in a [store], which
      gives the current value of the list object behind each reference.
    - pandas is taken as of version 1.5: that fixes which exception a
      failing call raises and how [concat] treats repeated row labels. *)

From Stdlib Require Import Ascii QArith Qabs Lqa OrderedTypeEx DecimalString.
From stdpp Require Import strings list sorting functions.

Local Open Scope list_scope.
Local Open Scope nat_scope.

(** ** Exceptions *)

Inductive exn : Set :=
  | ValueError | IndexError | KeyError | ZeroDivisionError | IOError
  | InvalidIndexError.

Inductive result (A : Type) : Type :=
  | Ok (a : A)
  | Raise (e : exn).
Arguments Ok {A} a.
Arguments Raise {A} e.

Global Instance result_ret : MRet result := fun A a => Ok a.
Global Instance result_bind : MBind result := fun A B k r =>
  match r with
  | Ok a => k a
  | Raise e => Raise e
  end.

(** ** Strings as Python orders them *)

(** [str.__lt__]: lexicographic on code units. *)
Definition str_lt (a b : string) : Prop := String.ltb a b = true.

(** ** Python lists and strings *)

Module Py.

(** [sorted]: a stable sort; each element goes behind everything that
    is not greater than it. *)
Section sorted.
Context {A : Type} (ltb : A → A → bool).

Fixpoint insort (x : A) (l : list A) : list A :=
  match l with
  | [] => [x]
  | y :: l' => if ltb x y then x :: y :: l' else y :: insort x l'
  end.

Definition sorted (l : list A) : list A :=
  foldl (fun acc x => insort x acc) [] l.
End sorted.

(** [l.index(x)]. *)
Definition list_index (x : string) (l : list string) : result nat :=
  match list_find (fun y => y = x) l with
  | Some (i, _) => Ok i
  | None => Raise ValueError
  end.

(** [l.pop(i)] for [i >= 0]: the element and the remaining list. *)
Definition list_pop {A} (l : list A) (i : nat) : result (A * list A) :=
  match l !! i with
  | Some x => Ok (x, delete i l)
  | None => Raise IndexError
  end.

(** [l.insert(i, x)] for [i >= 0]. *)
Definition list_insert {A} (i : nat) (x : A) (l : list A) : list A :=
  take i l ++ x :: drop i l.

(** [s.replace(old, new)] for a non-empty [old]: occurrences are
    taken from the left and do not overlap; [skip] counts the
    characters of a match that are still to be passed over. *)
Fixpoint replace_from (old new : string) (skip : nat) (s : string) : string :=
  match s with
  | EmptyString => EmptyString
  | String c s' =>
      match skip with
      | S k => replace_from old new k s'
      | O =>
          if String.prefix old s
          then String.append new (replace_from old new (String.length old - 1) s')
          else String c (replace_from old new 0 s')
      end
  end.

Definition replace (old new s : string) : string := replace_from old new 0 s.

(** [os.path.basename]: what follows the last slash. *)
Fixpoint basename_from (seg p : string) : string :=
  match p with
  | EmptyString => seg
  | String c p' =>
      if Ascii.eqb c "/"%char
      then basename_from EmptyString p'
      else basename_from (String.append seg (String c EmptyString)) p'
  end.

Definition basename (p : string) : string := basename_from EmptyString p.

End Py.

(** ** [deduplicate_legend] (comp.py 42-60) *)

Module Legend.
Section legend.
(** Legend handles are opaque artists. [hdl_ltb] stands for whatever
    [<] does on two of them; tuple comparison only reaches it when two
    labels are equal. *)
Context {Hdl : Type} (hdl_ltb : Hdl → Hdl → bool).

(** [(l1, h1) < (l2, h2)] on Python tuples. *)
Definition tuple_ltb (p q : string * Hdl) : bool :=
  if String.eqb p.1 q.1 then hdl_ltb p.2 q.2 else String.ltb p.1 q.1.

(** The [for hdl, lbl in zip(handles, labels)] loop, lines 54-57. *)
Fixpoint dedup_loop (zs : list (Hdl * string))
    (new_handles : list Hdl) (new_labels : list string) : list Hdl * list string :=
  match zs with
  | [] => (new_handles, new_labels)
  | (hdl, lbl) :: zs' =>
      if negb (bool_decide (lbl ∈ new_labels))
      then dedup_loop zs' (new_handles ++ [hdl]) (new_labels ++ [lbl])
      else dedup_loop zs' new_handles new_labels
  end.

(** [zip] over the unpacked pairs (the star-argument call of line 59):
    no argument gives no tuple at all, otherwise one tuple per
    component. *)
Definition zip_star (pairs : list (string * Hdl)) : list (list string + list Hdl) :=
  match pairs with
  | [] => []
  | _ => [inl (pairs.*1); inr (pairs.*2)]
  end.

(** [new_labels, new_handles = (list(t) for t in ...)]: unpacking into
    two targets needs exactly two items. *)
Definition unpack2 (items : list (list string + list Hdl))
    : result (list string * list Hdl) :=
  match items with
  | [inl ls; inr hs] => Ok (ls, hs)
  | _ => Raise ValueError
  end.

Definition deduplicate_legend (handles : list Hdl) (labels : list string)
    : result (list Hdl * list string) :=
  let '(new_handles, new_labels) := dedup_loop (zip handles labels) [] [] in
  '(new_labels, new_handles) ←
    unpack2 (zip_star (Py.sorted tuple_ltb (zip new_labels new_handles)));
  Ok (new_handles, new_labels).

(** The handle that comes with the first occurrence of [lbl] in the
    zipped input; this is what the statements below compare against. *)
Fixpoint first_handle (zs : list (Hdl * string)) (lbl : string) : option Hdl :=
  match zs with
  | [] => None
  | (hdl, l) :: zs' => if decide (l = lbl) then Some hdl else first_handle zs' lbl
  end.

End legend.
End Legend.

(** ** [group_hbar_plots] (comp.py 62-84) *)

Module Layout.

(** A bar of a horizontal bar chart (matplotlib's [Rectangle]). *)
Record Rectangle : Set := mkRect {
  rect_x : Q;
  rect_y : Q;
  rect_width : Q;
  rect_height : Q
}.

Definition get_height (p : Rectangle) : Q := rect_height p.

Definition set_y (p : Rectangle) (y : Q) : Rectangle :=
  {| rect_x := rect_x p; rect_y := y;
     rect_width := rect_width p; rect_height := rect_height p |}.

(** A legend handle of a bar plot is a container of patches, one per
    row; indexing the container indexes its patches. *)
Abbreviation BarContainer := (list Rectangle).

(** [handles[0][0].get_height()], line 70. *)
Definition first_bar_height (handles : list BarContainer) : result Q :=
  match handles with
  | [] => Raise IndexError
  | handle :: _ =>
      match handle with
      | [] => Raise IndexError
      | patch :: _ => Ok (get_height patch)
      end
  end.

(** Lines 72-73: [if not inner_sep] holds for [None] and for a zero
    value alike. *)
Definition effective_inner_sep (bar_height : Q) (inner_sep : option Q) : Q :=
  match inner_sep with
  | None => (1 # 2) * (1 - bar_height)
  | Some sep => if Qeq_bool sep 0 then (1 # 2) * (1 - bar_height) else sep
  end.

(** Python's [divmod] on integers: floor division, as [Z.div] and
    [Z.modulo] are. *)
Definition divmod (a b : Z) : result (Z * Z) :=
  if (b =? 0)%Z then Raise ZeroDivisionError else Ok ((a / b)%Z, (a mod b)%Z).

Section rows.
Variables (group_size : Z) (bar_height inner_sep : Q).

(** Lines 79-81. *)
Definition group_offset (group_number : Z) : Q :=
  inject_Z (group_number * group_size)
  + (1 # 2) * inject_Z (group_size - 1) * (1 - inner_sep)
  - (1 # 2) * (inject_Z group_size * bar_height).

(** The body of the inner loop, lines 77-84, from row [row] on. *)
Fixpoint set_rows (row : Z) (patches : list Rectangle) : result (list Rectangle) :=
  match patches with
  | [] => Ok []
  | patch :: rest =>
      '(group_number, row_within_group) ← divmod row group_size;
      let patch' :=
        set_y patch (inject_Z row_within_group * (bar_height + inner_sep)
                     + group_offset group_number) in
      rest' ← set_rows (row + 1) rest;
      Ok (patch' :: rest')
  end.

(** The outer loop, line 75. *)
Fixpoint set_columns (handles : list BarContainer) : result (list BarContainer) :=
  match handles with
  | [] => Ok []
  | handle :: rest =>
      handle' ← set_rows 0 handle;
      rest' ← set_columns rest;
      Ok (handle' :: rest')
  end.
End rows.

(** The axis is represented by its legend handles; the result is their
    state after the call. *)
Definition group_hbar_plots (handles : list BarContainer) (group_size : Z)
    (inner_sep : option Q) : result (list BarContainer) :=
  bar_height ← first_bar_height handles;
  let inner_sep := effective_inner_sep bar_height inner_sep in
  set_columns group_size bar_height inner_sep handles.

End Layout.

(** ** The part of pandas that [compare_scenarios] uses *)

Module Pandas.

(** A float64 cell; [None] is NaN. *)
Abbreviation cell := (option Q).

Definition Qltb (x y : Q) : bool :=
  match (x ?= y)%Q with Lt => true | _ => false end.

(** A table: column labels in order, and rows in order, each with its
    label and one cell per column.  Labels may repeat. *)
Record DataFrame (R C : Type) : Type := mkFrame {
  columns : list C;
  rows : list (R * list cell)
}.
Arguments mkFrame {R C} columns rows.
Arguments columns {R C} _.
Arguments rows {R C} _.

(** A series: labelled cells in order. *)
Abbreviation Series R := (list (R * cell)).

Section frames.
Context {R C : Type}.
Implicit Types (f : DataFrame R C).

Definition index f : list R := (rows f).*1.

(** Every row has one cell per column, as in every table of pandas. *)
Definition well_formed f : Prop :=
  Forall (fun row : R * list cell => length row.2 = length (columns f)) (rows f).

(** The cells of column number [j], top to bottom. *)
Definition column_at (j : nat) f : list cell :=
  (fun row : R * list cell => default None (row.2 !! j)) <$> rows f.

(** The cells of row number [k]. *)
Definition row_at (k : nat) f : list cell :=
  match rows f !! k with
  | Some row => row.2
  | None => replicate (length (columns f)) None
  end.

(** Summing skips NaN. *)
Definition nansum (vs : list cell) : Q :=
  foldl (fun acc v => match v with Some q => (acc + q)%Q | None => acc end) 0%Q vs.

(** [f.sum()]: one total per column. *)
Definition sum f : list (C * Q) :=
  imap (fun j c => (c, nansum (column_at j f))) (columns f).

(** [s > x] and [s < x] on a series of totals. *)
Definition gt (s : list (C * Q)) (x : Q) : list bool :=
  (fun p => Qltb x p.2) <$> s.
Definition lt (s : list (C * Q)) (x : Q) : list bool :=
  (fun p => Qltb p.2 x) <$> s.

Definition select {A} (mask : list bool) (l : list A) : list A :=
  (filter (fun p : A * bool => Is_true p.2) (zip l mask)).*1.

(** [f.loc[:, mask]]. *)
Definition loc_columns f (mask : list bool) : DataFrame R C :=
  mkFrame (select mask (columns f))
          ((fun row : R * list cell => (row.1, select mask row.2)) <$> rows f).

(** [f.T]. *)
Definition transpose f : DataFrame C R :=
  mkFrame (index f) (imap (fun j c => (c, column_at j f)) (columns f)).

(** Element-wise arithmetic; NaN stays NaN. *)
Definition map_values (g : Q → Q) f : DataFrame R C :=
  mkFrame (columns f)
    ((fun row : R * list cell => (row.1, fmap (M := option) g <$> row.2)) <$> rows f).

(** [f.sort_index(...)], for the order [ltb] on row labels. *)
Definition sort_index (ltb : R → R → bool) f : DataFrame R C :=
  mkFrame (columns f) (Py.sorted (fun a b => ltb a.1 b.1) (rows f)).

(** [f.loc[rows matching P, c] = v] for a column [c] of [f], where the
    rows are selected by a label of one level of the row index: with no
    such row the label is not found. *)
Definition set_where `{EqDecision C} (P : R → bool) (c : C) (v : Q) f
    : result (DataFrame R C) :=
  if existsb P (index f)
  then Ok (mkFrame (columns f)
             ((fun row : R * list cell =>
                 if P row.1
                 then (row.1,
                       zip_with (fun c' x => if bool_decide (c' = c) then Some v else x)
                                (columns f) row.2)
                 else row) <$> rows f))
  else Raise KeyError.

(** [f.drop(label, axis=1)]. *)
Definition drop_columns `{EqDecision C} (label : C) f : result (DataFrame R C) :=
  if bool_decide (label ∈ columns f)
  then Ok (loc_columns f ((fun c => bool_decide (c ≠ label)) <$> columns f))
  else Raise KeyError.

(** [f.rename(columns=g)]. *)
Definition rename_columns {C'} (g : C → C') f : DataFrame R C' :=
  mkFrame (g <$> columns f) (rows f).

(** [f.columns = labels]. *)
Definition set_columns {C'} (labels : list C') f : result (DataFrame R C') :=
  if bool_decide (length labels = length (columns f))
  then Ok (mkFrame labels (rows f))
  else Raise ValueError.
End frames.

(** The labels of [l] in order of first appearance. *)
Fixpoint uniq_from {A} `{EqDecision A} (seen l : list A) : list A :=
  match l with
  | [] => seen
  | x :: l' =>
      if bool_decide (x ∈ seen) then uniq_from seen l' else uniq_from (seen ++ [x]) l'
  end.

Definition uniq {A} `{EqDecision A} (l : list A) : list A := uniq_from [] l.

Section align.
Context {K R C : Type} `{EqDecision R}.

(** The cells of the row labelled [r], NaN where the table has no
    such row. *)
Definition lookup_row (r : R) (f : DataFrame R C) : list cell :=
  match list_find (fun row : R * list cell => row.1 = r) (rows f) with
  | Some (_, row) => row.2
  | None => replicate (length (columns f)) None
  end.

Definition lookup_cell (r : R) (s : Series R) : cell :=
  match list_find (fun e : R * cell => e.1 = r) s with
  | Some (_, e) => e.2
  | None => None
  end.

(** How [pd.concat(..., axis=1)] finds the row labels of the result.
    Tables that all carry the same labels in the same order are put side
    by side as they are, row by row, repeated labels included.
    Otherwise the result has every label once, in order of first
    appearance, and every table is re-indexed to these labels, which
    fails for a table in which a label repeats. *)
Definition same_index (ixs : list (list R)) : bool :=
  match ixs with
  | [] => true
  | ix :: rest => forallb (fun ix' => bool_decide (ix' = ix)) rest
  end.

Definition combined_index (ixs : list (list R)) : option (bool * list R) :=
  if same_index ixs then Some (true, default [] (head ixs))
  else if forallb (fun ix => bool_decide (NoDup ix)) ixs
  then Some (false, uniq (mjoin ixs))
  else None.

(** The cells a table contributes to row number [k], labelled [r], of
    the result. *)
Definition aligned_row (by_position : bool) (k : nat) (r : R)
    (f : DataFrame R C) : list cell :=
  if by_position then row_at k f else lookup_row r f.

Definition aligned_cell (by_position : bool) (k : nat) (r : R)
    (s : Series R) : cell :=
  if by_position then default None (snd <$> s !! k) else lookup_cell r s.

(** [pd.concat(frames, axis=1, keys=keys)], with one key per table: the
    tables side by side, in the order given, every column label
    prefixed with the key of its table. *)
Definition concat (keys : list K) (frames : list (DataFrame R C))
    : result (DataFrame R (K * C)) :=
  match frames with
  | [] => Raise ValueError
  | _ =>
      match combined_index (index <$> frames) with
      | None => Raise InvalidIndexError
      | Some (by_position, ix) =>
          let blocks := zip keys frames in
          Ok (mkFrame
                (blocks ≫= fun b : K * DataFrame R C => pair b.1 <$> columns b.2)
                (imap (fun k r =>
                         (r, blocks ≫= fun b : K * DataFrame R C =>
                                         aligned_row by_position k r b.2))
                      ix))
      end
  end.

(** The same for series: one column per series, labelled by its key.
    Here a series with a repeated label that has to be re-indexed makes
    the construction of the table fail. *)
Definition concat_series (keys : list K) (series : list (Series R))
    : result (DataFrame R K) :=
  match series with
  | [] => Raise ValueError
  | _ =>
      match combined_index ((fun s : Series R => s.*1) <$> series) with
      | None => Raise ValueError
      | Some (by_position, ix) =>
          let blocks := zip keys series in
          Ok (mkFrame
                (blocks.*1)
                (imap (fun k r =>
                         (r, (fun b : K * Series R =>
                                aligned_cell by_position k r b.2) <$> blocks))
                      ix))
      end
  end.
End align.

(** What [f.loc[key]] with a full row label gives. *)
Inductive selection (R C : Type) : Type :=
  | OneRow (s : Series C)
  | SomeRows (t : DataFrame R C).
Arguments OneRow {R C} s.
Arguments SomeRows {R C} t.

Section levels.
Context {A B R C : Type}.

(** [f.columns.droplevel(1)] assigned back to [f.columns]. *)
Definition droplevel_columns (f : DataFrame R (A * B)) : DataFrame R A :=
  mkFrame ((columns f).*1) (rows f).

(** [f.loc[key]] on a two-level row index: the rows under [key],
    labelled by their second level. *)
Definition loc_level0 `{EqDecision A} (key : A) (f : DataFrame (A * B) C)
    : result (DataFrame B C) :=
  match filter (fun row : (A * B) * list cell => row.1.1 = key) (rows f) with
  | [] => Raise KeyError
  | sel => Ok (mkFrame (columns f)
                 ((fun row : (A * B) * list cell => (row.1.2, row.2)) <$> sel))
  end.

Definition series_loc_level0 `{EqDecision A} (key : A) (s : Series (A * B))
    : result (Series B) :=
  match filter (fun e : (A * B) * cell => e.1.1 = key) s with
  | [] => Raise KeyError
  | sel => Ok ((fun e : (A * B) * cell => (e.1.2, e.2)) <$> sel)
  end.

(** [f.loc[key]] with a full row label.  In a table without repeated
    row labels this is the row as a series over the columns.  As soon
    as some row label repeats, the selection stays a table, of the rows
    with that label. *)
Definition loc_row `{EqDecision R} (key : R) (f : DataFrame R C)
    : result (selection R C) :=
  match filter (fun row : R * list cell => row.1 = key) (rows f) with
  | [] => Raise KeyError
  | row :: sel =>
      if bool_decide (NoDup (index f))
      then Ok (OneRow (zip (columns f) row.2))
      else Ok (SomeRows (mkFrame (columns f) (row :: sel)))
  end.

(** [f[label]]. *)
Definition get_column `{EqDecision C} (label : C) (f : DataFrame R C)
    : result (Series R) :=
  match list_find (fun c => c = label) (columns f) with
  | Some (j, _) => Ok (zip (index f) (column_at j f))
  | None => Raise KeyError
  end.

(** [f.drop(label, level=1)] on a two-level row index: every row with
    that label goes; without such a row the label is not found. *)
Definition drop_level1 `{EqDecision B} (label : B) (f : DataFrame (A * B) C)
    : result (DataFrame (A * B) C) :=
  if bool_decide (label ∈ (index f).*2)
  then Ok (mkFrame (columns f)
             (filter (fun row : (A * B) * list cell => row.1.2 ≠ label) (rows f)))
  else Raise KeyError.
End levels.

End Pandas.

(** ** [compare_scenarios] (comp.py 87-273) *)

Module Comp.
Import Pandas.

(** *** Objects *)

(** The list object behind the argument [result_files] is shared with
    the caller: a store maps references to the current value of each
    list object. *)
Abbreviation ref := nat.
Abbreviation store := (ref → list string).

(** *** Result workbooks *)

(** The sheet 'Commodity sums' as parsed in line 128, in the layout
    [urbs.report] writes: an unnamed first column, which is blank on all
    but the first row of each run, a column headed 'pro', and one column
    per commodity. *)
Record RawSums : Type := mkRawSums {
  raw_columns : list string;
  raw_rows : list (option string * string * list cell)
}.

(** A workbook: its sheets by name, as far as it has them. *)
Record Workbook : Type := mkWorkbook {
  Costs : option (DataFrame string string);
  Commodity_sums : option RawSums;
  Process_caps : option (DataFrame (string * string) string)
}.

(** [xls.parse(name, ...)]: a sheet the workbook has not got is a
    [ValueError]. *)
Definition parse {A} (sheet : option A) : result A :=
  match sheet with
  | Some t => Ok t
  | None => Raise ValueError
  end.

(** The files that can be opened, with their content. *)
Definition filesystem : Type := string → option Workbook.

(** *** Lines 105-109: scenario names *)

Definition scenario_name (rf : string) : string :=
  Py.replace "scenario " ""
    (Py.replace ".xlsx" ""
       (Py.replace "_" " " (Py.basename rf))).

(** *** Lines 111-117: base scenario first *)

(** The body of the [try]. *)
Definition base_first_try (result_files : ref) (scenario_names : list string)
    (σ : store) : store * list string * result () :=
  match Py.list_index "base" scenario_names with
  | Raise e => (σ, scenario_names, Raise e)
  | Ok base_scenario =>
      match Py.list_pop (σ result_files) base_scenario with
      | Raise e => (σ, scenario_names, Raise e)
      | Ok (rf, rest) =>
          let σ := <[result_files := rest]> σ in
          let σ := <[result_files := Py.list_insert 0 rf (σ result_files)]> σ in
          match Py.list_pop scenario_names base_scenario with
          | Raise e => (σ, scenario_names, Raise e)
          | Ok (name, rest) => (σ, Py.list_insert 0 name rest, Ok ())
          end
      end
  end.

(** [except ValueError: pass]. *)
Definition base_first (result_files : ref) (scenario_names : list string)
    (σ : store) : store * list string * result () :=
  match base_first_try result_files scenario_names σ with
  | (σ', names', Raise ValueError) => (σ', names', Ok ())
  | r => r
  end.

(** *** Lines 125-140: reading *)

Definition fill (prev cur : list cell) : list cell :=
  imap (fun j v => match v with Some _ => v | None => default None (prev !! j) end) cur.

(** Lines 132-134: [reset_index], forward fill of every column,
    [set_index(['index', 'pro'])]. *)
Fixpoint ffill_rows (prev_index : option string) (prev : list cell)
    (raw : list (option string * string * list cell))
    : list ((option string * string) * list cell) :=
  match raw with
  | [] => []
  | (i, pro, vs) :: rest =>
      let i' := match i with Some _ => i | None => prev_index end in
      let vs' := fill prev vs in
      ((i', pro), vs') :: ffill_rows i' vs' rest
  end.

Definition repair (raw : RawSums) : DataFrame (option string * string) string :=
  mkFrame (raw_columns raw) (ffill_rows None [] (raw_rows raw)).

Abbreviation CostTable := (DataFrame string string).
Abbreviation EsumTable := (DataFrame (option string * string) string).
Abbreviation CapSeries := (Series string).

(** One pass of the loop body. *)
Definition read_one (fs : filesystem) (rf : string)
    : result (CostTable * EsumTable * CapSeries) :=
  match fs rf with
  | None => Raise IOError
  | Some xls =>
      cost ← parse (Costs xls);
      esum ← parse (Commodity_sums xls);
      cap ← parse (Process_caps xls);
      let esum := repair esum in
      total ← get_column "Total" cap;
      cap ← series_loc_level0 "Campus" total;
      Ok (cost, esum, cap)
  end.

(** The loop, appending to [costs], [esums] and [caps]. *)
Fixpoint read_loop (fs : filesystem) (files : list string)
    (costs : list CostTable) (esums : list EsumTable) (caps : list CapSeries)
    : result (list CostTable * list EsumTable * list CapSeries) :=
  match files with
  | [] => Ok (costs, esums, caps)
  | rf :: rest =>
      '(cost, esum, cap) ← read_one fs rf;
      read_loop fs rest (costs ++ [cost]) (esums ++ [esum]) (caps ++ [cap])
  end.

(** *** Lines 143-145: merging *)

Record Merged : Type := mkMerged {
  m_costs : DataFrame string (string * string);
  m_esums : DataFrame (option string * string) (string * string);
  m_caps : DataFrame string string
}.

Definition merge (scenario_names : list string)
    (costs : list CostTable) (esums : list EsumTable) (caps : list CapSeries)
    : result Merged :=
  costs ← concat scenario_names costs;
  esums ← concat scenario_names esums;
  caps ← concat_series scenario_names caps;
  Ok {| m_costs := costs; m_esums := esums; m_caps := caps |}.

(** *** Lines 153-192: analysis *)

(** [lambda x: x.replace('.Campus', '')]; on a two-level label it is
    applied to both levels. *)
Definition strip_site (x : string) : string := Py.replace ".Campus" "" x.
Definition strip_site2 (p : string * string) : string * string :=
  (strip_site p.1, strip_site p.2).

(** Orders on (scenario, commodity): both levels ascending, and
    [ascending=[False, True]]. *)
Definition asc_asc (a b : string * string) : bool :=
  if String.eqb a.1 b.1 then String.ltb a.2 b.2 else String.ltb a.1 b.1.
Definition desc_asc (a b : string * string) : bool :=
  if String.eqb a.1 b.1 then String.ltb a.2 b.2 else String.ltb b.1 a.1.

(** Lines 153-155. *)
Definition costs_view (m : Merged) : DataFrame string string :=
  transpose (sort_index String.ltb (droplevel_columns (m_costs m))).

(** Lines 156-157. *)
Definition spent_view (costs : DataFrame string string) : DataFrame string string :=
  loc_columns costs (gt (sum costs) 0).
Definition earnt_view (costs : DataFrame string string) : DataFrame string string :=
  loc_columns costs (lt (sum costs) 0).

(** Lines 160-161. *)
Definition created_view (m : Merged) : result (DataFrame (string * string) string) :=
  f ← loc_level0 (Some "Created") (m_esums m);
  Ok (transpose (rename_columns strip_site2 f)).

Definition consumed_view (m : Merged) : result (DataFrame (string * string) string) :=
  f ← loc_level0 (Some "Consumed") (m_esums m);
  f ← drop_columns "Demand" (transpose (rename_columns strip_site2 f));
  Ok (map_values Qopp f).

(** Lines 163-164. *)
Definition keep_created (created : DataFrame (string * string) string)
    : DataFrame (string * string) string :=
  map_values (fun q => q / 1000)%Q (loc_columns created (gt (sum created) (1 # 10))).

Definition keep_consumed (consumed : DataFrame (string * string) string)
    : DataFrame (string * string) string :=
  map_values (fun q => q / 1000)%Q (loc_columns consumed (lt (sum consumed) (- (1 # 10)))).

(** Lines 169-172 on the selected row: sorted by label, the site
    stripped from the labels, in thousands. *)
Definition scaled (retrieved : Series (string * string)) : Series (string * string) :=
  (fun e : (string * string) * cell => (e.1, (fun q => q / 1000)%Q <$> e.2)) <$>
    ((fun e : (string * string) * cell => (strip_site2 e.1, e.2)) <$>
       Py.sorted (fun a b : (string * string) * cell => asc_asc a.1 b.1) retrieved).

(** Lines 169-188. *)
Definition storage_view (m : Merged) : result (DataFrame (string * string) string) :=
  let key := (Some "Storage", "Retrieved") in
  sel ← loc_row key (m_esums m);
  match sel with
  | SomeRows t =>
      (* The selection is a table and lines 169-183 leave it one, with
         twice its columns, so that the two names of line 184 fit only
         two columns; its rows are still labelled [key], among which
         line 186 finds no 'Elec'. *)
      if bool_decide (length (columns t) = 1%nat)
      then Raise KeyError
      else Raise ValueError
  | OneRow sto_sums =>
      let sto_sums := scaled sto_sums in
      (* without [keys] the two columns carry the name of the series,
         which is the row label it was selected by *)
      sto_sums ← concat_series [key; key] [sto_sums; sto_sums];
      sto_sums ← set_columns ["Battery"; "Reservoir"] sto_sums;
      let sto_sums := sort_index asc_asc sto_sums in
      sto_sums ← set_where (fun r => bool_decide (r.2 = "Elec")) "Reservoir" 0 sto_sums;
      sto_sums ← set_where (fun r => bool_decide (r.2 = "Heat")) "Battery" 0 sto_sums;
      Ok (sort_index desc_asc sto_sums)
  end.

Record Views : Type := mkViews {
  costs : DataFrame string string;
  spent : DataFrame string string;
  earnt : DataFrame string string;
  created : DataFrame (string * string) string;
  consumed : DataFrame (string * string) string;
  sto_sums : DataFrame (string * string) string
}.

Definition analyse (m : Merged) : result Views :=
  let costs := costs_view m in
  let spent := spent_view costs in
  let earnt := earnt_view costs in
  created ← created_view m;
  consumed ← consumed_view m;
  let created := keep_created created in
  let consumed := keep_consumed consumed in
  let created := sort_index desc_asc created in
  let consumed := sort_index desc_asc consumed in
  sto_sums ← storage_view m;
  (* lines 191-192 *)
  created ← drop_level1 "CO2" created;
  consumed ← drop_level1 "CO2" consumed;
  sto_sums ← drop_level1 "CO2" sto_sums;
  Ok {| costs := costs; spent := spent; earnt := earnt;
        created := created; consumed := consumed; sto_sums := sto_sums |}.

(** *** The function *)

(** Everything up to line 192; what follows draws the views and writes
    the merged tables, and changes none of them.  The result is the
    final state of the store together with the tables, or the
    exception that ended the call. *)
Definition compare_scenarios (fs : filesystem) (result_files : ref)
    (output_filename : string) (σ : store) : store * result (Merged * Views) :=
  let scenario_names := scenario_name <$> σ result_files in
  let '(σ, scenario_names, r) := base_first result_files scenario_names σ in
  (σ,
   _ ← r;
   '(costs, esums, caps) ← read_loop fs (σ result_files) [] [] [];
   m ← merge scenario_names costs esums caps;
   v ← analyse m;
   Ok (m, v)).

End Comp.

(** ** Finding the workbooks (comp.py 15-40, 314-319) *)

Module Files.

(** [s.endswith('/')]. *)
Fixpoint ends_with_slash (s : string) : bool :=
  match s with
  | EmptyString => false
  | String c EmptyString => Ascii.eqb c "/"%char
  | String _ s' => ends_with_slash s'
  end.

(** [os.path.join(a, b)] for a [b] that does not start with a slash. *)
Definition path_join (a b : string) : string :=
  if String.eqb a "" then b
  else if ends_with_slash a then String.append a b
  else String.append a (String.append "/" b).

Section os.
(** What the operating system answers: the paths matching a pattern, in
    whatever order it lists them, and the modification time of a path. *)
Variables (glob : string → list string) (getmtime : string → Q).

(** Lines 25-27.  [entries.sort(key=...)] is stable and compares the
    keys with [<]; [entries[-1]] is the last entry. *)
Definition get_most_recent_entry (search_dir : string) : result string :=
  let entries := glob (path_join search_dir "*") in
  let entries :=
    Py.sorted (fun x y => Pandas.Qltb (getmtime x) (getmtime y)) entries in
  match list.last entries with
  | Some entry => Ok entry
  | None => Raise IndexError
  end.

(** Lines 38-40. *)
Definition glob_result_files (folder_name : string) : list string :=
  let glob_pattern := path_join folder_name "s*.xlsx" in
  Py.sorted String.ltb (glob glob_pattern).

(** The first argument of the call in line 319, [list(reversed(...))] of
    the [result_files] of line 314. *)
Definition reversed_result_files (directory : string) : list string :=
  reverse (glob_result_files directory).
End os.

End Files.

(** ** Tick labels (comp.py 235-244) *)

Module Ticks.
Import Pandas.

(** [int(x)]: the fraction is cut off, towards zero. *)
Definition int (x : Q) : Z := Z.quot (Qnum x) (Z.pos (Qden x)).

(** [str(n)], the decimal numeral of an integer. *)
Definition str (n : Z) : string := NilZero.string_of_int (Z.to_int n).

(** The [,] of a format specification, on the digits from the right: a
    comma behind every three digits that more digits follow. *)
Fixpoint group_rev (ds : list ascii) : list ascii :=
  match ds with
  | a :: b :: c :: ((_ :: _) as rest) => a :: b :: c :: ","%char :: group_rev rest
  | _ => ds
  end.

Definition group (ds : string) : string :=
  String.string_of_list_ascii
    (reverse (group_rev (reverse (String.list_ascii_of_string ds)))).

(** ['{:0,d}'.format(n)]: the sign, then the grouped digits. *)
Definition format_comma (n : Z) : string :=
  let s := str n in
  match s with
  | String c ds => if Ascii.eqb c "-" then String c (group ds) else group s
  | EmptyString => group s
  end.

(** What a formatter returns: a text, or the number it was given. *)
Inductive label : Type :=
  | Text (s : string)
  | Number (x : Q).

(** Lines 238-239 and 242-243; [pos] is [None] where matplotlib asks
    for a label outside the tick list. *)
Definition group_thousands_and_skip_first (x : Q) (pos : option Z) : label :=
  if bool_decide (pos = Some 0%Z) then Text "" else Text (format_comma (int x)).

Definition skip_lowest (x : Q) (pos : option Z) : label :=
  if bool_decide (pos = Some 0%Z) then Text "" else Number x.

(** Lines 236-244: the formatter of an axis with limits [xmin], [xmax]. *)
Definition major_formatter (xmin xmax : Q) : Q → option Z → label :=
  if Qltb 90 xmax || Qltb xmin (-90)
  then group_thousands_and_skip_first
  else skip_lowest.

End Ticks.

(** * Properties *)

Lemma bind_ok {A B} (x : A) (k : A → result B) : (Ok x ≫= k) = k x.
Proof. done. Qed.

(** ** String order *)

Lemma str_lt_compare a b : str_lt a b ↔ String.compare a b = Lt.
Proof.
  unfold str_lt, String.ltb. destruct (String.compare a b); split; congruence.
Qed.

Global Instance str_lt_trans : Transitive str_lt.
Proof.
  intros a b c. rewrite !str_lt_compare.
  change String.compare with String_as_OT.cmp.
  rewrite !String_as_OT.cmp_lt. apply String_as_OT.lt_trans.
Qed.

Lemma str_lt_irrefl a : ¬ str_lt a a.
Proof.
  rewrite str_lt_compare.
  assert (String.compare a a = Eq) as -> by (by apply String_as_OT.cmp_eq).
  done.
Qed.

Lemma str_lt_total a b : a ≠ b → String.ltb a b = false → str_lt b a.
Proof.
  intros Hne Hlt. rewrite str_lt_compare, String.compare_antisym.
  unfold String.ltb in Hlt.
  destruct (String.compare a b) eqn:E; simpl; try done.
  by apply String.compare_eq_iff in E.
Qed.

(** ** Sorting *)

Module PyFacts.
Import Py.
Section sorted.
Context {A : Type} (ltb : A → A → bool).

Lemma insort_perm x l : insort ltb x l ≡ₚ x :: l.
Proof.
  induction l as [|y l IH]; simpl; [done|].
  destruct (ltb x y); [done|].
  rewrite IH. apply Permutation_swap.
Qed.

Lemma sorted_acc_perm l acc :
  foldl (fun acc x => insort ltb x acc) acc l ≡ₚ acc ++ l.
Proof.
  revert acc. induction l as [|x l IH]; intros acc; simpl.
  - by rewrite app_nil_r.
  - rewrite IH, insort_perm. simpl. apply Permutation_middle.
Qed.

Lemma sorted_perm l : sorted ltb l ≡ₚ l.
Proof. apply sorted_acc_perm. Qed.

Lemma elem_of_sorted x l : x ∈ sorted ltb l ↔ x ∈ l.
Proof. by rewrite sorted_perm. Qed.

End sorted.
End PyFacts.

(** ** Legend *)

Module LegendFacts.
Import Py Legend PyFacts.
Section facts.
Context {Hdl : Type} (hdl_ltb : Hdl → Hdl → bool).
Implicit Types (x y : string * Hdl).

Definition by_label : relation (string * Hdl) := fun p q => str_lt p.1 q.1.

Lemma tuple_ltb_distinct x y :
  x.1 ≠ y.1 → tuple_ltb hdl_ltb x y = String.ltb x.1 y.1.
Proof.
  intros Hne. unfold tuple_ltb.
  destruct (String.eqb_spec x.1 y.1); done.
Qed.

Lemma insort_hd x y l :
  by_label y x → HdRel by_label y l →
  HdRel by_label y (insort (tuple_ltb hdl_ltb) x l).
Proof.
  intros Hyx Hhd. destruct l as [|z l]; simpl.
  - by constructor.
  - destruct (tuple_ltb hdl_ltb x z); constructor; [done|].
    by inversion Hhd.
Qed.

Lemma insort_sorted x l :
  x.1 ∉ l.*1 → Sorted by_label l →
  Sorted by_label (insort (tuple_ltb hdl_ltb) x l).
Proof.
  induction l as [|y l IH]; simpl; intros Hx Hs.
  - repeat constructor.
  - apply not_elem_of_cons in Hx as [Hne Hx].
    rewrite tuple_ltb_distinct by done.
    apply Sorted_inv in Hs as [Hs Hhd].
    destruct (String.ltb x.1 y.1) eqn:E.
    + constructor; [by constructor|]. by constructor.
    + constructor; [by apply IH|].
      apply insort_hd; [|done]. by apply str_lt_total.
Qed.

Lemma sorted_acc_sorted l acc :
  NoDup (acc ++ l).*1 → Sorted by_label acc →
  Sorted by_label (foldl (fun acc x => insort (tuple_ltb hdl_ltb) x acc) acc l).
Proof.
  revert acc. induction l as [|x l IH]; intros acc Hnd Hs; simpl; [done|].
  apply IH.
  - eapply NoDup_Permutation_proper; [|exact Hnd].
    apply fmap_Permutation. rewrite insort_perm. apply Permutation_middle.
  - apply insort_sorted; [|done].
    rewrite fmap_app, fmap_cons in Hnd.
    apply list.NoDup_app in Hnd as (_ & Hdisj & Hnd).
    intros Hin. apply (Hdisj _ Hin). left.
Qed.

Lemma sorted_sorted l :
  NoDup l.*1 → StronglySorted str_lt (sorted (tuple_ltb hdl_ltb) l).*1.
Proof.
  intros Hnd. apply Sorted_StronglySorted; [apply _|].
  apply Sorted_fmap with (R1 := by_label); [done|].
  apply sorted_acc_sorted; [done|constructor].
Qed.

Lemma dedup_loop_inv (zs : list (Hdl * string)) nh nl nh' nl' :
  dedup_loop zs nh nl = (nh', nl') → length nh = length nl → NoDup nl →
  length nh' = length nl' ∧ NoDup nl' ∧
  (∀ l, l ∈ nl' ↔ l ∈ nl ∨ l ∈ zs.*2) ∧
  (∀ l h, (l, h) ∈ (zip nl' nh') →
     (l, h) ∈ (zip nl nh) ∨ ((l ∉ nl) ∧ first_handle zs l = Some h)) ∧
  length nl' ≤ length nl + length zs.
Proof.
  revert nh nl. induction zs as [|[hdl lbl] zs IH]; simpl; intros nh nl Hloop Hlen Hnd.
  - injection Hloop as <- <-. split_and!; try done.
    + intros l. rewrite elem_of_nil. tauto.
    + intros l h ?. by left.
    + lia.
  - case_bool_decide as Hin; simpl in Hloop.
    + destruct (IH _ _ Hloop Hlen Hnd) as (Hl & Hn & Hmem & Hfst & Hle).
      split_and!; try done.
      * intros l. rewrite Hmem, elem_of_cons.
        split; [tauto|]. intros [?|[->|?]]; tauto.
      * intros l h Hlh. destruct (Hfst l h Hlh) as [?|[Hnl Hf]]; [by left|].
        right. split; [done|]. case_decide; [by subst|done].
      * lia.
    + assert (NoDup (nl ++ [lbl])) as Hnd'.
      { apply list.NoDup_app. split_and!; [done| |apply NoDup_singleton].
        by intros x Hx ->%list_elem_of_singleton. }
      assert (length (nh ++ [hdl]) = length (nl ++ [lbl])) as Hlen'.
      { rewrite !length_app. simpl. lia. }
      destruct (IH _ _ Hloop Hlen' Hnd') as (Hl & Hn & Hmem & Hfst & Hle).
      split_and!; try done.
      * intros l.
        rewrite Hmem, elem_of_app, list_elem_of_singleton, elem_of_cons. tauto.
      * intros l h Hlh. destruct (Hfst l h Hlh) as [Hz|[Hnl Hf]].
        -- rewrite zip_with_app in Hz by done.
           apply elem_of_app in Hz as [?|Hz]; [by left|].
           apply list_elem_of_singleton in Hz. injection Hz as -> ->.
           right. split; [done|]. by rewrite decide_True.
        -- right. split.
           ++ intros ?. apply Hnl, elem_of_app. by left.
           ++ rewrite decide_False; [done|].
              intros ->. apply Hnl, elem_of_app. right. left.
      * rewrite length_app in Hle. simpl in Hle. lia.
Qed.

Lemma dedup_loop_nodup (zs : list (Hdl * string)) nh nl :
  NoDup (nl ++ zs.*2) → dedup_loop zs nh nl = (nh ++ zs.*1, nl ++ zs.*2).
Proof.
  revert nh nl. induction zs as [|[hdl lbl] zs IH]; simpl; intros nh nl Hnd.
  - by rewrite !app_nil_r.
  - rewrite bool_decide_false; simpl.
    + rewrite IH; rewrite <- !app_assoc; done.
    + apply list.NoDup_app in Hnd as (_ & Hdisj & _).
      intros Hin. apply (Hdisj _ Hin). left.
Qed.

Lemma zip_swap (ps : list (string * Hdl)) : zip ps.*2 ps.*1 = prod_swap <$> ps.
Proof. induction ps as [|[??] ps IH]; csimpl; [done|]. by f_equal. Qed.

Lemma zip_swap_zip (hs : list Hdl) (ls : list string) :
  prod_swap <$> zip ls hs = zip hs ls.
Proof.
  revert ls. induction hs as [|h hs IH]; intros [|l ls]; csimpl; try done.
  by f_equal.
Qed.

(** C6: on equal-length non-empty input [deduplicate_legend] returns
    the distinct labels in strictly ascending lexicographic order, each
    with the handle of its first occurrence; the output is no longer
    than the input, and when no label repeats it is a permutation of
    the input pairs. *)
Theorem deduplicate_legend_sorted_distinct
    (handles : list Hdl) (labels : list string) :
  length handles = length labels → labels ≠ [] →
  ∃ hs ls,
    deduplicate_legend hdl_ltb handles labels = Ok (hs, ls) ∧
    length hs = length ls ∧
    StronglySorted str_lt ls ∧
    NoDup ls ∧
    (∀ l, l ∈ ls ↔ l ∈ labels) ∧
    (∀ h l, (h, l) ∈ (zip hs ls) →
       first_handle (zip handles labels) l = Some h) ∧
    length ls ≤ length labels ∧
    (NoDup labels → zip hs ls ≡ₚ zip handles labels).
Proof.
  intros Hlen Hne. unfold deduplicate_legend.
  destruct (dedup_loop (zip handles labels) [] []) as [nh nl] eqn:Hloop.
  destruct (dedup_loop_inv _ _ _ _ _ Hloop eq_refl (NoDup_nil_2))
    as (Hl & Hnd & Hmem & Hfst & Hle).
  assert ((zip handles labels).*2 = labels) as Hsnd by (apply snd_zip; lia).
  assert ((zip handles labels).*1 = handles) as Hfstz by (apply fst_zip; lia).
  rewrite Hsnd in Hmem.
  assert ((zip nl nh).*1 = nl) as Hz1 by (apply fst_zip; lia).
  set (ps := sorted (tuple_ltb hdl_ltb) (zip nl nh)).
  assert (ps ≡ₚ zip nl nh) as Hperm by apply sorted_perm.
  assert (ps.*1 ≡ₚ nl) as Hperm1 by (by rewrite Hperm, Hz1).
  assert (ps ≠ []) as Hps.
  { intros E. rewrite E in Hperm1. apply Permutation_nil_l in Hperm1. subst nl.
    destruct labels as [|l0 ?]; [done|].
    destruct (Hmem l0) as [_ Hin]. specialize (Hin (or_intror (list_elem_of_here _ _))).
    by apply elem_of_nil in Hin. }
  assert (zip_star ps = [inl ps.*1; inr ps.*2]) as -> by (by destruct ps).
  simpl. exists ps.*2, ps.*1. split; [done|].
  split_and!.
  - by rewrite !length_fmap.
  - apply sorted_sorted. by rewrite Hz1.
  - by rewrite Hperm1.
  - intros l. rewrite Hperm1, Hmem, elem_of_nil. tauto.
  - intros h l. rewrite zip_swap, list_elem_of_fmap.
    intros ([l' h'] & [= -> ->] & Hin). rewrite Hperm in Hin.
    destruct (Hfst _ _ Hin) as [Hnil|[_ ?]]; [|done].
    by apply elem_of_nil in Hnil.
  - rewrite length_fmap, Hperm, length_zip_with, <- Hl, Nat.min_id.
    rewrite length_zip_with in Hle. simpl in Hle. lia.
  - intros Hndl. rewrite (dedup_loop_nodup _ [] []) in Hloop
      by (simpl; by rewrite Hsnd).
    simpl in Hloop. rewrite Hsnd, Hfstz in Hloop. injection Hloop as <- <-.
    rewrite zip_swap, Hperm. by rewrite zip_swap_zip.
Qed.

(** C7 (the code departs from it): with two empty sequences nothing
    reaches the two unpacking targets of line 59, so the call raises
    [ValueError] instead of returning a pair of empty lists. *)
Theorem deduplicate_legend_empty_raises :
  deduplicate_legend hdl_ltb [] [] = Raise ValueError.
Proof. reflexivity. Qed.

End facts.

Lemma deduplicate_legend_sorted_distinct_witness :
  ∃ hs ls,
    deduplicate_legend Nat.ltb [1; 2; 3; 4] ["wind"; "gas"; "wind"; "coal"]%string
      = Ok (hs, ls) ∧
    length hs = length ls ∧
    StronglySorted str_lt ls ∧
    NoDup ls ∧
    (∀ l, l ∈ ls ↔ l ∈ ["wind"; "gas"; "wind"; "coal"]%string) ∧
    (∀ h l, (h, l) ∈ (zip hs ls) →
       first_handle (zip [1; 2; 3; 4] ["wind"; "gas"; "wind"; "coal"]%string) l
         = Some h) ∧
    length ls ≤ 4 ∧
    (NoDup ["wind"; "gas"; "wind"; "coal"]%string →
       zip hs ls ≡ₚ zip [1; 2; 3; 4] ["wind"; "gas"; "wind"; "coal"]%string).
Proof.
  apply (deduplicate_legend_sorted_distinct Nat.ltb
           [1; 2; 3; 4] ["wind"; "gas"; "wind"; "coal"]%string).
  - reflexivity.
  - discriminate.
Defined.

Example deduplicate_legend_run :
  deduplicate_legend Nat.ltb [1; 2; 3; 4] ["wind"; "gas"; "wind"; "coal"]%string
  = Ok ([4; 2; 1], ["coal"; "gas"; "wind"]%string).
Proof. reflexivity. Qed.

End LegendFacts.

(** ** Bar-group layout *)

Module LayoutFacts.
Import Layout.
Local Open Scope Q_scope.

(** The claimed vertical offset of row [r]. *)
Definition row_y (group_size : Z) (bar_height inner_sep : Q) (r : Z) : Q :=
  let group_number := (r / group_size)%Z in
  let row_within_group := (r mod group_size)%Z in
  let group_offset :=
    inject_Z (group_number * group_size)
    + (1 # 2) * inject_Z (group_size - 1) * (1 - inner_sep)
    - (1 # 2) * (inject_Z group_size * bar_height) in
  inject_Z row_within_group * (bar_height + inner_sep) + group_offset.

Definition place (group_size : Z) (bar_height inner_sep : Q) (row0 : Z)
    (i : nat) (p : Rectangle) : Rectangle :=
  set_y p (row_y group_size bar_height inner_sep (row0 + Z.of_nat i)).

Lemma set_rows_ok gs bh sep row patches :
  gs ≠ 0%Z →
  set_rows gs bh sep row patches = Ok (imap (place gs bh sep row) patches).
Proof.
  intros Hgs. revert row.
  induction patches as [|p ps IH]; intros row; simpl; [done|].
  unfold divmod. apply Z.eqb_neq in Hgs as Hgs'. rewrite Hgs'. simpl.
  rewrite IH. simpl. f_equal. f_equal.
  - unfold place, row_y, group_offset. by rewrite Z.add_0_r.
  - apply imap_ext. intros i x _. unfold place. simpl.
    do 2 f_equal. lia.
Qed.

Lemma set_columns_ok gs bh sep handles :
  gs ≠ 0%Z →
  set_columns gs bh sep handles = Ok (imap (place gs bh sep 0) <$> handles).
Proof.
  intros Hgs. induction handles as [|h hs IH]; simpl; [done|].
  by rewrite set_rows_ok, IH.
Qed.

Lemma group_hbar_plots_ok handles gs inner_sep bh :
  first_bar_height handles = Ok bh → gs ≠ 0%Z →
  group_hbar_plots handles gs inner_sep
  = Ok (imap (place gs bh (effective_inner_sep bh inner_sep) 0) <$> handles).
Proof.
  intros Hbh Hgs. unfold group_hbar_plots. rewrite Hbh. simpl.
  by apply set_columns_ok.
Qed.

(** Python also takes a supplied [0.0] for "not supplied". *)
Lemma effective_inner_sep_zero bh :
  effective_inner_sep bh (Some 0) = (1 # 2) * (1 - bh).
Proof. reflexivity. Qed.



Definition four_bars : BarContainer :=
  let bar := mkRect 0 0 1 (1 # 2) in [bar; bar; bar; bar].




(** The layout property of one group of three: rows 0, 1, 2 of every
    handle lie in [[group_offset, group_offset + 2*(bar_height+inner_sep)]]
    and every row up to row 2 is strictly below its successor (so row 3
    is strictly above row 2). *)
Definition group3_ordered (handles : list BarContainer)
    (inner_sep : option Q) : Prop :=
  ∃ bar_height handles',
    first_bar_height handles = Ok bar_height ∧
    group_hbar_plots handles 3 inner_sep = Ok handles' ∧
    let sep := effective_inner_sep bar_height inner_sep in
    let group_offset := group_offset 3 bar_height sep 0 in
    ∀ handle' : BarContainer, handle' ∈ handles' →
      (∀ (row : nat) (p : Rectangle),
         (row < 3)%nat → handle' !! row = Some p →
         group_offset <= rect_y p ∧
         rect_y p <= group_offset + 2 * (bar_height + sep)) ∧
      (∀ (row : nat) (p q : Rectangle),
         (row < 3)%nat → handle' !! row = Some p → handle' !! S row = Some q →
         rect_y p < rect_y q).

(** C9 as stated fails: with bars of height 1/2 and a supplied
    [inner_sep] of 2, row 2 lands above row 3. *)
Lemma group3_ordered_counterexample :
  ¬ group3_ordered [four_bars] (Some 2).
Proof.
  intros (bh & handles' & Hbh & Hrun & Hall).
  injection Hbh as <-.
  vm_compute in Hrun. injection Hrun as <-.
  destruct (Hall _ (list_elem_of_here _ _)) as [_ Hinc].
  specialize (Hinc 2%nat _ _ ltac:(lia) eq_refl eq_refl).
  vm_compute in Hinc. discriminate.
Qed.

(** C9, amended: for [group_size = 3] and
    [0 < bar_height + inner_sep < 3/2], rows 0, 1, 2 get strictly
    increasing offsets inside
    [[group_offset, group_offset + 2*(bar_height+inner_sep)]] and row 3
    gets an offset strictly above that of row 2. *)
Theorem group_hbar_plots_group3_ordered (handles : list BarContainer)
    (inner_sep : option Q) (bar_height : Q) :
  first_bar_height handles = Ok bar_height →
  0 < bar_height + effective_inner_sep bar_height inner_sep →
  bar_height + effective_inner_sep bar_height inner_sep < 3 # 2 →
  group3_ordered handles inner_sep.
Proof.
  intros Hbh Hpos Hlt. exists bar_height. eexists.
  split; [done|]. split; [by apply group_hbar_plots_ok|].
  cbv zeta. set (sep := effective_inner_sep bar_height inner_sep) in *.
  intros handle' (handle & -> & _)%list_elem_of_fmap.
  assert (∀ row p, (row < 4)%nat →
            imap (place 3 bar_height sep 0) handle !! row = Some p →
            rect_y p == (Z.of_nat row # 1) * (bar_height + sep)
                        + group_offset 3 bar_height sep 0
                        - (if decide (row = 3%nat)
                           then 3 * (bar_height + sep) - 3 else 0)) as Hy.
  { intros row p Hrow. rewrite list_lookup_imap.
    destruct (handle !! row) as [p0|]; [|done]. intros [= <-].
    unfold place, row_y, group_offset, set_y. simpl rect_y.
    destruct row as [|[|[|[|?]]]]; try lia; vm_compute inject_Z;
      vm_compute Z.of_nat; case_decide; try lia; lra. }
  split.
  - intros row p Hrow Hp. apply Hy in Hp; [|lia]. rewrite Hp.
    rewrite decide_False by lia.
    destruct row as [|[|[|?]]]; try lia; vm_compute Z.of_nat; lra.
  - intros row p q Hrow Hp Hq. apply Hy in Hp, Hq; try lia.
    rewrite Hp, Hq. rewrite (decide_False (P := row = 3%nat)) by lia.
    destruct row as [|[|[|?]]]; try lia; vm_compute Z.of_nat;
      case_decide; try lia; lra.
Qed.

Lemma group_hbar_plots_group3_ordered_witness :
  group3_ordered [four_bars; four_bars] None.
Proof.
  apply (group_hbar_plots_group3_ordered [four_bars; four_bars] None (1 # 2)).
  - reflexivity.
  - reflexivity.
  - reflexivity.
Defined.

End LayoutFacts.

(** ** Base scenario first *)

Module BaseFacts.
Import Py Comp.

Lemma list_index_found (names : list string) (x : string) (i : nat) :
  names !! i = Some x → (∀ j, j < i → names !! j ≠ Some x) →
  list_index x names = Ok i.
Proof.
  intros Hi Hfirst. unfold list_index.
  assert (list_find (fun y => y = x) names = Some (i, x)) as ->; [|done].
  apply list_find_Some. split_and!; [done..|].
  intros j y Hj Hlt ->. by apply (Hfirst j).
Qed.

Lemma list_index_absent (names : list string) (x : string) :
  x ∉ names → list_index x names = Raise ValueError.
Proof.
  intros Hnot. unfold list_index.
  assert (list_find (fun y => y = x) names = None) as ->; [|done].
  apply list_find_None, list.Forall_forall. by intros y Hy ->.
Qed.

Lemma base_first_found (rf : ref) (σ : store) (names : list string) i f :
  names !! i = Some "base" → (∀ j, j < i → names !! j ≠ Some "base") →
  σ rf !! i = Some f →
  base_first rf names σ
  = (<[rf := f :: delete i (σ rf)]> (<[rf := delete i (σ rf)]> σ),
     "base" :: delete i names, Ok ()).
Proof.
  intros Hi Hfirst Hf. unfold base_first, base_first_try.
  rewrite (list_index_found _ _ i) by done.
  unfold list_pop. rewrite Hf, Hi. by rewrite fn_lookup_insert.
Qed.

Lemma base_first_absent (rf : ref) (σ : store) (names : list string) :
  "base" ∉ names → base_first rf names σ = (σ, names, Ok ()).
Proof.
  intros Hnot. unfold base_first, base_first_try.
  by rewrite list_index_absent.
Qed.

Lemma first_base (names : list string) :
  "base" ∈ names →
  ∃ i, names !! i = Some "base" ∧ ∀ j, j < i → names !! j ≠ Some "base".
Proof.
  intros [k Hk]%list_elem_of_lookup. revert k Hk.
  induction names as [|n ns IH]; intros k Hk; [done|].
  destruct (decide (n = "base")) as [->|Hne].
  - exists 0. split; [done|]. lia.
  - destruct k as [|k]; [by injection Hk|].
    destruct (IH k Hk) as (i & Hi & Hfirst).
    exists (S i). split; [done|].
    intros [|j] Hj; simpl; [congruence|]. apply Hfirst. lia.
Qed.

(** The two ways through lines 111-117. *)
Lemma base_first_cases (σ : store) (result_files : ref) :
  let files := σ result_files in
  let names := scenario_name <$> files in
  (∃ i rf,
     names !! i = Some "base" ∧ (∀ j, j < i → names !! j ≠ Some "base") ∧
     files !! i = Some rf ∧
     base_first result_files names σ
     = (<[result_files := rf :: delete i files]>
          (<[result_files := delete i files]> σ),
        "base" :: delete i names, Ok ())) ∨
  (("base" ∉ names) ∧ base_first result_files names σ = (σ, names, Ok ())).
Proof.
  intros files names.
  destruct (decide ("base" ∈ names)) as [Hin|Hnot].
  - left. destruct (first_base _ Hin) as (i & Hi & Hfirst).
    assert (∃ rf, files !! i = Some rf) as [rf Hrf].
    { unfold names in Hi. rewrite list_lookup_fmap in Hi.
      destruct (files !! i); [eauto|done]. }
    exists i, rf. split_and!; [done..|]. by apply base_first_found.
  - right. split; [done|]. by apply base_first_absent.
Qed.

Lemma base_first_names (σ : store) (result_files : ref) :
  let r := base_first result_files (scenario_name <$> σ result_files) σ in
  r.1.2 = scenario_name <$> r.1.1 result_files ∧ r.2 = Ok ().
Proof.
  destruct (base_first_cases σ result_files)
    as [(i & rf & Hi & _ & Hrf & ->)|[_ ->]]; simpl; [|done].
  rewrite fn_lookup_insert, fmap_cons, list_fmap_delete. split; [|done]. f_equal.
  rewrite list_lookup_fmap, Hrf in Hi. by injection Hi.
Qed.

(** C2: with the names derived from the files, a first name equal to
    "base" is moved to the front together with its file, everything
    else keeping its relative order; without such a name the
    [ValueError] of the lookup is swallowed and both lists stay as
    they are. *)
Theorem base_first_moves_base (σ : store) (result_files : ref) :
  let files := σ result_files in
  let names := scenario_name <$> files in
  ∃ (σ' : store) (names' : list string),
    base_first result_files names σ = (σ', names', Ok ()) ∧
    names' = scenario_name <$> σ' result_files ∧
    (∀ i, names !! i = Some "base" →
          (∀ j, j < i → names !! j ≠ Some "base") →
          ∃ rf, files !! i = Some rf ∧
                names' = "base" :: take i names ++ drop (S i) names ∧
                σ' result_files = rf :: take i files ++ drop (S i) files) ∧
    ("base" ∉ names → names' = names ∧ σ' result_files = files).
Proof.
  intros files names.
  pose proof (base_first_names σ result_files) as [Hnames _].
  destruct (base_first_cases σ result_files)
    as [(i & rf & Hi & Hfirst & Hrf & Hrun)|[Hnot Hrun]];
    fold files names in Hrun, Hnames |- *;
    rewrite Hrun in Hnames |- *; simpl in Hnames.
  - fold files names in Hi, Hfirst, Hrf.
    eexists _, _. split; [done|]. split; [done|].
    rewrite fn_lookup_insert. split.
    + intros i' Hi' Hfirst'.
      assert (i' = i) as ->.
      { destruct (Nat.lt_trichotomy i' i) as [?|[?|?]]; [|done|].
        - by destruct (Hfirst i').
        - by destruct (Hfirst' i). }
      exists rf. by rewrite <- !delete_take_drop.
    + intros Hnot. destruct Hnot. by eapply list_elem_of_lookup_2.
  - exists σ, names. split; [done|]. split_and!; [done| |done].
    intros i Hi _. destruct Hnot. by eapply list_elem_of_lookup_2.
Qed.

Example scenario_name_ex :
  scenario_name "result/scenario_base.xlsx" = "base" ∧
  scenario_name "result/scenario_alt_A.xlsx" = "alt A" ∧
  Py.replace "aa" "b" "aaa" = "ba".
Proof. by vm_compute. Qed.

Definition store_ex : store :=
  fun r => if decide (r = 7)
           then ["result/scenario_b.xlsx"; "result/scenario_base.xlsx";
                 "result/scenario_a.xlsx"]%string
           else [].

Lemma base_first_moves_base_witness :
  let files := store_ex 7 in
  let names := scenario_name <$> files in
  ∃ (σ' : store) (names' : list string),
    base_first 7 names store_ex = (σ', names', Ok ()) ∧
    names' = scenario_name <$> σ' 7 ∧
    (∀ i, names !! i = Some "base" →
          (∀ j, j < i → names !! j ≠ Some "base") →
          ∃ rf, files !! i = Some rf ∧
                names' = "base" :: take i names ++ drop (S i) names ∧
                σ' 7 = rf :: take i files ++ drop (S i) files) ∧
    ("base" ∉ names → names' = names ∧ σ' 7 = files).
Proof. exact (base_first_moves_base store_ex 7). Defined.

Example base_first_reorders :
  (base_first 7 ["b"; "base"; "a"] store_ex).1.2 = ["base"; "b"; "a"] ∧
  (base_first 7 ["b"; "base"; "a"] store_ex).1.1 7
  = ["result/scenario_base.xlsx"; "result/scenario_b.xlsx";
     "result/scenario_a.xlsx"]%string ∧
  (base_first 7 ["x"; "y"] store_ex).1.2 = ["x"; "y"] ∧
  (base_first 7 ["x"; "y"] store_ex).1.1 7 = store_ex 7.
Proof. by vm_compute. Qed.

Lemma compare_scenarios_store fs (rf : ref) out (σ : store) :
  (compare_scenarios fs rf out σ).1
  = (base_first rf (scenario_name <$> σ rf) σ).1.1.
Proof.
  unfold compare_scenarios.
  by destruct (base_first rf (scenario_name <$> σ rf) σ) as [[??]?].
Qed.

(** C10: the call changes the caller's list object and nothing else in
    the store: with a "base" scenario the list ends up with the base
    workbook popped and re-inserted at position 0, without one the
    list is what it was.  This holds whether or not the rest of the
    call goes through. *)
Theorem compare_scenarios_mutates_result_files fs (result_files : ref)
    (output_filename : string) (σ : store) :
  let files := σ result_files in
  let names := scenario_name <$> files in
  let σ' := (compare_scenarios fs result_files output_filename σ).1 in
  (∀ r, r ≠ result_files → σ' r = σ r) ∧
  (∀ i, names !! i = Some "base" →
        (∀ j, j < i → names !! j ≠ Some "base") →
        ∃ rf, files !! i = Some rf ∧
              σ' result_files = rf :: delete i files) ∧
  ("base" ∉ names → σ' result_files = files).
Proof.
  intros files names σ'. unfold σ'. rewrite compare_scenarios_store.
  fold files names. split_and!.
  - intros r Hr.
    destruct (Py.list_index "base" names) as [i|e] eqn:Hidx.
    + unfold list_index in Hidx.
      destruct (list_find _ names) as [[i' x]|] eqn:Hfind; [|done].
      injection Hidx as ->. apply list_find_Some in Hfind as (Hi & -> & Hfirst).
      assert (∃ rf, files !! i = Some rf) as [rf Hrf].
      { unfold names in Hi. rewrite list_lookup_fmap in Hi.
        destruct (files !! i); [eauto|done]. }
      rewrite (base_first_found _ _ _ i rf); try done.
      * simpl. by rewrite !fn_lookup_insert_ne.
      * intros j Hj Hnj. by apply (Hfirst j "base").
    + unfold list_index in Hidx.
      destruct (list_find _ names) as [[i' x]|] eqn:Hfind; [done|].
      apply list_find_None in Hfind.
      rewrite base_first_absent; [done|].
      intros Hin. by apply (proj1 (list.Forall_forall _ _) Hfind "base").
  - intros i Hi Hfirst.
    assert (∃ rf, files !! i = Some rf) as [rf Hrf].
    { unfold names in Hi. rewrite list_lookup_fmap in Hi.
      destruct (files !! i); [eauto|done]. }
    exists rf. split; [done|].
    rewrite (base_first_found _ _ _ i rf) by done.
    simpl. by rewrite fn_lookup_insert.
  - intros Hnot. by rewrite base_first_absent.
Qed.

Lemma compare_scenarios_mutates_result_files_witness :
  let files := store_ex 7 in
  let names := scenario_name <$> files in
  let σ' := (compare_scenarios (fun _ => None) 7 "comparison" store_ex).1 in
  (∀ r, r ≠ 7 → σ' r = store_ex r) ∧
  (∀ i, names !! i = Some "base" →
        (∀ j, j < i → names !! j ≠ Some "base") →
        ∃ rf, files !! i = Some rf ∧ σ' 7 = rf :: delete i files) ∧
  ("base" ∉ names → σ' 7 = files).
Proof.
  exact (compare_scenarios_mutates_result_files
           (fun _ => None) 7 "comparison" store_ex).
Defined.

End BaseFacts.

(** ** Tables *)

Module PandasFacts.
Import Py Pandas PyFacts.

#[global] Instance Qlt_decision (x y : Q) : Decision (x < y)%Q.
Proof.
  destruct (Qlt_le_dec x y) as [H|H]; [by left|right]. by apply Qle_not_lt.
Defined.

#[global] Instance Qeq_decision (x y : Q) : Decision (x == y)%Q := Qeq_dec x y.

Lemma Qltb_lt (x y : Q) : Qltb x y = true ↔ (x < y)%Q.
Proof.
  unfold Qltb. rewrite Qlt_alt. destruct (x ?= y)%Q; split; congruence.
Qed.

Section uniq.
Context {A : Type} `{EqDecision A}.
Implicit Types (l seen : list A).

Lemma uniq_from_spec l seen :
  NoDup seen →
  NoDup (uniq_from seen l) ∧ ∀ x, x ∈ uniq_from seen l ↔ x ∈ seen ∨ x ∈ l.
Proof.
  revert seen. induction l as [|y l IH]; intros seen Hnd; simpl.
  - split; [done|]. intros x. rewrite elem_of_nil. tauto.
  - case_bool_decide as Hin.
    + destruct (IH seen Hnd) as [? Hmem]. split; [done|].
      intros x. rewrite Hmem, elem_of_cons.
      split; [tauto|]. intros [?|[->|?]]; tauto.
    + destruct (IH (seen ++ [y])) as [? Hmem].
      { apply list.NoDup_app. split_and!; [done| |apply NoDup_singleton].
        intros x Hx ->%list_elem_of_singleton. done. }
      split; [done|]. intros x.
      rewrite Hmem, elem_of_app, list_elem_of_singleton, elem_of_cons. tauto.
Qed.

Lemma NoDup_uniq l : NoDup (uniq l).
Proof. apply uniq_from_spec, NoDup_nil_2. Qed.

Lemma elem_of_uniq x l : x ∈ uniq l ↔ x ∈ l.
Proof.
  unfold uniq. destruct (uniq_from_spec l [] (NoDup_nil_2)) as [_ ->].
  rewrite elem_of_nil. tauto.
Qed.

Lemma uniq_from_NoDup l seen : NoDup (seen ++ l) → uniq_from seen l = seen ++ l.
Proof.
  revert seen. induction l as [|y l IH]; intros seen Hnd; simpl.
  - by rewrite app_nil_r.
  - rewrite bool_decide_false.
    + rewrite IH; rewrite <- app_assoc; done.
    + apply list.NoDup_app in Hnd as (_ & Hdisj & _).
      intros Hin. apply (Hdisj _ Hin). left.
Qed.

Lemma uniq_NoDup l : NoDup l → uniq l = l.
Proof. intros Hnd. by apply (uniq_from_NoDup l []). Qed.

(** Repeating a label does not change the labels in order of first
    appearance. *)
Lemma uniq_from_replicate n x l seen :
  uniq_from seen (replicate (S n) x ++ l) = uniq_from seen (x :: l).
Proof.
  revert seen. induction n as [|n IH]; intros seen; [done|].
  change (replicate (S (S n)) x ++ l) with (x :: (replicate (S n) x ++ l)).
  cbn [uniq_from]. case_bool_decide as Hin.
  - rewrite IH. cbn [uniq_from]. by rewrite bool_decide_true.
  - rewrite IH. cbn [uniq_from]. rewrite bool_decide_true; [done|].
    apply elem_of_app. right. left.
Qed.

End uniq.

Lemma NoDup_fst_functional {A B} (l : list (A * B)) x y1 y2 :
  NoDup l.*1 → (x, y1) ∈ l → (x, y2) ∈ l → y1 = y2.
Proof.
  induction l as [|[a b] l IH]; csimpl; intros Hnd H1 H2.
  - by apply elem_of_nil in H1.
  - apply list.NoDup_cons in Hnd as [Hnot Hnd].
    apply elem_of_cons in H1 as [[= -> ->]|H1], H2 as [[= ?]|H2]; try done.
    + destruct Hnot. apply list_elem_of_fmap. by exists (a, y2).
    + subst. destruct Hnot. apply list_elem_of_fmap. by exists (a, y1).
    + by apply IH.
Qed.

Section frames.
Context {R C : Type}.
Implicit Types (f : DataFrame R C).

Lemma imap_labels {B} (g : nat → C → B) (l : list C) :
  (imap (fun j c => (c, g j c)) l).*1 = l.
Proof.
  revert g. induction l as [|c l IH]; intros g; csimpl; [done|].
  f_equal. apply (IH (fun j => g (S j))).
Qed.

Lemma sum_labels f : (sum f).*1 = columns f.
Proof. apply imap_labels. Qed.

Lemma columns_transpose f : columns (transpose f) = index f.
Proof. done. Qed.

Lemma index_transpose f : index (transpose f) = columns f.
Proof. apply imap_labels. Qed.

Lemma index_sort_index ltb f : index (sort_index ltb f) ≡ₚ index f.
Proof. unfold index. simpl. by rewrite sorted_perm. Qed.

Lemma cells_by_position (cells : list cell) (cols : list C) :
  length cells = length cols →
  imap (fun i _ => default None (cells !! i)) cols = cells.
Proof.
  intros Hlen. apply list_eq. intros i. rewrite list_lookup_imap.
  destruct (cols !! i) as [c|] eqn:Hc; simpl.
  - apply lookup_lt_Some in Hc. rewrite <- Hlen in Hc.
    by destruct (lookup_lt_is_Some_2 cells i Hc) as [x ->].
  - apply lookup_ge_None in Hc. symmetry. apply lookup_ge_None. lia.
Qed.

Lemma column_at_transpose f j row :
  rows f !! j = Some row → length row.2 = length (columns f) →
  column_at j (transpose f) = row.2.
Proof.
  intros Hrow Hlen. unfold column_at at 1. cbn [rows transpose].
  rewrite fmap_imap, <- (cells_by_position row.2 (columns f) Hlen) at 1.
  apply imap_ext. intros i c _. simpl. unfold column_at.
  by rewrite list_lookup_fmap, Hrow.
Qed.

(** The total of a column of the transposed table is the total of the
    row it came from. *)
Lemma sum_transpose f :
  well_formed f →
  sum (transpose f)
  = (fun row : R * list cell => (row.1, nansum row.2)) <$> rows f.
Proof.
  intros Hwf. unfold sum. rewrite columns_transpose. unfold index.
  rewrite imap_fmap. apply list_eq. intros j.
  rewrite list_lookup_imap, list_lookup_fmap.
  destruct (rows f !! j) as [row|] eqn:Hrow; [|done]. simpl. do 3 f_equal.
  apply column_at_transpose; [done|].
  by apply (Forall_lookup_1 _ _ _ _ Hwf Hrow).
Qed.

Lemma select_totals (g : Q → bool) (ps : list (C * Q)) :
  select ((fun p => g p.2) <$> ps) ps.*1
  = (filter (fun p : C * Q => Is_true (g p.2)) ps).*1.
Proof.
  unfold select. induction ps as [|[c s] ps IH]; [done|].
  csimpl. rewrite !filter_cons. simpl.
  destruct (decide (g s)) as [Hg|Hg]; csimpl; by rewrite IH.
Qed.

Lemma elem_of_select_totals (g : Q → bool) (ps : list (C * Q)) c s :
  NoDup ps.*1 → (c, s) ∈ ps →
  c ∈ select ((fun p => g p.2) <$> ps) ps.*1 ↔ g s = true.
Proof.
  intros Hnd Hin. rewrite select_totals, list_elem_of_fmap. split.
  - intros ([c' s'] & -> & [Hg Hin']%list_elem_of_filter). simpl in *.
    assert (s' = s) as ->; [|by apply Is_true_true].
    by eapply (NoDup_fst_functional ps c').
  - intros Hg. exists (c, s). split; [done|].
    apply list_elem_of_filter. split; [|done]. by apply Is_true_true.
Qed.

Lemma select_sublist {A} (mask : list bool) (l : list A) :
  select mask l `sublist_of` l.
Proof.
  unfold select. revert mask. induction l as [|x l IH]; intros [|b mask]; csimpl;
    try apply sublist_nil_l.
  rewrite filter_cons. simpl. destruct (decide b); csimpl.
  - apply sublist_skip, IH.
  - apply sublist_cons, IH.
Qed.

(** Which columns [f.loc[:, f.sum() > x]] and [f.loc[:, f.sum() < x]]
    keep. *)
Lemma columns_loc_gt f (x : Q) c s :
  NoDup (columns f) → (c, s) ∈ sum f →
  c ∈ columns (loc_columns f (gt (sum f) x)) ↔ (x < s)%Q.
Proof.
  intros Hnd Hin. rewrite <- Qltb_lt. unfold loc_columns, gt. cbn [columns].
  rewrite <- (sum_labels f) in Hnd |- *. revert Hnd Hin.
  generalize (sum f). intros ps Hnd Hin.
  by apply (elem_of_select_totals (fun s => Qltb x s)).
Qed.

Lemma columns_loc_lt f (x : Q) c s :
  NoDup (columns f) → (c, s) ∈ sum f →
  c ∈ columns (loc_columns f (lt (sum f) x)) ↔ (s < x)%Q.
Proof.
  intros Hnd Hin. rewrite <- Qltb_lt. unfold loc_columns, lt. cbn [columns].
  rewrite <- (sum_labels f) in Hnd |- *. revert Hnd Hin.
  generalize (sum f). intros ps Hnd Hin.
  by apply (elem_of_select_totals (fun s => Qltb s x)).
Qed.

End frames.

End PandasFacts.

(** ** Merging and analysis *)

Module CompFacts.
Import Py Pandas Comp PyFacts PandasFacts.
Local Open Scope Q_scope.

Section concat.
Context {K R C : Type} `{EqDecision R}.

Lemma same_index_spec (ixs : list (list R)) ix :
  same_index ixs = true → ix ∈ ixs → ix = default [] (head ixs).
Proof.
  destruct ixs as [|ix0 rest]; [by intros _ ?%elem_of_nil|]. simpl.
  intros Hall [->|Hin]%elem_of_cons; [done|].
  apply Is_true_true, forallb_True in Hall.
  rewrite list.Forall_forall in Hall. specialize (Hall _ Hin).
  by apply bool_decide_unpack in Hall.
Qed.

Lemma combined_index_inv (ixs : list (list R)) by_position ix :
  combined_index ixs = Some (by_position, ix) →
  by_position = same_index ixs ∧
  ix = (if same_index ixs then default [] (head ixs) else uniq (mjoin ixs)) ∧
  (same_index ixs = false → Forall NoDup ixs).
Proof.
  unfold combined_index. destruct (same_index ixs).
  - by intros [= <- <-].
  - destruct (forallb _ ixs) eqn:Hall; [|done]. intros [= <- <-].
    split_and!; [done..|]. intros _.
    apply Is_true_true, forallb_True in Hall.
    eapply list.Forall_impl; [exact Hall|]. intros ix' Hix.
    by apply bool_decide_unpack in Hix.
Qed.

Lemma bind_zip_snd {B} (g : DataFrame R C → list B) (keys : list K)
    (frames : list (DataFrame R C)) :
  length keys = length frames →
  (zip keys frames ≫= fun b => g b.2) = frames ≫= g.
Proof.
  revert frames. induction keys as [|k keys IH]; intros [|f frames] Hlen; try done.
  cbn [zip zip_with]. rewrite !bind_cons. simpl. f_equal. apply IH.
  simpl in Hlen. lia.
Qed.

Lemma concat_inv (keys : list K) (frames : list (DataFrame R C)) m :
  concat keys frames = Ok m →
  let by_position := same_index (index <$> frames) in
  frames ≠ [] ∧
  (by_position = false → Forall (fun f => NoDup (index f)) frames) ∧
  columns m = (zip keys frames ≫= fun b => pair b.1 <$> columns b.2) ∧
  rows m
  = imap (fun k r => (r, zip keys frames ≫= fun b => aligned_row by_position k r b.2))
         (if by_position then default [] (head (index <$> frames))
          else uniq (mjoin (index <$> frames))).
Proof.
  unfold concat. destruct frames as [|f0 frames]; [done|].
  destruct (combined_index _) as [[bp ix]|] eqn:Hix; [|done].
  apply combined_index_inv in Hix as (-> & -> & Hnd).
  intros [= <-]. cbv zeta. split_and!; [done| |done..].
  intros Hno. apply Hnd in Hno. by rewrite Forall_fmap in Hno.
Qed.

Lemma index_concat (keys : list K) (frames : list (DataFrame R C)) m :
  concat keys frames = Ok m →
  index m = (if same_index (index <$> frames)
             then default [] (head (index <$> frames))
             else uniq (mjoin (index <$> frames))).
Proof.
  intros (_ & _ & _ & Hrows)%concat_inv. unfold index at 1. rewrite Hrows.
  apply imap_labels.
Qed.

Lemma keys_concat (keys : list K) (frames : list (DataFrame R C)) m :
  concat keys frames = Ok m →
  (columns m).*1
  = zip keys frames ≫= fun b => replicate (length (columns b.2)) b.1.
Proof.
  intros (_ & _ & -> & _)%concat_inv.
  induction (zip keys frames) as [|[k f] bs IH]; [done|].
  rewrite !bind_cons, fmap_app, IH. f_equal. simpl.
  induction (columns f) as [|c cs IHc]; [done|]. csimpl. by rewrite IHc.
Qed.

Lemma concat_series_inv (keys : list K) (series : list (Series R)) m :
  concat_series keys series = Ok m →
  let labels := (fun s : Series R => s.*1) <$> series in
  let by_position := same_index labels in
  series ≠ [] ∧
  columns m = (zip keys series).*1 ∧
  rows m
  = imap (fun k r =>
            (r, (fun b : K * Series R => aligned_cell by_position k r b.2)
                <$> zip keys series))
         (if by_position then default [] (head labels) else uniq (mjoin labels)).
Proof.
  unfold concat_series. destruct series as [|s0 series]; [done|].
  destruct (combined_index _) as [[bp ix]|] eqn:Hix; [|done].
  apply combined_index_inv in Hix as (-> & -> & _).
  by intros [= <-].
Qed.

(** What [concat] promises: the tables stand side by side under their
    keys, row number [k] of the result being the rows the tables
    contribute to it, one after another. *)
Definition side_by_side (keys : list K) (frames : list (DataFrame R C))
    (m : DataFrame R (K * C)) : Prop :=
  let by_position := same_index (index <$> frames) in
  columns m = (zip keys frames ≫= fun b => pair b.1 <$> columns b.2) ∧
  index m = (if by_position then default [] (head (index <$> frames))
             else uniq (mjoin (index <$> frames))) ∧
  ∀ k r cells,
    rows m !! k = Some (r, cells) →
    cells = frames ≫= aligned_row by_position k r.

Definition series_side_by_side (keys : list K) (series : list (Series R))
    (m : DataFrame R K) : Prop :=
  let labels := (fun s : Series R => s.*1) <$> series in
  let by_position := same_index labels in
  columns m = keys ∧
  index m = (if by_position then default [] (head labels) else uniq (mjoin labels)) ∧
  ∀ k r cells,
    rows m !! k = Some (r, cells) →
    cells = aligned_cell by_position k r <$> series.

Lemma concat_side_by_side (keys : list K) (frames : list (DataFrame R C)) m :
  concat keys frames = Ok m → length keys = length frames →
  side_by_side keys frames m.
Proof.
  intros Hm Hlen. pose proof (index_concat _ _ _ Hm) as Hix.
  apply concat_inv in Hm as (_ & _ & Hcols & Hrows).
  split_and!; [done..|].
  intros k r cells. rewrite Hrows, list_lookup_imap.
  destruct (_ !! k) as [r'|]; [|done]. simpl. intros [= <- <-].
  by apply bind_zip_snd.
Qed.

Lemma concat_series_side_by_side (keys : list K) (series : list (Series R)) m :
  concat_series keys series = Ok m → length keys = length series →
  series_side_by_side keys series m.
Proof.
  intros (_ & Hcols & Hrows)%concat_series_inv Hlen.
  split_and!.
  - rewrite Hcols. apply fst_zip. lia.
  - unfold index. rewrite Hrows. apply imap_labels.
  - intros k r cells. rewrite Hrows, list_lookup_imap.
    destruct (_ !! k) as [r'|]; [|done]. simpl. intros [= <- <-].
    generalize (aligned_cell (same_index ((fun s : Series R => s.*1) <$> series)) k r').
    intros g. rewrite <- (snd_zip keys series) at 2 by lia.
    by rewrite <- list_fmap_compose.
Qed.

End concat.

Lemma uniq_blocks {K B} `{EqDecision K} (n : B → nat) (bs : list (K * B)) :
  Forall (fun b => n b.2 ≠ 0%nat) bs →
  uniq (bs ≫= fun b => replicate (n b.2) b.1) = uniq bs.*1.
Proof.
  unfold uniq. generalize (@nil K).
  induction bs as [|[k b] bs IH]; intros seen Hall; [done|].
  apply list.Forall_cons in Hall as [Hn Hall]. simpl in Hn.
  rewrite bind_cons. simpl.
  destruct (n b) as [|n'] eqn:E; [done|].
  rewrite uniq_from_replicate. cbn [uniq_from fmap list_fmap].
  case_bool_decide; by rewrite IH.
Qed.

Lemma read_loop_length fs files cs es ps cs' es' ps' :
  read_loop fs files cs es ps = Ok (cs', es', ps') →
  length cs' = (length cs + length files)%nat ∧
  length es' = (length es + length files)%nat ∧
  length ps' = (length ps + length files)%nat.
Proof.
  revert cs es ps. induction files as [|rf files IH]; intros cs es ps; simpl.
  - intros [= <- <- <-]. lia.
  - destruct (read_one fs rf) as [[[c e] p]|?]; [|done]. simpl.
    intros Hloop. apply IH in Hloop. rewrite !length_app in Hloop. simpl in Hloop. lia.
Qed.

Lemma read_loop_tables fs files cs es ps cs' es' ps' :
  read_loop fs files cs es ps = Ok (cs', es', ps') →
  ∃ ts : list (CostTable * EsumTable * CapSeries),
    Forall2 (fun rf t => read_one fs rf = Ok t) files ts ∧
    cs' = cs ++ ((fun t => t.1.1) <$> ts) ∧
    es' = es ++ ((fun t => t.1.2) <$> ts) ∧
    ps' = ps ++ ((fun t => t.2) <$> ts).
Proof.
  revert cs es ps. induction files as [|rf files IH]; intros cs es ps; simpl.
  - intros [= <- <- <-]. exists []. by rewrite !app_nil_r.
  - destruct (read_one fs rf) as [[[c e] p]|?] eqn:Hone; [|done]. simpl.
    intros (ts & Hall & -> & -> & ->)%IH.
    exists ((c, e, p) :: ts). rewrite <- !app_assoc. by split; [constructor|].
Qed.

Lemma compare_scenarios_names fs (rf : ref) out (σ : store) :
  (base_first rf (scenario_name <$> σ rf) σ).1.2
  = scenario_name <$> (compare_scenarios fs rf out σ).1 rf.
Proof.
  rewrite BaseFacts.compare_scenarios_store.
  apply BaseFacts.base_first_names.
Qed.

Lemma compare_scenarios_unfold fs (rf : ref) out (σ : store) :
  let r := compare_scenarios fs rf out σ in
  let files := r.1 rf in
  let names := scenario_name <$> files in
  r.2 = ('(costs, esums, caps) ← read_loop fs files [] [] [];
         m ← merge names costs esums caps;
         v ← analyse m;
         Ok (m, v)).
Proof.
  pose proof (BaseFacts.base_first_names σ rf) as [Hn Hr].
  unfold compare_scenarios. cbv zeta in *.
  destruct (base_first rf (scenario_name <$> σ rf) σ) as [[σ1 names1] r1].
  simpl in *. by subst.
Qed.

Lemma merge_inv names cs es ps m :
  merge names cs es ps = Ok m →
  concat names cs = Ok (m_costs m) ∧ concat names es = Ok (m_esums m) ∧
  concat_series names ps = Ok (m_caps m).
Proof.
  unfold merge. destruct (concat names cs) as [c|]; [|done].
  destruct (concat names es) as [e|]; [|done].
  destruct (concat_series names ps) as [p|]; [|done].
  by intros [= <-].
Qed.

(** C1: whenever the workbooks of the (prioritised) list can be read and
    pandas can put their tables side by side, the call goes on with
    three merged tables that hold the per-scenario tables side by side,
    cell by cell, under the scenario names as outer column keys, one
    block per scenario, in the order of the list. *)
Theorem compare_scenarios_merge_order fs (result_files : ref)
    (output_filename : string) (σ : store) costs esums caps (m : Merged) :
  let r := compare_scenarios fs result_files output_filename σ in
  let files := r.1 result_files in
  let names := scenario_name <$> files in
  read_loop fs files [] [] [] = Ok (costs, esums, caps) →
  merge names costs esums caps = Ok m →
  r.2 = (v ← analyse m; Ok (m, v)) ∧
  (∀ i rf, files !! i = Some rf →
     ∃ cost esum cap,
       read_one fs rf = Ok (cost, esum, cap) ∧
       names !! i = Some (scenario_name rf) ∧
       costs !! i = Some cost ∧ esums !! i = Some esum ∧ caps !! i = Some cap) ∧
  side_by_side names costs (m_costs m) ∧
  side_by_side names esums (m_esums m) ∧
  series_side_by_side names caps (m_caps m) ∧
  (Forall (fun t : CostTable => columns t ≠ []) costs →
     uniq (columns (m_costs m)).*1 = uniq names) ∧
  (Forall (fun t : EsumTable => columns t ≠ []) esums →
     uniq (columns (m_esums m)).*1 = uniq names) ∧
  (NoDup names → uniq names = names).
Proof.
  intros r files names Hread Hm.
  destruct (read_loop_length _ _ _ _ _ _ _ _ Hread) as (Hc & He & Hp).
  simpl in Hc, He, Hp.
  assert (length names = length files) as Hn by apply length_fmap.
  assert (∀ {T} (ts : list (DataFrame T string)),
            length ts = length files →
            Forall (fun t => columns t ≠ []) ts →
            Forall (fun b : string * DataFrame T string =>
                      length (columns b.2) ≠ 0%nat) (zip names ts)) as Hblocks.
  { intros T ts Hlen Hall. apply list.Forall_forall. intros [k t] Hin.
    apply elem_of_zip_r in Hin. simpl.
    rewrite list.Forall_forall in Hall. specialize (Hall t Hin).
    by destruct (columns t). }
  pose proof (merge_inv _ _ _ _ _ Hm) as (Hmc & Hme & Hmp).
  split_and!.
  - unfold r. rewrite compare_scenarios_unfold. fold r files names.
    rewrite Hread. simpl. by rewrite Hm.
  - intros i rf Hi.
    apply read_loop_tables in Hread as (ts & Hall & -> & -> & ->).
    destruct (Forall2_lookup_l _ _ _ _ _ Hall Hi) as ([[c e] p] & Ht & Hone).
    exists c, e, p. simpl. unfold names.
    by rewrite !list_lookup_fmap, Hi, Ht.
  - apply concat_side_by_side; [done|lia].
  - apply concat_side_by_side; [done|lia].
  - apply concat_series_side_by_side; [done|lia].
  - intros Hall. rewrite (keys_concat _ _ _ Hmc).
    rewrite (uniq_blocks (fun t : CostTable => length (columns t)))
      by (by apply Hblocks).
    f_equal. apply fst_zip. lia.
  - intros Hall. rewrite (keys_concat _ _ _ Hme).
    rewrite (uniq_blocks (fun t : EsumTable => length (columns t)))
      by (by apply Hblocks).
    f_equal. apply fst_zip. lia.
  - apply uniq_NoDup.
Qed.

Lemma elem_of_columns_total {R C} (f : DataFrame R C) c :
  c ∈ columns f → ∃ s, (c, s) ∈ Pandas.sum f.
Proof.
  rewrite <- sum_labels. intros ([c' s] & -> & Hin)%list_elem_of_fmap. eauto.
Qed.

Lemma drop_level1_inv {A B C} `{EqDecision B} (label : B)
    (f g : DataFrame (A * B) C) :
  drop_level1 label f = Ok g →
  label ∈ (index f).*2 ∧
  g = mkFrame (columns f)
        (filter (fun row : (A * B) * list cell => row.1.2 ≠ label) (rows f)).
Proof.
  unfold drop_level1. case_bool_decide; [|done]. by intros [= <-].
Qed.

Lemma analyse_views m v :
  analyse m = Ok v →
  ∃ created0 consumed0 sto,
    created_view m = Ok created0 ∧ consumed_view m = Ok consumed0 ∧
    storage_view m = Ok sto ∧
    drop_level1 "CO2" (sort_index desc_asc (keep_created created0)) = Ok (created v) ∧
    drop_level1 "CO2" (sort_index desc_asc (keep_consumed consumed0)) = Ok (consumed v) ∧
    drop_level1 "CO2" sto = Ok (sto_sums v) ∧
    Comp.costs v = costs_view m ∧
    Comp.spent v = spent_view (costs_view m) ∧
    Comp.earnt v = earnt_view (costs_view m).
Proof.
  unfold analyse.
  destruct (created_view m) as [c0|]; [|done].
  destruct (consumed_view m) as [d0|]; [|done].
  destruct (storage_view m) as [s0|]; [|done]. simpl.
  destruct (drop_level1 "CO2" (sort_index desc_asc (keep_created c0)))
    as [c1|] eqn:Hc; [|done].
  destruct (drop_level1 "CO2" (sort_index desc_asc (keep_consumed d0)))
    as [d1|] eqn:Hd; [|done].
  destruct (drop_level1 "CO2" s0) as [s1|] eqn:Hs; [|done].
  simpl. intros [= <-]. exists c0, d0, s0. cbn [created consumed sto_sums].
  by rewrite Hc, Hd, Hs.
Qed.

Lemma columns_loc_filter {R C} (f : DataFrame R C) (g : Q → bool) (P : Q → Prop)
    {HP : ∀ x, Decision (P x)} :
  (∀ x, g x = true ↔ P x) →
  columns (loc_columns f ((fun p : C * Q => g p.2) <$> sum f))
  = (filter (fun p : C * Q => P p.2) (sum f)).*1.
Proof.
  intros Hg. cbn [columns loc_columns].
  rewrite <- (sum_labels f). rewrite select_totals. f_equal.
  apply list_filter_iff. intros [c x]. simpl. by rewrite <- Hg, Is_true_true.
Qed.

Lemma by_sign_length {C} (ps : list (C * Q)) :
  (length (filter (fun p : C * Q => (0 < p.2)%Q) ps)
   + length (filter (fun p : C * Q => (p.2 < 0)%Q) ps)
   + length (filter (fun p : C * Q => (p.2 == 0)%Q) ps) = length ps)%nat.
Proof.
  induction ps as [|[c x] ps IH]; [done|].
  rewrite !filter_cons. simpl.
  destruct (decide (0 < x)), (decide (x < 0)), (decide (x == 0));
    simpl; try lia; lra.
Qed.

Lemma columns_costs_view (m : Merged) :
  columns (costs_view m) ≡ₚ index (m_costs m).
Proof. unfold costs_view. by rewrite columns_transpose, index_sort_index. Qed.

Lemma totals_costs_view (m : Merged) :
  well_formed (m_costs m) →
  Pandas.sum (costs_view m)
  ≡ₚ (fun row : string * list cell => (row.1, nansum row.2)) <$> rows (m_costs m).
Proof.
  intros Hwf. unfold costs_view. rewrite sum_transpose.
  - cbn [rows sort_index droplevel_columns]. by rewrite sorted_perm.
  - unfold well_formed in *. cbn [rows columns sort_index droplevel_columns].
    rewrite sorted_perm, length_fmap. exact Hwf.
Qed.

(** The run behind the counterexample to C3: one workbook whose cost
    sheet lists 'Fuel' twice, once as a cost and once as a refund. *)
Definition num (z : Z) : cell := Some (inject_Z z).

Definition sums_sheet_ex (pv : Z) : RawSums :=
  mkRawSums ["Elec.Campus"; "Heat.Campus"; "CO2.Campus"]
    [ (Some "Created", "Gas Plant", [num 500; num 300; num 7]);
      (None, "PV", [num pv; num 0; num 0]);
      (None, "Feed-in", [num (-300); num 0; num 0]);
      (Some "Consumed", "Demand", [num 400; num 200; None]);
      (None, "Heatpump", [num 30; num 0; None]);
      (Some "Storage", "Retrieved", [num 10; num 20; num 0]) ].

Definition caps_sheet_ex : DataFrame (string * string) string :=
  mkFrame ["Total"; "New"]
    [ (("Campus", "Gas Plant"), [num 5; num 1]);
      (("Campus", "PV"), [num 3; num 3]);
      (("Other", "PV"), [num 9; num 9]) ].

Definition fuel_twice : Workbook :=
  {| Costs := Some (mkFrame ["costs"]
                      [("Invest", [num 100]); ("Fuel", [num 50]); ("Fuel", [num (-60)])]);
     Commodity_sums := Some (sums_sheet_ex 60);
     Process_caps := Some caps_sheet_ex |}.

Definition fs_twice : filesystem := fun path =>
  if String.eqb path "result/scenario_twice.xlsx" then Some fuel_twice else None.

(** C3 as stated fails: in this run 'Fuel' is in [spent] and in
    [earnt]. *)
Lemma cost_type_in_both_counterexample :
  ∃ m v,
    (compare_scenarios fs_twice 0 "comparison"
       (fun _ => ["result/scenario_twice.xlsx"])).2 = Ok (m, v) ∧
    ¬ (∀ c, ¬ (c ∈ columns (spent v) ∧ c ∈ columns (earnt v))).
Proof.
  eexists _, _. split; [vm_compute; reflexivity|].
  intros Hall. apply (Hall "Fuel"). cbn [spent earnt columns].
  split; [apply list_elem_of_here|apply list_elem_of_here].
Qed.

(** C3, amended: the columns of the cost view are the cost types of the
    merged table, each with the total of its row.  [spent] has exactly the columns with a strictly
    positive total and [earnt] exactly those with a strictly negative
    total, in the order of the cost view; every column is in [spent],
    in [earnt] or has total 0, and only one of the three.  If no cost
    type is listed twice, this holds by cost type: one with a positive
    total is in [spent] and not in [earnt], one with a negative total is
    in [earnt] and not in [spent], one with total 0 is in neither, and
    none is in both. *)
Theorem cost_types_by_sign (m : Merged) :
  let costs := costs_view m in
  let spent := spent_view costs in
  let earnt := earnt_view costs in
  let totals := Pandas.sum costs in
  columns costs ≡ₚ index (m_costs m) ∧
  (well_formed (m_costs m) →
     totals ≡ₚ (fun row : string * list cell => (row.1, nansum row.2))
                 <$> rows (m_costs m)) ∧
  columns spent = (filter (fun p : string * Q => 0 < p.2) totals).*1 ∧
  columns earnt = (filter (fun p : string * Q => p.2 < 0) totals).*1 ∧
  (length (columns spent) + length (columns earnt)
   + length (filter (fun p : string * Q => (p.2 == 0)%Q) totals)
   = length (columns costs))%nat ∧
  (NoDup (index (m_costs m)) →
     (∀ c s, (c, s) ∈ totals →
        (0 < s → c ∈ columns spent ∧ (c ∉ columns earnt)) ∧
        (s < 0 → c ∈ columns earnt ∧ (c ∉ columns spent)) ∧
        (s == 0 → (c ∉ columns spent) ∧ (c ∉ columns earnt))) ∧
     (∀ c, ¬ (c ∈ columns spent ∧ c ∈ columns earnt))) ∧
  (∀ v, analyse m = Ok v →
     Comp.costs v = costs ∧ Comp.spent v = spent ∧ Comp.earnt v = earnt).
Proof.
  intros costs spent earnt totals.
  assert (columns spent = (filter (fun p : string * Q => 0 < p.2) totals).*1) as Hs.
  { apply (columns_loc_filter costs (Qltb 0) (fun x => 0 < x)
             (HP := fun x => Qlt_decision 0 x)).
    intros x. apply Qltb_lt. }
  assert (columns earnt = (filter (fun p : string * Q => p.2 < 0) totals).*1) as He.
  { unfold earnt, earnt_view, lt, totals.
    apply (columns_loc_filter costs (fun x => Qltb x 0) (fun x => x < 0)
             (HP := fun x => Qlt_decision x 0)).
    intros x. apply Qltb_lt. }
  split_and!; [apply columns_costs_view|apply totals_costs_view|done|done| | |].
  - rewrite Hs, He, !length_fmap, by_sign_length.
    unfold totals. by rewrite <- (sum_labels costs), length_fmap.
  - intros Hnd.
    assert (NoDup (columns costs)) as Hndc.
    { unfold costs. by rewrite columns_costs_view. }
    assert (∀ c s, (c, s) ∈ totals →
              (c ∈ columns spent ↔ 0 < s) ∧ (c ∈ columns earnt ↔ s < 0)) as Hiff.
    { intros c s Hin. split.
      - by apply columns_loc_gt.
      - by apply columns_loc_lt. }
    split.
    + intros c s Hin. destruct (Hiff c s Hin) as [-> ->].
      split_and!; intros ?; split; lra.
    + intros c [Hcs Hce].
      assert (c ∈ columns costs) as Hc.
      { eapply sublist_subseteq; [|exact Hcs]. apply select_sublist. }
      apply elem_of_columns_total in Hc as [s Hin].
      destruct (Hiff c s Hin) as [H1 H2]. apply H1 in Hcs. apply H2 in Hce. lra.
  - by intros v (_ & _ & _ & _ & _ & _ & _ & _ & _ & ? & ? & ?)%analyse_views.
Qed.

Lemma NoDup_level1_under {A B} `{EqDecision A} (key : A)
    (rs : list ((A * B) * list cell)) :
  NoDup rs.*1 →
  NoDup ((fun row : (A * B) * list cell => row.1.2)
           <$> filter (fun row : (A * B) * list cell => row.1.1 = key) rs).
Proof.
  induction rs as [|[[a b] vs] rs IH]; csimpl; intros Hnd; [constructor|].
  apply list.NoDup_cons in Hnd as [Hnot Hnd].
  rewrite filter_cons. simpl. destruct (decide (a = key)) as [->|?]; [|by apply IH].
  csimpl. apply list.NoDup_cons. split; [|by apply IH].
  intros ([[a' b'] vs'] & Hb & [Ha Hin]%list_elem_of_filter)%list_elem_of_fmap.
  simpl in *. subst. apply Hnot. apply list_elem_of_fmap. by eexists (_, _).
Qed.

Lemma loc_level0_index {A B C} `{EqDecision A} (key : A)
    (g : DataFrame (A * B) C) (f : DataFrame B C) :
  loc_level0 key g = Ok f → NoDup (index g) → NoDup (index f).
Proof.
  unfold loc_level0, index. intros Hloc Hnd.
  pose proof (NoDup_level1_under key (rows g) Hnd) as Hsel.
  destruct (filter _ (rows g)) as [|row sel]; [done|].
  injection Hloc as <-. cbn [rows]. csimpl in *.
  rewrite <- list_fmap_compose. exact Hsel.
Qed.

Lemma loc_level0_labels {A B C} `{EqDecision A} (key : A)
    (g : DataFrame (A * B) C) (f : DataFrame B C) :
  loc_level0 key g = Ok f →
  index f = (filter (fun k : A * B => k.1 = key) (index g)).*2.
Proof.
  unfold loc_level0, index. intros Hloc.
  assert (∀ rs : list ((A * B) * list cell),
            ((fun row : (A * B) * list cell => (row.1.2, row.2))
               <$> filter (fun row : (A * B) * list cell => row.1.1 = key) rs).*1
            = (filter (fun k : A * B => k.1 = key) rs.*1).*2) as Heq.
  { clear. intros rs. induction rs as [|[[a b] vs] rs IH]; [done|].
    csimpl. rewrite !filter_cons. simpl.
    destruct (decide (a = key)); csimpl; by rewrite IH. }
  specialize (Heq (rows g)).
  destruct (filter _ (rows g)) as [|row sel]; [done|].
  injection Hloc as <-. exact Heq.
Qed.

Lemma select_bool_decide {A} (P : A → Prop) `{!∀ x, Decision (P x)} (l : list A) :
  select ((fun x => bool_decide (P x)) <$> l) l = filter P l.
Proof.
  unfold select. induction l as [|x l IH]; [done|].
  csimpl. rewrite !filter_cons. simpl.
  destruct (decide (P x)) as [HP|HP].
  - rewrite decide_True by (by apply bool_decide_pack). csimpl. by rewrite IH.
  - rewrite decide_False by (by intros ?%bool_decide_unpack). by rewrite IH.
Qed.

Lemma columns_created_view (m : Merged) f :
  created_view m = Ok f →
  columns f
  = (filter (fun k : option string * string => k.1 = Some "Created")
            (index (m_esums m))).*2.
Proof.
  unfold created_view.
  destruct (loc_level0 _ _) as [g|] eqn:Hloc; [|done]. simpl.
  intros [= <-]. rewrite columns_transpose.
  by apply loc_level0_labels in Hloc.
Qed.

Lemma columns_consumed_view (m : Merged) f :
  consumed_view m = Ok f →
  columns f
  = filter (fun c => c ≠ "Demand")
      (filter (fun k : option string * string => k.1 = Some "Consumed")
              (index (m_esums m))).*2.
Proof.
  unfold consumed_view.
  destruct (loc_level0 _ _) as [g|] eqn:Hloc; [|done]. simpl.
  unfold drop_columns. case_bool_decide; [|done]. simpl.
  intros [= <-]. cbn [columns map_values loc_columns transpose].
  change (index (rename_columns strip_site2 g)) with (index g).
  rewrite (loc_level0_labels _ _ _ Hloc).
  apply (select_bool_decide (fun c : string => c ≠ "Demand")).
Qed.

Lemma loc_level0_rows {A B C} `{EqDecision A} (key : A)
    (f : DataFrame (A * B) C) (g : DataFrame B C) :
  loc_level0 key f = Ok g →
  columns g = columns f ∧
  rows g = (fun row : (A * B) * list cell => (row.1.2, row.2))
             <$> filter (fun row : (A * B) * list cell => row.1.1 = key) (rows f).
Proof.
  unfold loc_level0.
  destruct (filter _ (rows f)) as [|row sel]; [done|]. by intros [= <-].
Qed.

Lemma totals_created_view (m : Merged) f :
  created_view m = Ok f → well_formed (m_esums m) →
  Pandas.sum f
  = (fun row : (option string * string) * list cell => (row.1.2, nansum row.2))
      <$> filter (fun row : (option string * string) * list cell =>
                    row.1.1 = Some "Created") (rows (m_esums m)).
Proof.
  unfold created_view. intros Hf Hwf.
  destruct (loc_level0 _ _) as [g|] eqn:Hloc; [|done].
  rewrite bind_ok in Hf. injection Hf as <-.
  apply loc_level0_rows in Hloc as [Hcols Hrows].
  rewrite sum_transpose.
  - cbn [rows rename_columns]. by rewrite Hrows, <- list_fmap_compose.
  - unfold well_formed in *. cbn [rows columns rename_columns].
    rewrite length_fmap, Hcols, Hrows, Forall_fmap.
    apply list.Forall_forall. intros row [_ Hin]%list_elem_of_filter.
    rewrite list.Forall_forall in Hwf. by apply Hwf.
Qed.

Lemma NoDup_columns_created_view (m : Merged) f :
  NoDup (index (m_esums m)) → created_view m = Ok f → NoDup (columns f).
Proof.
  intros Hnd. unfold created_view.
  destruct (loc_level0 _ _) as [g|] eqn:Hloc; [|done]. simpl.
  intros [= <-]. rewrite columns_transpose.
  by eapply (loc_level0_index _ _ g).
Qed.

Lemma NoDup_columns_consumed_view (m : Merged) f :
  NoDup (index (m_esums m)) → consumed_view m = Ok f → NoDup (columns f).
Proof.
  intros Hnd. unfold consumed_view.
  destruct (loc_level0 _ _) as [g|] eqn:Hloc; [|done]. simpl.
  unfold drop_columns. case_bool_decide; [|done]. simpl.
  intros [= <-]. cbn [columns map_values loc_columns].
  eapply sublist_NoDup; [|apply select_sublist].
  change (NoDup (index (rename_columns strip_site2 g))).
  by eapply (loc_level0_index _ _ g).
Qed.

(** C4, amended: the columns of the Created view are the processes
    listed under 'Created', each with the total of its row, those of the
    sign-flipped Consumed view the processes listed under 'Consumed'
    other than 'Demand'.  Line 163
    keeps exactly the columns of the Created view whose total over all
    rows is strictly above 0.1, and line 164 exactly the columns of the
    Consumed view whose total is strictly below -0.1, in their order.
    If no process is listed twice, this holds by process; for a total of
    the expected sign it is the magnitude strictly exceeding 0.1, a
    total of exactly 0.1 in magnitude is dropped and one of 0.1001 is
    kept. *)
Theorem energy_columns_by_threshold (m : Merged)
    (created0 consumed0 : DataFrame (string * string) string) :
  created_view m = Ok created0 → consumed_view m = Ok consumed0 →
  columns created0
  = (filter (fun k : option string * string => k.1 = Some "Created")
            (index (m_esums m))).*2 ∧
  columns consumed0
  = filter (fun c => c ≠ "Demand")
      (filter (fun k : option string * string => k.1 = Some "Consumed")
              (index (m_esums m))).*2 ∧
  (well_formed (m_esums m) →
     Pandas.sum created0
     = (fun row : (option string * string) * list cell => (row.1.2, nansum row.2))
         <$> filter (fun row : (option string * string) * list cell =>
                       row.1.1 = Some "Created") (rows (m_esums m))) ∧
  columns (keep_created created0)
  = (filter (fun p : string * Q => 1 # 10 < p.2) (Pandas.sum created0)).*1 ∧
  columns (keep_consumed consumed0)
  = (filter (fun p : string * Q => p.2 < - (1 # 10)) (Pandas.sum consumed0)).*1 ∧
  (NoDup (index (m_esums m)) →
     (∀ c s, (c, s) ∈ Pandas.sum created0 →
        (c ∈ columns (keep_created created0) ↔ 1 # 10 < s) ∧
        (0 <= s → (c ∈ columns (keep_created created0) ↔ 1 # 10 < Qabs s)) ∧
        (s == 1 # 10 → c ∉ columns (keep_created created0)) ∧
        (s == 1001 # 10000 → c ∈ columns (keep_created created0))) ∧
     (∀ c s, (c, s) ∈ Pandas.sum consumed0 →
        (c ∈ columns (keep_consumed consumed0) ↔ s < - (1 # 10)) ∧
        (s <= 0 → (c ∈ columns (keep_consumed consumed0) ↔ 1 # 10 < Qabs s)) ∧
        (s == - (1 # 10) → c ∉ columns (keep_consumed consumed0)) ∧
        (s == - (1001 # 10000) → c ∈ columns (keep_consumed consumed0)))) ∧
  (∀ v, analyse m = Ok v →
     columns (created v) = columns (keep_created created0) ∧
     columns (consumed v) = columns (keep_consumed consumed0)).
Proof.
  intros Hcr Hco. split_and!.
  - by apply columns_created_view.
  - by apply columns_consumed_view.
  - by apply totals_created_view.
  - unfold keep_created. cbn [columns map_values]. unfold gt.
    apply (columns_loc_filter created0 (Qltb (1 # 10)) (fun x => 1 # 10 < x)
             (HP := fun x => Qlt_decision (1 # 10) x)).
    intros x. apply Qltb_lt.
  - unfold keep_consumed. cbn [columns map_values]. unfold lt.
    apply (columns_loc_filter consumed0 (fun x => Qltb x (- (1 # 10)))
             (fun x => x < - (1 # 10))
             (HP := fun x => Qlt_decision x (- (1 # 10)))).
    intros x. apply Qltb_lt.
  - intros Hnd.
    pose proof (NoDup_columns_created_view _ _ Hnd Hcr) as Hnd1.
    pose proof (NoDup_columns_consumed_view _ _ Hnd Hco) as Hnd2.
    split.
    + intros c s Hin.
      assert (c ∈ columns (keep_created created0) ↔ 1 # 10 < s) as Hiff.
      { unfold keep_created. cbn [columns map_values]. by apply columns_loc_gt. }
      split_and!; [done| | |].
      * intros Hs. rewrite Hiff. by rewrite Qabs_pos.
      * intros Hs. rewrite Hiff. lra.
      * intros Hs. rewrite Hiff. lra.
    + intros c s Hin.
      assert (c ∈ columns (keep_consumed consumed0) ↔ s < - (1 # 10)) as Hiff.
      { unfold keep_consumed. cbn [columns map_values]. by apply columns_loc_lt. }
      split_and!; [done| | |].
      * intros Hs. rewrite Hiff. rewrite Qabs_neg by done. split; lra.
      * intros Hs. rewrite Hiff. lra.
      * intros Hs. rewrite Hiff. lra.
  - intros v (c0 & d0 & s0 & Hc & Hd & _ & Hc1 & Hd1 & _)%analyse_views.
    rewrite Hcr in Hc. rewrite Hco in Hd. injection Hc as <-. injection Hd as <-.
    apply drop_level1_inv in Hc1 as [_ ->]. apply drop_level1_inv in Hd1 as [_ ->].
    done.
Qed.

(** What lines 183-187 make of one entry of the scaled row: its value
    in both columns, replaced by 0 where the column does not apply. *)
Definition split_entry (e : (string * string) * cell)
    : (string * string) * list cell :=
  (e.1, [if bool_decide (e.1.2 = "Heat") then Some 0 else e.2;
         if bool_decide (e.1.2 = "Elec") then Some 0 else e.2]).

Lemma concat_series_self {K} (k : K) (s : Series (string * string)) :
  concat_series [k; k] [s; s]
  = Ok (mkFrame [k; k]
          ((fun e : (string * string) * cell => (e.1, [e.2; e.2])) <$> s)).
Proof.
  unfold concat_series, combined_index. cbn [fmap list_fmap same_index forallb].
  rewrite bool_decide_true by done. cbn [andb head default zip zip_with].
  f_equal. f_equal.
  apply list_eq. intros i. rewrite list_lookup_imap. unfold id.
  rewrite !list_lookup_fmap. unfold aligned_cell. cbn [fmap list_fmap snd].
  by destruct (s !! i).
Qed.

Section set_where.
Context {R C : Type} `{EqDecision C}.
Implicit Types (f : DataFrame R C).

(** What the assignment does to one row. *)
Definition assign (P : R → bool) (c : C) (v : Q) (cols : list C)
    (row : R * list cell) : R * list cell :=
  if P row.1
  then (row.1, zip_with (fun c' x => if bool_decide (c' = c) then Some v else x)
                        cols row.2)
  else row.

Lemma assign_label P c v cols row : (assign P c v cols row).1 = row.1.
Proof. unfold assign. by destruct (P row.1). Qed.

Lemma set_where_found P c v f :
  (∃ r, r ∈ index f ∧ P r = true) →
  set_where P c v f
  = Ok (mkFrame (columns f) (assign P c v (columns f) <$> rows f)).
Proof.
  intros (r & Hin & HP). unfold set_where.
  assert (existsb P (index f) = true) as ->; [|done].
  apply existsb_exists. exists r. split; [|done]. by apply list_elem_of_In.
Qed.

Lemma set_where_missing P c v f :
  (∀ r, r ∈ index f → P r = false) → set_where P c v f = Raise KeyError.
Proof.
  intros Hno. unfold set_where.
  destruct (existsb P (index f)) eqn:E; [|done].
  apply existsb_exists in E as (r & Hin%list_elem_of_In & HP).
  by rewrite (Hno r Hin) in HP.
Qed.

End set_where.

Abbreviation is_elec := (fun r : string * string => bool_decide (r.2 = "Elec")).
Abbreviation is_heat := (fun r : string * string => bool_decide (r.2 = "Heat")).

Lemma split_entry_steps (e : (string * string) * cell) :
  assign is_heat "Battery" 0 ["Battery"; "Reservoir"]
    (assign is_elec "Reservoir" 0 ["Battery"; "Reservoir"] (e.1, [e.2; e.2]))
  = split_entry e.
Proof.
  destruct e as [[sc co] x]. unfold assign, split_entry. cbn [fst snd].
  destruct (decide (co = "Elec")) as [->|HnE].
  - rewrite (bool_decide_true ("Elec" = "Elec")) by done. cbn [fst snd zip_with].
    rewrite (bool_decide_false ("Elec" = "Heat")) by done.
    rewrite (bool_decide_false ("Battery" = "Reservoir")) by done.
    by rewrite (bool_decide_true ("Reservoir" = "Reservoir")) by done.
  - rewrite (bool_decide_false (co = "Elec")) by done. cbn [fst snd zip_with].
    destruct (decide (co = "Heat")) as [->|HnH].
    + rewrite (bool_decide_true ("Heat" = "Heat")) by done. cbn [fst snd zip_with].
      rewrite (bool_decide_true ("Battery" = "Battery")) by done.
      by rewrite (bool_decide_false ("Reservoir" = "Battery")) by done.
    + by rewrite (bool_decide_false (co = "Heat")) by done.
Qed.

(** The table of lines 183-185, and the same after line 186. *)
Definition doubled (retrieved : Series (string * string))
    : DataFrame (string * string) string :=
  sort_index asc_asc
    (mkFrame ["Battery"; "Reservoir"]
       ((fun e : (string * string) * cell => (e.1, [e.2; e.2]))
          <$> scaled retrieved)).

Definition elec_done (retrieved : Series (string * string))
    : DataFrame (string * string) string :=
  mkFrame ["Battery"; "Reservoir"]
    (assign is_elec "Reservoir" 0 ["Battery"; "Reservoir"]
       <$> rows (doubled retrieved)).

Lemma storage_view_found (m : Merged) (retrieved : Series (string * string)) :
  loc_row (Some "Storage", "Retrieved") (m_esums m) = Ok (OneRow retrieved) →
  storage_view m
  = (sto_sums ← set_where is_elec "Reservoir" 0 (doubled retrieved);
     sto_sums ← set_where is_heat "Battery" 0 sto_sums;
     Ok (sort_index desc_asc sto_sums)).
Proof.
  intros Hloc. unfold storage_view. rewrite Hloc, bind_ok.
  by rewrite concat_series_self.
Qed.

Lemma index_doubled retrieved : index (doubled retrieved) ≡ₚ (scaled retrieved).*1.
Proof.
  unfold doubled. rewrite index_sort_index. unfold index. cbn [rows].
  by rewrite <- list_fmap_compose.
Qed.

Lemma index_elec_done retrieved :
  index (elec_done retrieved) = index (doubled retrieved).
Proof.
  unfold index, elec_done. cbn [rows]. rewrite <- list_fmap_compose.
  apply list_fmap_ext. intros i row _. apply assign_label.
Qed.

Lemma level1_label_dec (label : string) (entries : Series (string * string)) :
  (∃ e, e ∈ entries ∧ e.1.2 = label) ∨ (∀ e, e ∈ entries → e.1.2 ≠ label).
Proof.
  induction entries as [|e entries IH].
  - right. by intros e ?%elem_of_nil.
  - destruct (decide (e.1.2 = label)) as [He|He].
    + left. exists e. split; [left|done].
    + destruct IH as [(e' & Hin & He')|Hno].
      * left. exists e'. split; [by right|done].
      * right. intros e' [->|Hin]%elem_of_cons; [done|by apply Hno].
Qed.

Lemma label_in_doubled retrieved (label : string) :
  (∃ r, r ∈ index (doubled retrieved) ∧ bool_decide (r.2 = label) = true)
  ↔ ∃ e, e ∈ scaled retrieved ∧ e.1.2 = label.
Proof.
  split.
  - intros (r & Hin & Hr%bool_decide_eq_true).
    rewrite index_doubled in Hin.
    apply list_elem_of_fmap in Hin as (e & -> & Hin). by exists e.
  - intros (e & Hin & He). exists e.1. split; [|by apply bool_decide_eq_true].
    rewrite index_doubled. apply list_elem_of_fmap. by exists e.
Qed.

Lemma label_not_in_doubled retrieved (label : string) :
  (∀ e, e ∈ scaled retrieved → e.1.2 ≠ label) →
  ∀ r, r ∈ index (doubled retrieved) → bool_decide (r.2 = label) = false.
Proof.
  intros Hno r Hin. apply bool_decide_eq_false. intros Hr.
  destruct (proj1 (label_in_doubled retrieved label)) as (e & He & Hl).
  - exists r. split; [done|by apply bool_decide_eq_true].
  - by apply (Hno e).
Qed.

Lemma storage_view_missing (m : Merged) (retrieved : Series (string * string)) :
  loc_row (Some "Storage", "Retrieved") (m_esums m) = Ok (OneRow retrieved) →
  (∀ e, e ∈ scaled retrieved → e.1.2 ≠ "Elec") ∨
  (∀ e, e ∈ scaled retrieved → e.1.2 ≠ "Heat") →
  storage_view m = Raise KeyError.
Proof.
  intros Hloc Hno. rewrite (storage_view_found _ _ Hloc).
  destruct (level1_label_dec "Elec" (scaled retrieved)) as [Hel|Hnel].
  - destruct Hno as [Hno|Hno].
    + destruct Hel as (e & Hin & He). by destruct (Hno e Hin).
    + rewrite (set_where_found is_elec) by (by apply label_in_doubled).
      rewrite bind_ok.
      change (set_where is_heat "Battery" 0 _)
        with (set_where is_heat "Battery" 0 (elec_done retrieved)).
      rewrite (set_where_missing is_heat); [done|].
      rewrite index_elec_done. by apply label_not_in_doubled.
  - rewrite (set_where_missing is_elec); [done|]. by apply label_not_in_doubled.
Qed.

Lemma storage_view_built (m : Merged) (retrieved : Series (string * string)) :
  loc_row (Some "Storage", "Retrieved") (m_esums m) = Ok (OneRow retrieved) →
  (∃ e, e ∈ scaled retrieved ∧ e.1.2 = "Elec") →
  (∃ e, e ∈ scaled retrieved ∧ e.1.2 = "Heat") →
  ∃ sto,
    storage_view m = Ok sto ∧
    columns sto = ["Battery"; "Reservoir"] ∧
    rows sto ≡ₚ split_entry <$> scaled retrieved.
Proof.
  intros Hloc Hel Hhe. rewrite (storage_view_found _ _ Hloc).
  rewrite (set_where_found is_elec) by (by apply label_in_doubled).
  rewrite bind_ok.
      change (set_where is_heat "Battery" 0 _)
        with (set_where is_heat "Battery" 0 (elec_done retrieved)).
  rewrite (set_where_found is_heat)
    by (rewrite index_elec_done; by apply label_in_doubled).
  rewrite bind_ok. eexists. split; [reflexivity|]. split; [done|].
  cbn [rows sort_index columns elec_done doubled].
  rewrite !sorted_perm, <- !list_fmap_compose.
  rewrite (list_fmap_ext _ split_entry (scaled retrieved)); [done|].
  intros i e _. apply split_entry_steps.
Qed.

(** C5: when the row of retrieved storage is selected as a series, the
    table of lines 183-188 is built only if the row has an entry for
    'Elec' and one for 'Heat'; otherwise an assignment of lines 186-187
    raises [KeyError].  The table has the columns Battery and Reservoir
    and one row per entry of the row of retrieved storage, with the
    entry's value (in thousands) in both columns, except that every
    'Elec' row has Reservoir = 0 and every 'Heat' row has Battery = 0.
    These rows, without those of 'CO2', are what reaches the chart. *)
Theorem storage_split_zeroes (m : Merged) (retrieved : Series (string * string)) :
  loc_row (Some "Storage", "Retrieved") (m_esums m) = Ok (OneRow retrieved) →
  let entries := scaled retrieved in
  ((∀ e, e ∈ entries → e.1.2 ≠ "Elec") ∨ (∀ e, e ∈ entries → e.1.2 ≠ "Heat") →
     storage_view m = Raise KeyError) ∧
  ((∃ e, e ∈ entries ∧ e.1.2 = "Elec") → (∃ e, e ∈ entries ∧ e.1.2 = "Heat") →
     ∃ sto,
       storage_view m = Ok sto ∧
       columns sto = ["Battery"; "Reservoir"] ∧
       rows sto ≡ₚ split_entry <$> entries ∧
       (∀ row, row ∈ rows sto →
          ∃ battery reservoir,
            row.2 = [battery; reservoir] ∧
            (row.1.2 = "Elec" → reservoir = Some 0) ∧
            (row.1.2 = "Heat" → battery = Some 0)) ∧
       (∀ v, analyse m = Ok v →
          columns (sto_sums v) = columns sto ∧
          rows (sto_sums v)
          = filter (fun row : (string * string) * list cell => row.1.2 ≠ "CO2")
                   (rows sto))).
Proof.
  intros Hloc entries. split; [by apply storage_view_missing|].
  intros Hel Hhe.
  destruct (storage_view_built _ _ Hloc Hel Hhe) as (sto & Hsto & Hcols & Hrows).
  exists sto. split_and!; [done..| |].
  - intros row Hin. rewrite Hrows in Hin.
    apply list_elem_of_fmap in Hin as (e & -> & _).
    unfold split_entry. cbn [fst snd]. eexists _, _. split; [reflexivity|].
    split; intros Hl; by rewrite bool_decide_true.
  - intros v (c0 & d0 & s0 & _ & _ & Hs & _ & _ & Hdrop & _)%analyse_views.
    rewrite Hsto in Hs. injection Hs as <-.
    by apply drop_level1_inv in Hdrop as [_ ->].
Qed.

(** *** A run on three workbooks *)

Definition cost_sheet_ex (invest fuel revenue : Z) : CostTable :=
  mkFrame ["costs"]
    [("Invest", [num invest]); ("Fuel", [num fuel]); ("Revenue", [num revenue])].

Definition workbook_ex (invest fuel revenue pv : Z) : Workbook :=
  {| Costs := Some (cost_sheet_ex invest fuel revenue);
     Commodity_sums := Some (sums_sheet_ex pv);
     Process_caps := Some caps_sheet_ex |}.

Definition fs_ex : filesystem := fun path =>
  if String.eqb path "result/scenario_b.xlsx" then Some (workbook_ex 150 60 (-20) 80)
  else if String.eqb path "result/scenario_base.xlsx" then Some (workbook_ex 100 50 0 60)
  else if String.eqb path "result/scenario_a.xlsx" then Some (workbook_ex 120 50 (-5) 70)
  else None.

Definition run_ex : store * result (Merged * Views) :=
  compare_scenarios fs_ex 7 "comparison" BaseFacts.store_ex.

Example run_ex_scenarios :
  ∃ m v, run_ex.2 = Ok (m, v) ∧
    columns (m_caps m) = ["base"; "b"; "a"]%string ∧
    columns (spent v) = ["Fuel"; "Invest"]%string ∧
    columns (earnt v) = ["Revenue"]%string ∧
    columns (created v) = ["Gas Plant"; "PV"]%string ∧
    columns (consumed v) = ["Heatpump"]%string.
Proof. eexists _, _. split; [vm_compute; reflexivity|]. by vm_compute. Qed.

(** The per-scenario tables of the run, in the order they are read. *)
Definition names_ex : list string := ["base"; "b"; "a"].
Definition costs_ex : list CostTable :=
  [cost_sheet_ex 100 50 0; cost_sheet_ex 150 60 (-20); cost_sheet_ex 120 50 (-5)].
Definition esums_ex : list EsumTable :=
  repair <$> [sums_sheet_ex 60; sums_sheet_ex 80; sums_sheet_ex 70].
Definition caps_ex : list CapSeries :=
  [[("Gas Plant", num 5); ("PV", num 3)]; [("Gas Plant", num 5); ("PV", num 3)];
   [("Gas Plant", num 5); ("PV", num 3)]].

(** The merged tables of the run. *)
Definition merged_ex : Merged :=
  Eval vm_compute in
    match merge names_ex costs_ex esums_ex caps_ex with
    | Ok m => m
    | Raise _ => mkMerged (mkFrame [] []) (mkFrame [] []) (mkFrame [] [])
    end.

Lemma merge_ex : merge names_ex costs_ex esums_ex caps_ex = Ok merged_ex.
Proof. vm_compute. reflexivity. Qed.

Lemma compare_scenarios_merge_order_witness :
  let r := run_ex in
  let files := r.1 7%nat in
  let names := scenario_name <$> files in
  ∃ m v,
    read_loop fs_ex files [] [] [] = Ok (costs_ex, esums_ex, caps_ex) ∧
    merge names costs_ex esums_ex caps_ex = Ok m ∧
    r.2 = Ok (m, v) ∧
    r.2 = (v ← analyse m; Ok (m, v)) ∧
    (∀ i rf, files !! i = Some rf →
       ∃ cost esum cap,
         read_one fs_ex rf = Ok (cost, esum, cap) ∧
         names !! i = Some (scenario_name rf) ∧
         costs_ex !! i = Some cost ∧ esums_ex !! i = Some esum ∧
         caps_ex !! i = Some cap) ∧
    side_by_side names costs_ex (m_costs m) ∧
    side_by_side names esums_ex (m_esums m) ∧
    series_side_by_side names caps_ex (m_caps m) ∧
    (Forall (fun t : CostTable => columns t ≠ []) costs_ex →
       uniq (columns (m_costs m)).*1 = uniq names) ∧
    (Forall (fun t : EsumTable => columns t ≠ []) esums_ex →
       uniq (columns (m_esums m)).*1 = uniq names) ∧
    (NoDup names → uniq names = names).
Proof.
  intros r files names. eexists _, _.
  split; [vm_compute; reflexivity|].
  split; [vm_compute; reflexivity|].
  split; [vm_compute; reflexivity|].
  apply (compare_scenarios_merge_order fs_ex 7%nat "comparison" BaseFacts.store_ex).
  - vm_compute; reflexivity.
  - vm_compute; reflexivity.
Defined.

Lemma cost_types_by_sign_witness :
  ∃ m,
    merge names_ex costs_ex esums_ex caps_ex = Ok m ∧
    NoDup (index (m_costs m)) ∧
    well_formed (m_costs m) ∧
    let costs := costs_view m in
    let spent := spent_view costs in
    let earnt := earnt_view costs in
    let totals := Pandas.sum costs in
    columns costs ≡ₚ index (m_costs m) ∧
    (well_formed (m_costs m) →
       totals ≡ₚ (fun row : string * list cell => (row.1, nansum row.2))
                   <$> rows (m_costs m)) ∧
    columns spent = (filter (fun p : string * Q => 0 < p.2) totals).*1 ∧
    columns earnt = (filter (fun p : string * Q => p.2 < 0) totals).*1 ∧
    (length (columns spent) + length (columns earnt)
     + length (filter (fun p : string * Q => (p.2 == 0)%Q) totals)
     = length (columns costs))%nat ∧
    (NoDup (index (m_costs m)) →
       (∀ c s, (c, s) ∈ totals →
          (0 < s → c ∈ columns spent ∧ (c ∉ columns earnt)) ∧
          (s < 0 → c ∈ columns earnt ∧ (c ∉ columns spent)) ∧
          (s == 0 → (c ∉ columns spent) ∧ (c ∉ columns earnt))) ∧
       (∀ c, ¬ (c ∈ columns spent ∧ c ∈ columns earnt))) ∧
    (∀ v, analyse m = Ok v →
       Comp.costs v = costs ∧ Comp.spent v = spent ∧ Comp.earnt v = earnt).
Proof.
  eexists. split; [vm_compute; reflexivity|].
  split; [apply (bool_decide_unpack _); vm_compute; exact I|].
  split; [vm_compute; repeat constructor|].
  apply cost_types_by_sign.
Defined.

(** C4 as stated fails: the Created column "Feed-in" of the run above
    totals -900, a magnitude far above 0.1, and is dropped. *)
Lemma energy_filter_magnitude_counterexample :
  ∃ m v created0,
    run_ex.2 = Ok (m, v) ∧
    created_view m = Ok created0 ∧
    ¬ (∀ c s, (c, s) ∈ Pandas.sum created0 →
         (c ∈ columns (created v) ↔ 1 # 10 < Qabs s)).
Proof.
  eexists _, _, _. split; [vm_compute; reflexivity|].
  split; [vm_compute; reflexivity|].
  intros Hall.
  destruct (Hall "Feed-in"%string (-900 # 1)) as [_ Hkeep].
  - apply (list_elem_of_lookup_2 _ 2%nat). vm_compute. reflexivity.
  - revert Hkeep. cbn [created columns]. intros Hkeep.
    assert (1 # 10 < Qabs (-900 # 1)) as Hbig by reflexivity.
    apply Hkeep in Hbig.
    apply list_elem_of_In in Hbig. simpl in Hbig.
    destruct Hbig as [?|[?|[]]]; discriminate.
Qed.

Lemma energy_columns_by_threshold_witness :
  ∃ m created0 consumed0,
    merge names_ex costs_ex esums_ex caps_ex = Ok m ∧
    created_view m = Ok created0 ∧ consumed_view m = Ok consumed0 ∧
    NoDup (index (m_esums m)) ∧
    well_formed (m_esums m) ∧
    columns created0
    = (filter (fun k : option string * string => k.1 = Some "Created"%string)
              (index (m_esums m))).*2 ∧
    columns consumed0
    = filter (fun c => c ≠ "Demand"%string)
        (filter (fun k : option string * string => k.1 = Some "Consumed"%string)
                (index (m_esums m))).*2 ∧
    (well_formed (m_esums m) →
       Pandas.sum created0
       = (fun row : (option string * string) * list cell => (row.1.2, nansum row.2))
           <$> filter (fun row : (option string * string) * list cell =>
                         row.1.1 = Some "Created"%string) (rows (m_esums m))) ∧
    columns (keep_created created0)
    = (filter (fun p : string * Q => 1 # 10 < p.2) (Pandas.sum created0)).*1 ∧
    columns (keep_consumed consumed0)
    = (filter (fun p : string * Q => p.2 < - (1 # 10)) (Pandas.sum consumed0)).*1 ∧
    (NoDup (index (m_esums m)) →
       (∀ c s, (c, s) ∈ Pandas.sum created0 →
          (c ∈ columns (keep_created created0) ↔ 1 # 10 < s) ∧
          (0 <= s → (c ∈ columns (keep_created created0) ↔ 1 # 10 < Qabs s)) ∧
          (s == 1 # 10 → c ∉ columns (keep_created created0)) ∧
          (s == 1001 # 10000 → c ∈ columns (keep_created created0))) ∧
       (∀ c s, (c, s) ∈ Pandas.sum consumed0 →
          (c ∈ columns (keep_consumed consumed0) ↔ s < - (1 # 10)) ∧
          (s <= 0 → (c ∈ columns (keep_consumed consumed0) ↔ 1 # 10 < Qabs s)) ∧
          (s == - (1 # 10) → c ∉ columns (keep_consumed consumed0)) ∧
          (s == - (1001 # 10000) → c ∈ columns (keep_consumed consumed0)))) ∧
    (∀ v, analyse m = Ok v →
       columns (created v) = columns (keep_created created0) ∧
       columns (consumed v) = columns (keep_consumed consumed0)).
Proof.
  eexists _, _, _. split; [vm_compute; reflexivity|].
  split; [vm_compute; reflexivity|]. split; [vm_compute; reflexivity|].
  split; [apply (bool_decide_unpack _); vm_compute; exact I|].
  split; [vm_compute; repeat constructor|].
  apply energy_columns_by_threshold.
  - vm_compute; reflexivity.
  - vm_compute; reflexivity.
Defined.

Lemma storage_split_zeroes_witness :
  ∃ m retrieved,
    merge names_ex costs_ex esums_ex caps_ex = Ok m ∧
    loc_row (Some "Storage"%string, "Retrieved"%string) (m_esums m)
    = Ok (OneRow retrieved) ∧
    let entries := scaled retrieved in
    (∃ e, e ∈ entries ∧ e.1.2 = "Elec"%string) ∧
    (∃ e, e ∈ entries ∧ e.1.2 = "Heat"%string) ∧
    ((∀ e, e ∈ entries → e.1.2 ≠ "Elec"%string) ∨
     (∀ e, e ∈ entries → e.1.2 ≠ "Heat"%string) →
       storage_view m = Raise KeyError) ∧
    ((∃ e, e ∈ entries ∧ e.1.2 = "Elec"%string) →
     (∃ e, e ∈ entries ∧ e.1.2 = "Heat"%string) →
       ∃ sto,
         storage_view m = Ok sto ∧
         columns sto = ["Battery"; "Reservoir"]%string ∧
         rows sto ≡ₚ split_entry <$> entries ∧
         (∀ row, row ∈ rows sto →
            ∃ battery reservoir,
              row.2 = [battery; reservoir] ∧
              (row.1.2 = "Elec"%string → reservoir = Some 0) ∧
              (row.1.2 = "Heat"%string → battery = Some 0)) ∧
         (∀ v, analyse m = Ok v →
            columns (sto_sums v) = columns sto ∧
            rows (sto_sums v)
            = filter (fun row : (string * string) * list cell =>
                        row.1.2 ≠ "CO2"%string)
                     (rows sto))).
Proof.
  eexists _, _. split; [vm_compute; reflexivity|].
  split; [vm_compute; reflexivity|].
  split.
  { eexists. split; [apply (list_elem_of_lookup_2 _ 4%nat); vm_compute; reflexivity|].
    reflexivity. }
  split.
  { eexists. split; [apply (list_elem_of_lookup_2 _ 5%nat); vm_compute; reflexivity|].
    reflexivity. }
  eapply storage_split_zeroes. vm_compute; reflexivity.
Defined.

Example run_ex_storage :
  ∃ m v, run_ex.2 = Ok (m, v) ∧
    rows (sto_sums v)
    = [ (("base", "Elec"), [Some (10 / 1000); Some 0]);
        (("base", "Heat"), [Some 0; Some (20 / 1000)]);
        (("b", "Elec"), [Some (10 / 1000); Some 0]);
        (("b", "Heat"), [Some 0; Some (20 / 1000)]);
        (("a", "Elec"), [Some (10 / 1000); Some 0]);
        (("a", "Heat"), [Some 0; Some (20 / 1000)]) ]%string.
Proof. eexists _, _. split; [vm_compute; reflexivity|]. by vm_compute. Qed.

End CompFacts.

(** * Further properties *)

(** ** Sorting with an asymmetric comparison *)

Module SortFacts.
Import Py PyFacts.
Section sorted.
Context {A : Type} (ltb : A → A → bool).

(** [x] is not after [y]. *)
Definition not_after : relation A := fun x y => ltb y x = false.

Hypothesis ltb_asym : ∀ x y, ltb x y = true → ltb y x = false.

Lemma insort_not_after_hd x y l :
  not_after y x → HdRel not_after y l → HdRel not_after y (insort ltb x l).
Proof.
  intros Hyx Hhd. destruct l as [|z l]; simpl.
  - by constructor.
  - destruct (ltb x z); constructor; [done|]. by inversion Hhd.
Qed.

Lemma insort_not_after x l :
  Sorted not_after l → Sorted not_after (insort ltb x l).
Proof.
  induction l as [|y l IH]; simpl; intros Hs.
  - repeat constructor.
  - apply Sorted_inv in Hs as [Hs Hhd].
    destruct (ltb x y) eqn:E.
    + constructor; [by constructor|]. constructor. by apply ltb_asym.
    + constructor; [by apply IH|]. by apply insort_not_after_hd.
Qed.

Lemma sorted_not_after l : Sorted not_after (sorted ltb l).
Proof.
  unfold sorted. generalize (@nil A) (Sorted_nil not_after).
  induction l as [|x l IH]; intros acc Hacc; simpl; [done|].
  apply IH. by apply insort_not_after.
Qed.

End sorted.

Section ext.
Context {A : Type}.

Lemma insort_ext (ltb ltb' : A → A → bool) x l :
  (∀ y, y ∈ l → ltb x y = ltb' x y) → insort ltb x l = insort ltb' x l.
Proof.
  induction l as [|y l IH]; simpl; intros Hext; [done|].
  rewrite <- (Hext y) by left. destruct (ltb x y); [done|].
  f_equal. apply IH. intros z Hz. apply Hext. by right.
Qed.

(** Nothing is moved when everything is already in place. *)
Lemma insort_last (ltb : A → A → bool) x l :
  (∀ y, y ∈ l → ltb x y = false) → insort ltb x l = l ++ [x].
Proof.
  induction l as [|y l IH]; simpl; intros Hall; [done|].
  rewrite (Hall y) by left. f_equal. apply IH. intros z Hz. apply Hall. by right.
Qed.

End ext.

(** [a] is not after [b] in the order of strings. *)
Definition str_le (a b : string) : Prop := a = b ∨ str_lt a b.

Lemma str_le_trans : Transitive str_le.
Proof.
  intros a b c [->|H1] [->|H2]; [by left|by right|by right|].
  right. by transitivity b.
Qed.

Lemma not_after_str_le a b : String.ltb b a = false → str_le a b.
Proof.
  intros H. destruct (decide (a = b)) as [|Hne]; [by left|right].
  apply str_lt_total; [congruence|done].
Qed.

End SortFacts.

(** ** More on [deduplicate_legend] *)

Module LegendMore.
Import Py Legend PyFacts LegendFacts SortFacts.
Section facts.
Context {Hdl : Type}.
Implicit Types (hdl_ltb : Hdl → Hdl → bool).

(** The pairs the call sorts. *)
Definition kept (handles : list Hdl) (labels : list string) : list (string * Hdl) :=
  let '(nh, nl) := dedup_loop (zip handles labels) [] [] in zip nl nh.

Lemma deduplicate_legend_kept hdl_ltb handles labels :
  deduplicate_legend hdl_ltb handles labels
  = match sorted (tuple_ltb hdl_ltb) (kept handles labels) with
    | [] => Raise ValueError
    | ps => Ok (ps.*2, ps.*1)
    end.
Proof.
  unfold deduplicate_legend, kept.
  destruct (dedup_loop (zip handles labels) [] []) as [nh nl].
  by destruct (sorted _ (zip nl nh)).
Qed.

Lemma kept_labels handles labels :
  NoDup (kept handles labels).*1 ∧
  ∀ l, l ∈ (kept handles labels).*1 ↔ l ∈ (zip handles labels).*2.
Proof.
  unfold kept.
  destruct (dedup_loop (zip handles labels) [] []) as [nh nl] eqn:Hloop.
  destruct (dedup_loop_inv (fun _ _ => false) _ _ _ _ _ Hloop eq_refl (NoDup_nil_2))
    as (Hl & Hnd & Hmem & _ & _).
  rewrite fst_zip by lia. split; [done|].
  intros l. rewrite Hmem, elem_of_nil. tauto.
Qed.

Lemma kept_nil handles labels :
  kept handles labels = [] ↔ handles = [] ∨ labels = [].
Proof.
  destruct (kept_labels handles labels) as [_ Hmem]. split.
  - intros Hk. rewrite Hk in Hmem.
    destruct handles as [|h hs]; [by left|]. destruct labels as [|l ls]; [by right|].
    destruct (Hmem l) as [_ Hin]. csimpl in Hin.
    specialize (Hin (list_elem_of_here _ _)). by apply elem_of_nil in Hin.
  - unfold kept. by intros [-> | ->]; [|destruct handles].
Qed.

(** X1: the call raises exactly when one of the two sequences is empty,
    and then it raises [ValueError]; in every other case it returns. *)
Theorem deduplicate_legend_raises_iff_empty hdl_ltb
    (handles : list Hdl) (labels : list string) :
  (handles = [] ∨ labels = [] →
     deduplicate_legend hdl_ltb handles labels = Raise ValueError) ∧
  (handles ≠ [] → labels ≠ [] →
     ∃ hs ls, deduplicate_legend hdl_ltb handles labels = Ok (hs, ls) ∧
              hs ≠ [] ∧ length hs = length ls).
Proof.
  rewrite deduplicate_legend_kept. split.
  - intros Hempty%kept_nil. by rewrite Hempty.
  - intros Hh Hl.
    destruct (sorted _ (kept handles labels)) as [|p ps] eqn:Hs.
    + pose proof (sorted_perm (tuple_ltb hdl_ltb) (kept handles labels)) as Hp.
      rewrite Hs in Hp. apply Permutation_nil_l in Hp.
      symmetry in Hp. apply kept_nil in Hp as [?|?]; done.
    + eexists _, _. split; [done|]. split; [done|]. by rewrite !length_fmap.
Qed.

(** X2: handles are never compared: whatever [<] does on two handles,
    the result is the same. *)
Theorem deduplicate_legend_ignores_handle_order hdl_ltb hdl_ltb'
    (handles : list Hdl) (labels : list string) :
  deduplicate_legend hdl_ltb handles labels
  = deduplicate_legend hdl_ltb' handles labels.
Proof.
  rewrite !deduplicate_legend_kept.
  destruct (kept_labels handles labels) as [Hnd _].
  assert (sorted (tuple_ltb hdl_ltb) (kept handles labels)
          = sorted (tuple_ltb hdl_ltb') (kept handles labels)) as ->; [|done].
  unfold sorted. revert Hnd. generalize (kept handles labels). intros l.
  change l with ([] ++ l) at 1. generalize (@nil (string * Hdl)).
  induction l as [|x l IH]; intros acc Hnd; simpl; [done|].
  assert (insort (tuple_ltb hdl_ltb) x acc = insort (tuple_ltb hdl_ltb') x acc) as <-.
  { apply insort_ext. intros y Hy.
    rewrite !tuple_ltb_distinct; [done|..];
      rewrite fmap_app, fmap_cons in Hnd;
      apply list.NoDup_app in Hnd as (_ & Hdisj & _);
      intros Heq; apply (Hdisj y.1); [by apply list_elem_of_fmap_2| |
                                      by apply list_elem_of_fmap_2|];
      rewrite <- Heq; left. }
  apply IH. eapply NoDup_Permutation_proper; [|exact Hnd].
  apply fmap_Permutation. rewrite insort_perm. apply Permutation_middle.
Qed.

Lemma str_lt_asym a b : str_lt a b → String.ltb b a = false.
Proof.
  rewrite str_lt_compare. unfold String.ltb. intros H.
  by rewrite (String.compare_antisym b a), H.
Qed.

Lemma by_label_trans : Transitive (@by_label Hdl).
Proof. intros x y z. unfold by_label. apply str_lt_trans. Qed.

Lemma sorted_by_label hdl_ltb (l : list (string * Hdl)) :
  NoDup l.*1 → StronglySorted by_label (sorted (tuple_ltb hdl_ltb) l).
Proof.
  intros Hnd. apply Sorted_StronglySorted; [apply by_label_trans|].
  apply sorted_acc_sorted; [done|constructor].
Qed.

(** Sorting what is already in order changes nothing. *)
Lemma sorted_id hdl_ltb (l : list (string * Hdl)) :
  StronglySorted by_label l → sorted (tuple_ltb hdl_ltb) l = l.
Proof.
  unfold sorted. change l with ([] ++ l) at 1 3. generalize (@nil (string * Hdl)).
  induction l as [|x l IH]; intros acc Hs; simpl.
  - by rewrite app_nil_r.
  - rewrite insort_last.
    + rewrite IH; rewrite <- app_assoc; done.
    + intros y Hy.
      pose proof (StronglySorted_app_1_elem_of _ _ _ y x Hs Hy
                    (list_elem_of_here _ _)) as Hlt.
      unfold by_label in Hlt.
      rewrite tuple_ltb_distinct.
      * by apply str_lt_asym.
      * intros Heq. rewrite Heq in Hlt. by apply str_lt_irrefl in Hlt.
Qed.

(** X3: the call is idempotent: a legend that went through it comes
    back unchanged from a second pass. *)
Theorem deduplicate_legend_idempotent hdl_ltb
    (handles hs : list Hdl) (labels ls : list string) :
  deduplicate_legend hdl_ltb handles labels = Ok (hs, ls) →
  deduplicate_legend hdl_ltb hs ls = Ok (hs, ls).
Proof.
  rewrite !deduplicate_legend_kept.
  destruct (kept_labels handles labels) as [Hnd _].
  pose proof (sorted_by_label hdl_ltb _ Hnd) as Hs.
  pose proof (sorted_perm (tuple_ltb hdl_ltb) (kept handles labels)) as Hp.
  destruct (sorted _ (kept handles labels)) as [|p ps]; [done|].
  intros [= <- <-]. set (qs := p :: ps) in *.
  assert (NoDup qs.*1) as Hndq by (by rewrite Hp).
  change (p.2 :: list_fmap _ _ snd ps) with qs.*2.
  change (p.1 :: list_fmap _ _ fst ps) with qs.*1.
  assert (qs ≠ []) as Hne by done. clearbody qs.
  assert (kept qs.*2 qs.*1 = qs) as ->.
  { unfold kept. rewrite (dedup_loop_nodup _ [] []).
    - simpl. rewrite fst_zip, snd_zip by (rewrite !length_fmap; lia).
      apply zip_fst_snd.
    - simpl. by rewrite snd_zip by (rewrite !length_fmap; lia). }
  rewrite sorted_id by done. by destruct qs.
Qed.

(** X4: surplus handles or labels are ignored: the call sees the two
    sequences cut to the length of the shorter one. *)
Theorem deduplicate_legend_truncates hdl_ltb
    (handles : list Hdl) (labels : list string) :
  let n := length handles `min` length labels in
  deduplicate_legend hdl_ltb handles labels
  = deduplicate_legend hdl_ltb (take n handles) (take n labels).
Proof.
  intros n. unfold deduplicate_legend.
  assert (zip (take n handles) (take n labels) = zip handles labels) as ->; [|done].
  unfold n. clear n. revert labels.
  induction handles as [|h hs IH]; intros [|l ls]; simpl; try done.
  by rewrite IH.
Qed.

End facts.

Lemma deduplicate_legend_raises_iff_empty_witness :
  ([1; 2] = [] ∨ ["pv"; "gas"]%string = [] →
     deduplicate_legend Nat.ltb [1; 2] ["pv"; "gas"]%string = Raise ValueError) ∧
  ([1; 2] ≠ [] → ["pv"; "gas"]%string ≠ [] →
     ∃ hs ls, deduplicate_legend Nat.ltb [1; 2] ["pv"; "gas"]%string = Ok (hs, ls) ∧
              hs ≠ [] ∧ length hs = length ls).
Proof. exact (deduplicate_legend_raises_iff_empty Nat.ltb [1; 2] ["pv"; "gas"]%string). Defined.

Lemma deduplicate_legend_idempotent_witness :
  deduplicate_legend Nat.ltb [1; 3] ["gas"; "pv"]%string
  = Ok ([1; 3], ["gas"; "pv"]%string).
Proof.
  apply (deduplicate_legend_idempotent Nat.ltb [3; 1; 2] [1; 3]
           ["pv"; "gas"; "pv"]%string ["gas"; "pv"]%string).
  reflexivity.
Defined.

End LegendMore.

(** ** More on [group_hbar_plots] *)

Module LayoutMore.
Import Layout LayoutFacts.
Local Open Scope Q_scope.

Lemma first_bar_height_inv handles bh :
  first_bar_height handles = Ok bh →
  ∃ p ps rest, handles = (p :: ps) :: rest ∧ bh = rect_height p.
Proof.
  destruct handles as [|[|p ps] rest]; simpl; try done.
  intros [= <-]. by eexists _, _, _.
Qed.

Lemma group_hbar_plots_zero handles inner_sep bh :
  first_bar_height handles = Ok bh →
  group_hbar_plots handles 0 inner_sep = Raise ZeroDivisionError.
Proof.
  intros Hbh. unfold group_hbar_plots. rewrite Hbh.
  by apply first_bar_height_inv in Hbh as (p & ps & rest & -> & _).
Qed.

Lemma group_hbar_plots_inv handles gs inner_sep handles' :
  group_hbar_plots handles gs inner_sep = Ok handles' →
  ∃ bh, first_bar_height handles = Ok bh ∧ gs ≠ 0%Z ∧
        handles' = imap (place gs bh (effective_inner_sep bh inner_sep) 0) <$> handles.
Proof.
  intros Hrun.
  destruct (first_bar_height handles) as [bh|e] eqn:Hbh.
  - exists bh. split; [done|].
    destruct (decide (gs = 0%Z)) as [->|Hgs].
    + by rewrite (group_hbar_plots_zero _ _ bh) in Hrun.
    + split; [done|]. rewrite (group_hbar_plots_ok _ _ _ bh) in Hrun by done.
      by injection Hrun.
  - unfold group_hbar_plots in Hrun. by rewrite Hbh in Hrun.
Qed.

Lemma group_hbar_plots_y handles gs inner_sep handles' bh handle' (r : nat) p :
  group_hbar_plots handles gs inner_sep = Ok handles' →
  first_bar_height handles = Ok bh →
  handle' ∈ handles' → handle' !! r = Some p →
  rect_y p = row_y gs bh (effective_inner_sep bh inner_sep) (Z.of_nat r).
Proof.
  intros (bh' & Hbh' & Hgs & ->)%group_hbar_plots_inv Hbh.
  rewrite Hbh in Hbh'. injection Hbh' as <-.
  intros (handle & -> & _)%list_elem_of_fmap.
  rewrite list_lookup_imap. destruct (handle !! r); [|done].
  by intros [= <-].
Qed.

(** X5: which way the call ends.  Without a first bar it raises
    [IndexError] (whatever the group size); with one and a group size
    of 0 it raises [ZeroDivisionError]; otherwise it returns, with as
    many handles and as many patches per handle as before. *)
Theorem group_hbar_plots_outcome (handles : list BarContainer)
    (group_size : Z) (inner_sep : option Q) :
  (handles = [] ∨ (∃ rest, handles = [] :: rest) →
     group_hbar_plots handles group_size inner_sep = Raise IndexError) ∧
  (∀ p ps rest, handles = (p :: ps) :: rest →
     (group_size = 0%Z →
        group_hbar_plots handles group_size inner_sep = Raise ZeroDivisionError) ∧
     (group_size ≠ 0%Z →
        ∃ handles',
          group_hbar_plots handles group_size inner_sep = Ok handles' ∧
          length <$> handles' = length <$> handles)).
Proof.
  split.
  - by intros [->|[rest ->]].
  - intros p ps rest ->. split.
    + intros ->. by apply (group_hbar_plots_zero _ _ (rect_height p)).
    + intros Hgs. eexists. split.
      * by apply (group_hbar_plots_ok _ _ _ (rect_height p)).
      * rewrite <- list_fmap_compose. apply list_fmap_ext.
        intros i h _. simpl. apply length_imap.
Qed.

Lemma group_hbar_plots_outcome_witness :
  ([four_bars] = [] ∨ (∃ rest, [four_bars] = [] :: rest) →
     group_hbar_plots [four_bars] 3 None = Raise IndexError) ∧
  (∀ p ps rest, [four_bars] = (p :: ps) :: rest →
     (3%Z = 0%Z →
        group_hbar_plots [four_bars] 3 None = Raise ZeroDivisionError) ∧
     (3%Z ≠ 0%Z →
        ∃ handles',
          group_hbar_plots [four_bars] 3 None = Ok handles' ∧
          length <$> handles' = length <$> [four_bars])).
Proof. exact (group_hbar_plots_outcome [four_bars] 3 None). Defined.

(** X6: the call is idempotent: laying out an axis that has already
    been laid out moves nothing. *)
Theorem group_hbar_plots_idempotent (handles handles' : list BarContainer)
    (group_size : Z) (inner_sep : option Q) :
  group_hbar_plots handles group_size inner_sep = Ok handles' →
  group_hbar_plots handles' group_size inner_sep = Ok handles'.
Proof.
  intros (bh & Hbh & Hgs & ->)%group_hbar_plots_inv.
  rewrite (group_hbar_plots_ok _ _ _ bh); [| |done].
  - f_equal. rewrite <- list_fmap_compose. apply list_fmap_ext.
    intros i h _. simpl. apply list_eq. intros j.
    rewrite !list_lookup_imap. by destruct (h !! j).
  - by apply first_bar_height_inv in Hbh as (p & ps & rest & -> & ->).
Qed.

Lemma group_hbar_plots_idempotent_witness :
  ∃ handles',
    group_hbar_plots [four_bars] 3 None = Ok handles' ∧
    group_hbar_plots handles' 3 None = Ok handles'.
Proof.
  eexists. split; [vm_compute; reflexivity|].
  apply (group_hbar_plots_idempotent [four_bars]). vm_compute; reflexivity.
Defined.

Lemma row_y_split gs bh sep (r q m : Z) :
  (0 < gs)%Z → r = (gs * q + m)%Z → (0 <= m < gs)%Z →
  row_y gs bh sep r
  == inject_Z m * (bh + sep)
     + (inject_Z q * inject_Z gs
        + (1 # 2) * (inject_Z gs - 1) * (1 - sep)
        - (1 # 2) * (inject_Z gs * bh)).
Proof.
  intros Hgs Hr Hm. unfold row_y. cbv zeta.
  assert ((r / gs)%Z = q) as -> by (symmetry; by apply (Z.div_unique_pos r gs q m)).
  assert ((r mod gs)%Z = m) as -> by (symmetry; by apply (Z.mod_unique_pos r gs q m)).
  rewrite inject_Z_mult. unfold Z.sub. rewrite inject_Z_plus, inject_Z_opp.
  change (inject_Z 1) with 1. ring.
Qed.

(** X7: every full group is centred on the rows it stands for: when its
    last bar has the height the call read off the first bar of the axis,
    the span from the lower edge of the group's first bar to the upper
    edge of its last bar is centred at
    [g * group_size + (group_size - 1) / 2], whatever that height and
    the separation. *)
Theorem group_hbar_plots_group_centred (handles handles' : list BarContainer)
    (group_size : Z) (inner_sep : option Q) (bar_height : Q)
    (handle' : BarContainer) (g : Z) (first last : nat) (p q : Rectangle) :
  group_hbar_plots handles group_size inner_sep = Ok handles' →
  first_bar_height handles = Ok bar_height →
  (0 < group_size)%Z →
  Z.of_nat first = (g * group_size)%Z →
  Z.of_nat last = (g * group_size + (group_size - 1))%Z →
  handle' ∈ handles' → handle' !! first = Some p → handle' !! last = Some q →
  rect_height q == bar_height →
  (rect_y p + (rect_y q + rect_height q)) / 2
  == inject_Z (g * group_size) + (inject_Z group_size - 1) / 2.
Proof.
  intros Hrun Hbh Hgs Hfirst Hlast Hin Hp Hq Hheight. rewrite Hheight.
  rewrite (group_hbar_plots_y _ _ _ _ _ _ _ _ Hrun Hbh Hin Hp).
  rewrite (group_hbar_plots_y _ _ _ _ _ _ _ _ Hrun Hbh Hin Hq).
  rewrite (row_y_split _ _ _ _ g 0) by lia.
  rewrite (row_y_split _ _ _ _ g (group_size - 1)) by lia.
  rewrite inject_Z_mult. unfold Z.sub. rewrite inject_Z_plus, inject_Z_opp.
  change (inject_Z 1) with 1. change (inject_Z 0) with 0. field.
Qed.

(** X8: groups are exactly [group_size] apart: a row and the row
    [group_size] places further on differ by [group_size]. *)
Theorem group_hbar_plots_group_period (handles handles' : list BarContainer)
    (group_size : Z) (inner_sep : option Q)
    (handle' : BarContainer) (row row' : nat) (p q : Rectangle) :
  group_hbar_plots handles group_size inner_sep = Ok handles' →
  (0 < group_size)%Z →
  Z.of_nat row' = (Z.of_nat row + group_size)%Z →
  handle' ∈ handles' → handle' !! row = Some p → handle' !! row' = Some q →
  rect_y q == rect_y p + inject_Z group_size.
Proof.
  intros Hrun Hgs Hrow Hin Hp Hq.
  pose proof Hrun as (bh & Hbh & _ & _)%group_hbar_plots_inv.
  rewrite (group_hbar_plots_y _ _ _ _ _ _ _ _ Hrun Hbh Hin Hp).
  rewrite (group_hbar_plots_y _ _ _ _ _ _ _ _ Hrun Hbh Hin Hq).
  pose proof (Z.div_mod (Z.of_nat row) group_size ltac:(lia)) as Hdm.
  pose proof (Z.mod_pos_bound (Z.of_nat row) group_size Hgs) as Hm.
  rewrite (row_y_split _ _ _ (Z.of_nat row) (Z.of_nat row / group_size)
             (Z.of_nat row mod group_size)) by lia.
  rewrite (row_y_split _ _ _ (Z.of_nat row') (Z.of_nat row / group_size + 1)
             (Z.of_nat row mod group_size)) by lia.
  rewrite inject_Z_plus. change (inject_Z 1) with 1. ring.
Qed.

(** X9: inside a group, a bar that has the height the call read off the
    first bar of the axis is followed by free space of exactly the
    separation in effect: that is the distance from its upper edge to
    the lower edge of the next bar. *)
Theorem group_hbar_plots_inner_gap (handles handles' : list BarContainer)
    (group_size : Z) (inner_sep : option Q) (bar_height : Q)
    (handle' : BarContainer) (row : nat) (p q : Rectangle) :
  group_hbar_plots handles group_size inner_sep = Ok handles' →
  first_bar_height handles = Ok bar_height →
  (Z.of_nat row mod group_size + 1 < group_size)%Z →
  handle' ∈ handles' → handle' !! row = Some p → handle' !! S row = Some q →
  rect_height p == bar_height →
  rect_y q - (rect_y p + rect_height p)
  == effective_inner_sep bar_height inner_sep.
Proof.
  intros Hrun Hbh Hsame Hin Hp Hq Hheight. rewrite Hheight.
  assert (0 < group_size)%Z as Hgs.
  { destruct (Z.lt_trichotomy 0 group_size) as [?|[<-|Hneg]]; [done|..].
    - rewrite Z.mod_0_r in Hsame by done. lia.
    - pose proof (Z.mod_neg_bound (Z.of_nat row) group_size Hneg). lia. }
  rewrite (group_hbar_plots_y _ _ _ _ _ _ _ _ Hrun Hbh Hin Hp).
  rewrite (group_hbar_plots_y _ _ _ _ _ _ _ _ Hrun Hbh Hin Hq).
  pose proof (Z.div_mod (Z.of_nat row) group_size ltac:(lia)) as Hdm.
  pose proof (Z.mod_pos_bound (Z.of_nat row) group_size Hgs) as Hm.
  rewrite (row_y_split _ _ _ (Z.of_nat row) (Z.of_nat row / group_size)
             (Z.of_nat row mod group_size)) by lia.
  rewrite (row_y_split _ _ _ (Z.of_nat (S row)) (Z.of_nat row / group_size)
             (Z.of_nat row mod group_size + 1)) by lia.
  rewrite inject_Z_plus. change (inject_Z 1) with 1. ring.
Qed.

(** X10: the stacked segments of a row stay on one line: the patches of
    any two handles at the same row get the same offset. *)
Theorem group_hbar_plots_rows_aligned (handles handles' : list BarContainer)
    (group_size : Z) (inner_sep : option Q)
    (handle1 handle2 : BarContainer) (row : nat) (p q : Rectangle) :
  group_hbar_plots handles group_size inner_sep = Ok handles' →
  handle1 ∈ handles' → handle2 ∈ handles' →
  handle1 !! row = Some p → handle2 !! row = Some q →
  rect_y p = rect_y q.
Proof.
  intros Hrun H1 H2 Hp Hq.
  pose proof Hrun as (bh & Hbh & _ & _)%group_hbar_plots_inv.
  rewrite (group_hbar_plots_y _ _ _ _ _ _ _ _ Hrun Hbh H1 Hp).
  by rewrite (group_hbar_plots_y _ _ _ _ _ _ _ _ Hrun Hbh H2 Hq).
Qed.

(** X11: a separation of zero cannot be asked for: a supplied
    [inner_sep] equal to 0 gives what no [inner_sep] gives. *)
Theorem group_hbar_plots_zero_sep_is_default (handles : list BarContainer)
    (group_size : Z) (sep : Q) :
  sep == 0 →
  group_hbar_plots handles group_size (Some sep)
  = group_hbar_plots handles group_size None.
Proof.
  intros Hsep%Qeq_bool_iff. unfold group_hbar_plots.
  destruct (first_bar_height handles) as [bh|]; [|done]. simpl.
  unfold effective_inner_sep. by rewrite Hsep.
Qed.

Lemma group_hbar_plots_group_centred_witness :
  ∃ handles' handle' p q,
    group_hbar_plots [four_bars] 3 None = Ok handles' ∧
    handle' ∈ handles' ∧ handle' !! 0%nat = Some p ∧ handle' !! 2%nat = Some q ∧
    rect_height q == 1 # 2 ∧
    (rect_y p + (rect_y q + rect_height q)) / 2
    == inject_Z (0 * 3) + (inject_Z 3 - 1) / 2.
Proof.
  eexists _, _, _, _. split; [vm_compute; reflexivity|].
  split; [apply list_elem_of_here|]. split; [reflexivity|]. split; [reflexivity|].
  split; [reflexivity|].
  eapply (group_hbar_plots_group_centred [four_bars] _ 3 None (1 # 2) _ 0 0%nat 2%nat).
  - vm_compute; reflexivity.
  - reflexivity.
  - reflexivity.
  - reflexivity.
  - reflexivity.
  - apply list_elem_of_here.
  - reflexivity.
  - reflexivity.
  - reflexivity.
Defined.

Lemma group_hbar_plots_group_period_witness :
  ∃ handles' handle' p q,
    group_hbar_plots [four_bars] 3 None = Ok handles' ∧
    handle' ∈ handles' ∧ handle' !! 0%nat = Some p ∧ handle' !! 3%nat = Some q ∧
    rect_y q == rect_y p + inject_Z 3.
Proof.
  eexists _, _, _, _. split; [vm_compute; reflexivity|].
  split; [apply list_elem_of_here|]. split; [reflexivity|]. split; [reflexivity|].
  eapply (group_hbar_plots_group_period [four_bars] _ 3 None _ 0%nat 3%nat).
  - vm_compute; reflexivity.
  - reflexivity.
  - reflexivity.
  - apply list_elem_of_here.
  - reflexivity.
  - reflexivity.
Defined.

Lemma group_hbar_plots_inner_gap_witness :
  ∃ handles' handle' p q,
    group_hbar_plots [four_bars] 3 None = Ok handles' ∧
    handle' ∈ handles' ∧ handle' !! 0%nat = Some p ∧ handle' !! 1%nat = Some q ∧
    rect_height p == 1 # 2 ∧
    rect_y q - (rect_y p + rect_height p) == effective_inner_sep (1 # 2) None.
Proof.
  eexists _, _, _, _. split; [vm_compute; reflexivity|].
  split; [apply list_elem_of_here|]. split; [reflexivity|]. split; [reflexivity|].
  split; [reflexivity|].
  eapply (group_hbar_plots_inner_gap [four_bars] _ 3 None (1 # 2) _ 0%nat).
  - vm_compute; reflexivity.
  - reflexivity.
  - reflexivity.
  - apply list_elem_of_here.
  - reflexivity.
  - reflexivity.
  - reflexivity.
Defined.

Lemma group_hbar_plots_rows_aligned_witness :
  ∃ handles' handle1 handle2 p q,
    group_hbar_plots [four_bars; four_bars] 3 None = Ok handles' ∧
    handles' !! 0%nat = Some handle1 ∧ handles' !! 1%nat = Some handle2 ∧
    handle1 !! 1%nat = Some p ∧ handle2 !! 1%nat = Some q ∧
    rect_y p = rect_y q.
Proof.
  eexists _, _, _, _, _. split; [vm_compute; reflexivity|].
  split; [reflexivity|]. split; [reflexivity|].
  split; [reflexivity|]. split; [reflexivity|].
  eapply (group_hbar_plots_rows_aligned [four_bars; four_bars] _ 3 None _ _ 1%nat).
  - vm_compute; reflexivity.
  - apply list_elem_of_here.
  - apply list_elem_of_further, list_elem_of_here.
  - reflexivity.
  - reflexivity.
Defined.

Lemma group_hbar_plots_zero_sep_is_default_witness :
  group_hbar_plots [four_bars] 3 (Some (0 # 5))
  = group_hbar_plots [four_bars] 3 None.
Proof. apply (group_hbar_plots_zero_sep_is_default [four_bars] 3 (0 # 5)). reflexivity. Defined.

End LayoutMore.

(** ** More on scenario names and the base scenario *)

Module NameFacts.
Import Py Comp BaseFacts.

(** The characters of a string. *)
Abbreviation chars := String.list_ascii_of_string.

Lemma chars_append a b : chars (String.append a b) = chars a ++ chars b.
Proof. induction a as [|c a IH]; simpl; [done|]. by rewrite IH. Qed.

Lemma replace_from_chars old new k s c :
  c ∈ chars (replace_from old new k s) → c ∈ chars new ∨ c ∈ chars s.
Proof.
  revert k. induction s as [|d s IH]; intros k; [by right|].
  cbn [replace_from chars]. destruct k as [|k].
  - destruct (String.prefix old (String d s)).
    + rewrite chars_append, elem_of_app.
      intros [?|[?|?]%IH]; [by left|by left|]. right. by right.
    + cbn [chars]. rewrite !elem_of_cons.
      intros [->|[?|?]%IH]; [right; by left|by left|]. right. by right.
  - intros [?|?]%IH; [by left|]. right. by right.
Qed.

Lemma prefix_empty s : String.prefix EmptyString s = true.
Proof. by destruct s. Qed.

(** Replacing a single character leaves none of it behind. *)
Lemma replace_char_gone a new k s :
  a ∉ chars new → a ∉ chars (replace_from (String a EmptyString) new k s).
Proof.
  intros Hnew. revert k. induction s as [|d s IH]; intros k.
  - apply not_elem_of_nil.
  - cbn [replace_from String.prefix]. destruct k as [|k]; [|apply IH].
    destruct (ascii_dec a d) as [->|Hne].
    + rewrite prefix_empty, chars_append, elem_of_app.
      intros [?|?]; [done|]. by eapply IH.
    + cbn [chars]. rewrite elem_of_cons. intros [?|?]; [done|]. by eapply IH.
Qed.

Lemma basename_from_chars seg p c :
  c ∈ chars (basename_from seg p) → c ∈ chars seg ∨ c ∈ chars p.
Proof.
  revert seg. induction p as [|d p IH]; intros seg; [by left|].
  cbn [basename_from chars]. destruct (Ascii.eqb d "/").
  - intros [[]%elem_of_nil|?]%IH. right. by right.
  - intros [Hin|?]%IH; [|right; by right].
    rewrite chars_append in Hin. apply elem_of_app in Hin as [?|Hin]; [by left|].
    right. apply list_elem_of_singleton in Hin as ->. left.
Qed.

Lemma basename_from_no_slash seg p :
  "/"%char ∉ chars seg → "/"%char ∉ chars (basename_from seg p).
Proof.
  revert seg. induction p as [|d p IH]; intros seg Hseg; [done|].
  cbn [basename_from]. destruct (Ascii.eqb_spec d "/") as [->|Hne].
  - apply IH, not_elem_of_nil.
  - apply IH. rewrite chars_append, elem_of_app.
    intros [?|Hd%list_elem_of_singleton]; [done|]. by subst.
Qed.

(** X12: a scenario name never contains an underscore or a slash. *)
Theorem scenario_name_clean (rf : string) :
  ("_"%char ∉ chars (scenario_name rf)) ∧ ("/"%char ∉ chars (scenario_name rf)).
Proof.
  unfold scenario_name, replace. split.
  - intros [[]%elem_of_nil|[[]%elem_of_nil|Hin]%replace_from_chars]%replace_from_chars.
    revert Hin. apply (replace_char_gone "_" " " 0).
    by intros [[=]|[]%elem_of_nil]%elem_of_cons.
  - intros [[]%elem_of_nil|[[]%elem_of_nil|Hin]%replace_from_chars]%replace_from_chars.
    apply replace_from_chars in Hin as [Hin|Hin].
    + by apply elem_of_cons in Hin as [[=]|[]%elem_of_nil].
    + revert Hin. apply basename_from_no_slash, not_elem_of_nil.
Qed.

Lemma basename_from_append seg a b :
  basename_from seg (String.append a b) = basename_from (basename_from seg a) b.
Proof. revert seg. induction a as [|c a IH]; intros seg; simpl; [done|]. by destruct (Ascii.eqb c "/"). Qed.

Lemma string_append_empty_r s : String.append s EmptyString = s.
Proof.
  induction s as [|c s IH]; [done|].
  change (String c (String.append s EmptyString) = String c s). by f_equal.
Qed.

Lemma string_append_assoc a b c :
  String.append (String.append a b) c = String.append a (String.append b c).
Proof.
  induction a as [|d a IH]; [done|].
  change (String d (String.append (String.append a b) c)
          = String d (String.append a (String.append b c))).
  by f_equal.
Qed.

Lemma basename_from_plain seg name :
  "/"%char ∉ chars name → basename_from seg name = String.append seg name.
Proof.
  revert seg. induction name as [|c name IH]; intros seg Hno; simpl.
  - by rewrite string_append_empty_r.
  - cbn [chars] in Hno.
    apply not_elem_of_cons in Hno as [Hc Hno].
    destruct (Ascii.eqb_spec c "/") as [->|_]; [done|].
    rewrite IH by done. by rewrite string_append_assoc.
Qed.

(** X13: the folder plays no part in the name: a workbook gets the
    scenario name of its bare file name. *)
Theorem scenario_name_of_basename (dir name : string) :
  "/"%char ∉ chars name →
  scenario_name (String.append dir (String "/" name)) = scenario_name name.
Proof.
  intros Hno. unfold scenario_name. do 3 f_equal. unfold basename.
  rewrite basename_from_append. simpl.
  rewrite !basename_from_plain by done. done.
Qed.

Lemma scenario_name_of_basename_witness :
  scenario_name (String.append "result/run1" (String "/" "scenario_base.xlsx"))
  = scenario_name "scenario_base.xlsx".
Proof.
  apply (scenario_name_of_basename "result/run1" "scenario_base.xlsx").
  vm_compute. by intros ?%list_elem_of_In; simpl in *; intuition discriminate.
Defined.

End NameFacts.

Module BaseMore.
Import Py Comp BaseFacts.

(** X14: the reordering loses and duplicates nothing: after the call
    the caller's list is a permutation of what it was. *)
Theorem compare_scenarios_permutes_result_files fs (result_files : ref)
    (output_filename : string) (σ : store) :
  (compare_scenarios fs result_files output_filename σ).1 result_files
  ≡ₚ σ result_files.
Proof.
  rewrite compare_scenarios_store.
  destruct (base_first_cases σ result_files)
    as [(i & rf & _ & _ & Hrf & ->)|[_ ->]]; simpl; [|done].
  rewrite fn_lookup_insert. symmetry. by apply delete_Permutation.
Qed.

Lemma base_at_front fs (result_files : ref) (output_filename : string) (σ : store) :
  let σ1 := (compare_scenarios fs result_files output_filename σ).1 in
  let names1 := scenario_name <$> σ1 result_files in
  "base" ∈ names1 → names1 !! 0 = Some "base".
Proof.
  intros σ1 names1. unfold names1, σ1. rewrite compare_scenarios_store.
  destruct (base_first_cases σ result_files)
    as [(i & rf & Hi & _ & Hrf & ->)|[Hnot ->]]; simpl; [|done].
  intros _. rewrite fn_lookup_insert. simpl.
  rewrite list_lookup_fmap, Hrf in Hi. by injection Hi as ->.
Qed.

(** X15: a second call on the same list object reorders nothing
    further: the store after it is the store after the first call. *)
Theorem compare_scenarios_reorders_once fs fs' (result_files : ref)
    (output_filename output_filename' : string) (σ : store) (r : ref) :
  let σ1 := (compare_scenarios fs result_files output_filename σ).1 in
  (compare_scenarios fs' result_files output_filename' σ1).1 r = σ1 r.
Proof.
  intros σ1.
  pose proof (base_at_front fs result_files output_filename σ) as Hfront.
  fold σ1 in Hfront. cbv zeta in Hfront.
  rewrite compare_scenarios_store.
  destruct (base_first_cases σ1 result_files)
    as [(i & rf & Hi & Hfirst & Hrf & ->)|[_ ->]]; simpl; [|done].
  assert (i = 0) as ->.
  { destruct i as [|i]; [done|]. destruct (Hfirst 0); [lia|].
    apply Hfront. by eapply list_elem_of_lookup_2. }
  destruct (decide (result_files = r)) as [<-|Hne].
  - rewrite fn_lookup_insert. revert Hrf.
    destruct (σ1 result_files) as [|x l]; [done|]. by intros [= ->].
  - by rewrite !fn_lookup_insert_ne.
Qed.

End BaseMore.

(** ** The repair of the 'Commodity sums' sheet *)

Module RepairFacts.
Import Pandas Comp.

Abbreviation raw_row := (option string * string * list cell)%type.

Lemma length_ffill_rows pi pv (raw : list raw_row) :
  length (ffill_rows pi pv raw) = length raw.
Proof.
  revert pi pv. induction raw as [|[[i pro] vs] raw IH]; intros pi pv; simpl; [done|].
  by rewrite IH.
Qed.

Lemma ffill_rows_pro pi pv (raw : list raw_row) :
  (ffill_rows pi pv raw).*1.*2 = raw.*1.*2.
Proof.
  revert pi pv. induction raw as [|[[i pro] vs] raw IH]; intros pi pv; csimpl; [done|].
  by rewrite IH.
Qed.

Lemma ffill_rows_labelled d pv (raw : list raw_row) :
  Forall (fun row : (option string * string) * list cell => is_Some row.1.1)
         (ffill_rows (Some d) pv raw).
Proof.
  revert d pv. induction raw as [|[[i pro] vs] raw IH]; intros d pv; simpl;
    constructor.
  - simpl. by destruct i.
  - destruct i; apply IH.
Qed.

Lemma ffill_rows_keeps_label pi pv (raw : list raw_row) k d pro vs :
  raw !! k = Some (Some d, pro, vs) →
  ∃ vs', ffill_rows pi pv raw !! k = Some ((Some d, pro), vs').
Proof.
  revert pi pv k. induction raw as [|[[i p] v] raw IH]; intros pi pv [|k]; simpl;
    try done.
  - intros [= -> -> ->]. by eexists.
  - apply IH.
Qed.

(** X16: the repair gives every row a complete key as soon as the first
    row names its direction; it keeps the number of rows, the process
    labels and every direction that was there. *)
Theorem repair_completes_keys (raw : RawSums) :
  length (rows (repair raw)) = length (raw_rows raw) ∧
  (index (repair raw)).*2 = (raw_rows raw).*1.*2 ∧
  (∀ k d pro vs, raw_rows raw !! k = Some (Some d, pro, vs) →
     index (repair raw) !! k = Some (Some d, pro)) ∧
  (∀ d pro vs rest, raw_rows raw = (Some d, pro, vs) :: rest →
     ∀ key, key ∈ index (repair raw) → is_Some key.1).
Proof.
  unfold repair, index. cbn [rows]. split_and!.
  - apply length_ffill_rows.
  - apply ffill_rows_pro.
  - intros k d pro vs Hk. rewrite list_lookup_fmap.
    destruct (ffill_rows_keeps_label None [] _ _ _ _ _ Hk) as [vs' ->]. done.
  - intros d pro vs rest -> key ([k cells] & -> & Hin)%list_elem_of_fmap.
    simpl in Hin. apply elem_of_cons in Hin as [[= -> _]|Hin]; [by eexists|].
    pose proof (ffill_rows_labelled d (fill [] vs) rest) as Hall.
    rewrite list.Forall_forall in Hall. by apply (Hall _ Hin).
Qed.

Lemma repair_completes_keys_witness :
  let raw := mkRawSums ["Elec"]
               [(Some "Created", "PV", [Some 1%Q]); (None, "Gas", [None])]%string in
  length (rows (repair raw)) = length (raw_rows raw) ∧
  (index (repair raw)).*2 = (raw_rows raw).*1.*2 ∧
  (∀ k d pro vs, raw_rows raw !! k = Some (Some d, pro, vs) →
     index (repair raw) !! k = Some (Some d, pro)) ∧
  (∀ d pro vs rest, raw_rows raw = (Some d, pro, vs) :: rest →
     ∀ key, key ∈ index (repair raw) → is_Some key.1).
Proof.
  exact (repair_completes_keys
           (mkRawSums ["Elec"]
              [(Some "Created", "PV", [Some 1%Q]); (None, "Gas", [None])]%string)).
Defined.

Definition fill_cell (above : cell) (v : cell) : cell :=
  match v with Some _ => v | None => above end.

Lemma fill_lookup prev cur j :
  fill prev cur !! j = fill_cell (default None (prev !! j)) <$> cur !! j.
Proof. unfold fill. rewrite list_lookup_imap. by destruct (cur !! j) as [[?|]|]. Qed.

Lemma length_fill prev cur : length (fill prev cur) = length cur.
Proof. apply length_imap. Qed.

Lemma fill_idemp prev cur : fill prev (fill prev cur) = fill prev cur.
Proof.
  apply list_eq. intros j. rewrite !fill_lookup.
  destruct (cur !! j) as [[?|]|]; simpl; try done.
  by destruct (prev !! j) as [[?|]|].
Qed.

(** The cell in row [k], column [j], NaN when there is none. *)
Definition cell_at {R C} (f : DataFrame R C) (k j : nat) : cell :=
  default None (row ← rows f !! k; row.2 !! j).

Lemma ffill_rows_step pi pv (raw : list raw_row) k key cells i pro vs :
  ffill_rows pi pv raw !! k = Some (key, cells) →
  raw !! S k = Some (i, pro, vs) →
  ffill_rows pi pv raw !! S k
  = Some ((match i with Some _ => i | None => key.1 end, pro), fill cells vs).
Proof.
  revert pi pv k. induction raw as [|[[i0 p0] v0] raw IH]; intros pi pv k; [done|].
  destruct k as [|k]; simpl.
  - intros [= <- <-]. destruct raw as [|[[i1 p1] v1] raw]; [done|].
    by intros [= -> -> ->].
  - apply IH.
Qed.

(** X17: the forward fill also runs over the data columns.  A cell
    that holds a value is never changed; an empty cell takes what the
    repaired row above holds in its column, and stays empty in the
    first row.  Every row keeps its number of cells. *)
Theorem repair_fills_cells (raw : RawSums) (k : nat) i pro vs :
  raw_rows raw !! k = Some (i, pro, vs) →
  ∃ key cells,
    rows (repair raw) !! k = Some (key, cells) ∧
    length cells = length vs ∧
    ∀ j v, vs !! j = Some v →
      cells !! j
      = Some (match v, k with
              | Some q, _ => Some q
              | None, O => None
              | None, S k' => cell_at (repair raw) k' j
              end).
Proof.
  unfold repair, cell_at. cbn [rows]. generalize (raw_rows raw). clear raw.
  intros raw Hk. destruct k as [|k].
  - destruct raw as [|[[i0 p0] v0] raw]; [done|]. injection Hk as -> -> ->.
    simpl. eexists _, _. split; [done|]. split; [apply length_fill|].
    intros j v Hv. rewrite fill_lookup, Hv. simpl. by destruct v.
  - assert (is_Some (ffill_rows None [] raw !! k)) as [[key cells] Hrow].
    { apply lookup_lt_is_Some. rewrite length_ffill_rows.
      apply lookup_lt_Some in Hk. lia. }
    rewrite (ffill_rows_step _ _ _ _ _ _ _ _ _ Hrow Hk).
    eexists _, _. split; [done|]. split; [apply length_fill|].
    intros j v Hv. rewrite fill_lookup, Hv, Hrow. simpl. by destruct v.
Qed.

Lemma repair_fills_cells_witness :
  let raw := mkRawSums ["Elec"]
               [(Some "Created", "PV", [Some 1%Q]); (None, "Gas", [None])]%string in
  ∃ key cells,
    rows (repair raw) !! 1 = Some (key, cells) ∧
    length cells = length [@None Q] ∧
    ∀ j v, [@None Q] !! j = Some v →
      cells !! j
      = Some (match v, 1 with
              | Some q, _ => Some q
              | None, O => None
              | None, S k' => cell_at (repair raw) k' j
              end).
Proof.
  intros raw. apply (repair_fills_cells raw 1 None "Gas" [None]). reflexivity.
Defined.

(** The repaired table written out as a sheet again. *)
Definition as_sheet (f : EsumTable) : RawSums :=
  mkRawSums (columns f)
    ((fun row : (option string * string) * list cell => (row.1.1, row.1.2, row.2))
       <$> rows f).

Lemma ffill_rows_idemp pi pv (raw : list raw_row) :
  ffill_rows pi pv
    ((fun row : (option string * string) * list cell => (row.1.1, row.1.2, row.2))
       <$> ffill_rows pi pv raw)
  = ffill_rows pi pv raw.
Proof.
  revert pi pv. induction raw as [|[[i pro] vs] raw IH]; intros pi pv; [done|].
  cbn [ffill_rows fmap list_fmap fst snd]. rewrite fill_idemp.
  assert (match match i with Some _ => i | None => pi end with
          | Some _ => match i with Some _ => i | None => pi end
          | None => pi
          end = match i with Some _ => i | None => pi end) as ->
    by (by destruct i, pi).
  f_equal. apply IH.
Qed.

(** X18: a sheet that has been repaired is left as it is by a second
    repair. *)
Theorem repair_idempotent (raw : RawSums) :
  repair (as_sheet (repair raw)) = repair raw.
Proof. unfold repair, as_sheet. cbn [raw_columns raw_rows columns rows]. by rewrite ffill_rows_idemp. Qed.

End RepairFacts.

(** ** Reading and analysing: errors and what never comes out *)

Module AnalysisFacts.
Import Py Pandas Comp PyFacts PandasFacts CompFacts.

Lemma filter_nil_iff {A} (P : A → Prop) `{∀ x, Decision (P x)} (l : list A) :
  filter P l = [] ↔ ∀ x, x ∈ l → ¬ P x.
Proof.
  split.
  - intros Hnil x Hx HP. by apply (filter_nil_not_elem_of P l x).
  - induction l as [|y l IH]; intros Hall; [done|].
    rewrite filter_cons. destruct (decide (P y)) as [HP|_].
    + destruct (Hall y); [left|done].
    + apply IH. intros x Hx. apply Hall. by right.
Qed.

Lemma length_column_at {R C} (j : nat) (f : DataFrame R C) :
  length (column_at j f) = length (index f).
Proof. unfold column_at, index. by rewrite !length_fmap. Qed.

Lemma total_series {R C} (j : nat) (f : DataFrame R C) :
  zip (index f) (column_at j f)
  = (fun row : R * list cell => (row.1, default None (row.2 !! j))) <$> rows f.
Proof.
  unfold index, column_at. induction (rows f) as [|row rs IH]; [done|].
  csimpl. by rewrite IH.
Qed.

Lemma campus_rows (j : nat) (rs : list ((string * string) * list cell)) :
  (fun e : (string * string) * cell => (e.1.2, e.2))
    <$> filter (fun e : (string * string) * cell => e.1.1 = "Campus")
          ((fun row : (string * string) * list cell =>
              (row.1, default None (row.2 !! j))) <$> rs)
  = (fun row : (string * string) * list cell =>
       (row.1.2, default None (row.2 !! j)))
      <$> filter (fun row : (string * string) * list cell => row.1.1 = "Campus") rs.
Proof.
  induction rs as [|[k vs] rs IH]; [done|].
  csimpl. rewrite !filter_cons. simpl.
  destruct (decide (k.1 = "Campus")); csimpl; by rewrite IH.
Qed.

(** X19: how reading one workbook ends, its sheets being laid out as
    [urbs.report] writes them.  A file that cannot be opened gives
    [IOError]; a workbook without one of the three sheets gives
    [ValueError]; a capacity sheet without a 'Total' column or without a
    row for the site 'Campus' gives [KeyError].  Otherwise the three
    tables are returned: the cost sheet as it is, the repaired sums, and
    as capacities the cells of the first 'Total' column in the rows of
    the site 'Campus', each labelled by its process, in sheet order. *)
Theorem read_one_outcome (fs : filesystem) (rf : string) :
  match fs rf with
  | None => read_one fs rf = Raise IOError
  | Some xls =>
      match Costs xls, Commodity_sums xls, Process_caps xls with
      | Some cost, Some sums, Some caps =>
          (("Total" ∉ columns caps) ∨ ("Campus" ∉ (index caps).*1) →
             read_one fs rf = Raise KeyError) ∧
          (∀ j, columns caps !! j = Some "Total" →
             (∀ i, i < j → columns caps !! i ≠ Some "Total") →
             "Campus" ∈ (index caps).*1 →
             read_one fs rf
             = Ok (cost, repair sums,
                   (fun row : (string * string) * list cell =>
                      (row.1.2, default None (row.2 !! j)))
                     <$> filter (fun row : (string * string) * list cell =>
                                   row.1.1 = "Campus")
                                (rows caps)))
      | _, _, _ => read_one fs rf = Raise ValueError
      end
  end.
Proof.
  unfold read_one. destruct (fs rf) as [xls|]; [|done].
  destruct (Costs xls) as [cost|]; [|done].
  destruct (Commodity_sums xls) as [sums|]; [|done].
  destruct (Process_caps xls) as [caps|]; [|done].
  cbn [parse]. rewrite !bind_ok. cbv zeta. unfold get_column. split.
  - intros Hno.
    destruct (list_find (fun c => c = "Total") (columns caps)) as [[j c]|] eqn:Hfind;
      [|done].
    destruct Hno as [Hno|Hno].
    { apply list_find_Some in Hfind as (Hj & -> & _).
      destruct Hno. by eapply list_elem_of_lookup_2. }
    rewrite bind_ok, total_series. unfold series_loc_level0.
    assert (filter (fun e : string * string * cell => e.1.1 = "Campus")
              ((fun row : (string * string) * list cell =>
                  (row.1, default None (row.2 !! j))) <$> rows caps) = [])
      as ->; [|done].
    apply filter_nil_iff. intros [k v] Hk Hc. apply Hno.
    apply list_elem_of_fmap in Hk as (row & [= -> _] & Hrow).
    apply list_elem_of_fmap. exists row.1. split; [done|].
    apply list_elem_of_fmap. by exists row.
  - intros j Hj Hfirst Hcampus.
    assert (list_find (fun c => c = "Total") (columns caps) = Some (j, "Total")) as ->.
    { apply list_find_Some. split_and!; [done..|].
      intros i y Hy Hi ->. by apply (Hfirst i). }
    rewrite bind_ok, total_series. unfold series_loc_level0.
    pose proof (campus_rows j (rows caps)) as Hrows.
    destruct (filter (fun e : string * string * cell => e.1.1 = "Campus") _)
      as [|e sel] eqn:Hf.
    + apply list_elem_of_fmap in Hcampus as (k & Hk1 & Hk).
      apply list_elem_of_fmap in Hk as (row & -> & Hrow).
      destruct (proj1 (filter_nil_iff _ _) Hf (row.1, default None (row.2 !! j))).
      * apply list_elem_of_fmap. by exists row.
      * done.
    + rewrite bind_ok. by rewrite Hrows.
Qed.

Lemma read_one_outcome_witness :
  match fs_ex "result/scenario_base.xlsx" with
  | None => read_one fs_ex "result/scenario_base.xlsx" = Raise IOError
  | Some xls =>
      match Costs xls, Commodity_sums xls, Process_caps xls with
      | Some cost, Some sums, Some caps =>
          (("Total" ∉ columns caps) ∨ ("Campus" ∉ (index caps).*1) →
             read_one fs_ex "result/scenario_base.xlsx" = Raise KeyError) ∧
          (∀ j, columns caps !! j = Some "Total" →
             (∀ i, i < j → columns caps !! i ≠ Some "Total") →
             "Campus" ∈ (index caps).*1 →
             read_one fs_ex "result/scenario_base.xlsx"
             = Ok (cost, repair sums,
                   (fun row : (string * string) * list cell =>
                      (row.1.2, default None (row.2 !! j)))
                     <$> filter (fun row : (string * string) * list cell =>
                                   row.1.1 = "Campus")
                                (rows caps)))
      | _, _, _ => read_one fs_ex "result/scenario_base.xlsx" = Raise ValueError
      end
  end.
Proof. exact (read_one_outcome fs_ex "result/scenario_base.xlsx"). Defined.

Lemma read_loop_raise fs pre rf post cs es ps e :
  Forall (fun f => ∃ t, read_one fs f = Ok t) pre →
  read_one fs rf = Raise e →
  read_loop fs (pre ++ rf :: post) cs es ps = Raise e.
Proof.
  intros Hpre Hrf. revert cs es ps.
  induction Hpre as [|f pre [[[c e'] p] Hf] _ IH]; intros cs es ps; simpl.
  - by rewrite Hrf.
  - rewrite Hf. simpl. apply IH.
Qed.

(** X20: no partial result: the first workbook of the (prioritised) list
    that cannot be read ends the whole call with its exception. *)
Theorem compare_scenarios_aborts_on_read_error fs (result_files : ref)
    (output_filename : string) (σ : store) pre rf post e :
  let r := compare_scenarios fs result_files output_filename σ in
  r.1 result_files = pre ++ rf :: post →
  Forall (fun f => ∃ t, read_one fs f = Ok t) pre →
  read_one fs rf = Raise e →
  r.2 = Raise e.
Proof.
  intros r Hfiles Hpre Hrf. unfold r.
  rewrite compare_scenarios_unfold. fold r. rewrite Hfiles.
  by rewrite (read_loop_raise _ _ _ _ _ _ _ e).
Qed.

Lemma compare_scenarios_aborts_on_read_error_witness :
  (compare_scenarios (fun _ => None) 7 "comparison" BaseFacts.store_ex).2
  = Raise IOError.
Proof.
  apply (compare_scenarios_aborts_on_read_error (fun _ => None) 7 "comparison"
           BaseFacts.store_ex [] "result/scenario_base.xlsx"
           ["result/scenario_b.xlsx"; "result/scenario_a.xlsx"]).
  - reflexivity.
  - constructor.
  - reflexivity.
Defined.

Lemma elem_of_select_pred {A} (P : A → bool) (l : list A) x :
  x ∈ select (P <$> l) l → P x = true.
Proof.
  unfold select. induction l as [|y l IH]; csimpl; [by intros []%elem_of_nil|].
  rewrite filter_cons. simpl. destruct (decide (P y)) as [HP|HP]; csimpl.
  - intros [->|?]%elem_of_cons; [by apply Is_true_true|by apply IH].
  - apply IH.
Qed.

(** X21: what never reaches the charts: the process 'Demand' is never
    a column of the consumed view, and no row of the created, consumed
    or storage view is a 'CO2' row. *)
Theorem views_exclude_demand_and_co2 (m : Merged) (v : Views) :
  analyse m = Ok v →
  ("Demand" ∉ columns (consumed v)) ∧
  (∀ key, key ∈ index (created v) → key.2 ≠ "CO2") ∧
  (∀ key, key ∈ index (consumed v) → key.2 ≠ "CO2") ∧
  (∀ key, key ∈ index (sto_sums v) → key.2 ≠ "CO2").
Proof.
  intros (c0 & d0 & s0 & Hc & Hd & Hs & Hc1 & Hd1 & Hs1 & _)%analyse_views.
  apply drop_level1_inv in Hc1 as [_ ->].
  apply drop_level1_inv in Hd1 as [_ ->].
  apply drop_level1_inv in Hs1 as [_ ->].
  assert (∀ (f : DataFrame (string * string) string) key,
            key ∈ index (mkFrame (columns f)
                           (filter (fun row : (string * string) * list cell =>
                                      row.1.2 ≠ "CO2") (rows f))) →
            key.2 ≠ "CO2") as Hco2.
  { intros f key ([k cells] & -> & Hin)%list_elem_of_fmap.
    by apply list_elem_of_filter in Hin as [? _]. }
  split_and!; try apply Hco2.
  cbn [columns sort_index keep_consumed map_values loc_columns].
  intros Hin. apply (sublist_subseteq _ _ (select_sublist _ _)) in Hin.
  unfold consumed_view in Hd.
  destruct (loc_level0 _ _) as [g|]; [|done]. simpl in Hd.
  unfold drop_columns in Hd. case_bool_decide; [|done]. simpl in Hd.
  injection Hd as <-. cbn [columns map_values loc_columns] in Hin.
  apply elem_of_select_pred in Hin. by apply bool_decide_eq_true in Hin.
Qed.

Lemma views_exclude_demand_and_co2_witness :
  ∃ m v,
    analyse m = Ok v ∧
    ("Demand" ∉ columns (consumed v)) ∧
    (∀ key, key ∈ index (created v) → key.2 ≠ "CO2") ∧
    (∀ key, key ∈ index (consumed v) → key.2 ≠ "CO2") ∧
    (∀ key, key ∈ index (sto_sums v) → key.2 ≠ "CO2").
Proof.
  assert (∃ v, analyse merged_ex = Ok v)
    as [v Hv] by (vm_compute; eexists; reflexivity).
  exists merged_ex, v.
  split; [exact Hv|]. exact (views_exclude_demand_and_co2 _ v Hv).
Defined.

Lemma loc_level0_missing {A B C} `{EqDecision A} (key : A) (f : DataFrame (A * B) C) :
  (∀ k, k ∈ index f → k.1 ≠ key) → loc_level0 key f = Raise KeyError.
Proof.
  intros Hno. unfold loc_level0.
  assert (filter (fun row : (A * B) * list cell => row.1.1 = key) (rows f) = [])
    as ->; [|done].
  apply filter_nil_iff. intros row Hrow. apply Hno.
  apply list_elem_of_fmap. by exists row.
Qed.

Lemma loc_level0_cases {A B C} `{EqDecision A} (key : A) (f : DataFrame (A * B) C) :
  (∃ g, loc_level0 key f = Ok g) ∨ loc_level0 key f = Raise KeyError.
Proof. unfold loc_level0. destruct (filter _ _); eauto. Qed.

(** X22: the analysis needs all three directions: when the merged
    energy table has no row under 'Created', none under 'Consumed', or
    no ('Storage', 'Retrieved') row, the analysis ends in [KeyError] and
    produces no view. *)
Theorem analyse_needs_all_directions (m : Merged) :
  ((∀ k, k ∈ index (m_esums m) → k.1 ≠ Some "Created") ∨
   (∀ k, k ∈ index (m_esums m) → k.1 ≠ Some "Consumed") ∨
   ((Some "Storage", "Retrieved") ∉ index (m_esums m))) →
  analyse m = Raise KeyError.
Proof.
  unfold analyse. intros [Hno|[Hno|Hno]].
  - unfold created_view. by rewrite loc_level0_missing.
  - assert (consumed_view m = Raise KeyError) as Hd.
    { unfold consumed_view. by rewrite loc_level0_missing. }
    rewrite Hd. unfold created_view.
    destruct (loc_level0_cases (Some "Created") (m_esums m)) as [[g ->]| ->];
      reflexivity.
  - assert (storage_view m = Raise KeyError) as Hs.
    { unfold storage_view, loc_row.
      assert (filter (fun row : (option string * string) * list cell =>
                        row.1 = (Some "Storage", "Retrieved")) (rows (m_esums m)) = [])
        as ->; [|done].
      apply filter_nil_iff. intros row Hrow Heq. apply Hno.
      apply list_elem_of_fmap. by exists row. }
    rewrite Hs. unfold created_view, consumed_view, drop_columns.
    destruct (loc_level0_cases (Some "Created") (m_esums m)) as [[g ->]| ->];
      [|reflexivity].
    destruct (loc_level0_cases (Some "Consumed") (m_esums m)) as [[h ->]| ->];
      [|reflexivity].
    simpl. by case_bool_decide.
Qed.

Definition created_only : EsumTable :=
  mkFrame ["Campus.Elec"]%string
    [((Some "Created", "PV"), [num 60]); ((Some "Created", "Gas Plant"), [num 500])]%string.

Lemma analyse_needs_all_directions_witness :
  ∃ m,
    merge ["a"]%string [cost_sheet_ex 100 50 0] [created_only]
      [[("PV", num 3)]]%string = Ok m ∧
    analyse m = Raise KeyError.
Proof.
  eexists. split; [vm_compute; reflexivity|].
  apply analyse_needs_all_directions. right. left.
  intros k Hk. vm_compute in Hk.
  apply elem_of_cons in Hk as [->|Hk]; [done|].
  apply elem_of_cons in Hk as [->|Hk]; [done|].
  by apply elem_of_nil in Hk.
Defined.

End AnalysisFacts.

(** ** Order of rows and columns in the views *)

Module OrderFacts.
Import Py Pandas Comp PyFacts PandasFacts CompFacts SortFacts.

Lemma sorted_ext {A} (f g : A → A → bool) l :
  (∀ x y, f x y = g x y) → sorted f l = sorted g l.
Proof.
  intros Hext. unfold sorted. generalize (@nil A).
  induction l as [|x l IH]; intros acc; simpl; [done|].
  rewrite (insort_ext f g) by (intros; apply Hext). apply IH.
Qed.

Lemma StronglySorted_sublist {A} (R : relation A) l k :
  l `sublist_of` k → StronglySorted R k → StronglySorted R l.
Proof.
  induction 1 as [|x l k Hsub IH|x l k Hsub IH]; intros Hs; [done| |].
  - apply StronglySorted_inv in Hs as [Hs Hall]. constructor; [by apply IH|].
    apply list.Forall_forall. intros y Hy.
    rewrite list.Forall_forall in Hall. apply Hall.
    by apply (sublist_subseteq _ _ Hsub).
  - apply StronglySorted_inv in Hs as [Hs _]. by apply IH.
Qed.

Lemma ltb_irrefl a : String.ltb a a = false.
Proof.
  destruct (String.ltb a a) eqn:E; [|done]. by apply str_lt_irrefl in E.
Qed.

Lemma index_sort_index_sorted {C} (f : DataFrame string C) :
  NoDup (index f) → StronglySorted str_lt (index (sort_index String.ltb f)).
Proof.
  intros Hnd. unfold index. cbn [rows sort_index].
  rewrite (sorted_ext _ (Legend.tuple_ltb (fun _ _ => false))).
  - by apply LegendFacts.sorted_sorted.
  - intros x y. unfold Legend.tuple_ltb.
    destruct (String.eqb_spec x.1 y.1) as [->|]; [|done]. apply ltb_irrefl.
Qed.

Lemma index_sort_index_ascending {C} (f : DataFrame string C) :
  StronglySorted str_le (index (sort_index String.ltb f)).
Proof.
  unfold index. cbn [rows sort_index].
  apply Sorted_StronglySorted; [apply str_le_trans|].
  apply Sorted_fmap
    with (R1 := not_after (fun a b : string * list cell => String.ltb a.1 b.1)).
  - intros x y. apply not_after_str_le.
  - apply sorted_not_after. intros x y. apply LegendMore.str_lt_asym.
Qed.

(** X23: in the cost chart the cost types run in ascending order of
    their names, in the full cost view as well as in [spent] and
    [earnt]; equal names stand next to each other, and if the merged
    cost table lists no cost type twice the order is strict, so that
    none appears twice. *)
Theorem cost_types_ascending (m : Merged) :
  let costs := costs_view m in
  (StronglySorted str_le (columns costs) ∧
   StronglySorted str_le (columns (spent_view costs)) ∧
   StronglySorted str_le (columns (earnt_view costs))) ∧
  (NoDup (index (m_costs m)) →
   StronglySorted str_lt (columns costs) ∧
   StronglySorted str_lt (columns (spent_view costs)) ∧
   StronglySorted str_lt (columns (earnt_view costs))).
Proof.
  intros costs.
  assert (∀ R : relation string,
            StronglySorted R (columns costs) →
            StronglySorted R (columns costs) ∧
            StronglySorted R (columns (spent_view costs)) ∧
            StronglySorted R (columns (earnt_view costs))) as Hsub.
  { intros R HR. split_and!; [done| |];
      apply (StronglySorted_sublist _ _ (columns costs)); try done;
      apply select_sublist. }
  split.
  - apply Hsub. unfold costs, costs_view. rewrite columns_transpose.
    apply index_sort_index_ascending.
  - intros Hnd. apply Hsub. unfold costs, costs_view. rewrite columns_transpose.
    by apply index_sort_index_sorted.
Qed.

Lemma cost_types_ascending_witness :
  NoDup (index (m_costs merged_ex)) ∧
  let costs := costs_view merged_ex in
  (StronglySorted str_le (columns costs) ∧
   StronglySorted str_le (columns (spent_view costs)) ∧
   StronglySorted str_le (columns (earnt_view costs))) ∧
  (NoDup (index (m_costs merged_ex)) →
   StronglySorted str_lt (columns costs) ∧
   StronglySorted str_lt (columns (spent_view costs)) ∧
   StronglySorted str_lt (columns (earnt_view costs))).
Proof.
  split; [apply (bool_decide_unpack _); vm_compute; exact I|].
  apply cost_types_ascending.
Defined.

(** X24: when every workbook's cost sheet has its one column, the rows
    of the cost views are the scenarios in the order of the list handed
    to the merge, so the bars of the cost chart follow that order. *)
Theorem cost_rows_follow_scenarios names cs es ps (m : Merged) :
  merge names cs es ps = Ok m →
  length cs = length names →
  Forall (fun t : CostTable => length (columns t) = 1%nat) cs →
  let costs := costs_view m in
  index costs = names ∧
  index (spent_view costs) = names ∧
  index (earnt_view costs) = names.
Proof.
  intros (Hm & _ & _)%merge_inv Hlen Hone costs.
  assert (index costs = names) as Hi.
  { unfold costs, costs_view. rewrite index_transpose.
    change (columns (sort_index String.ltb (droplevel_columns (m_costs m))))
      with ((columns (m_costs m)).*1).
    rewrite (keys_concat _ _ _ Hm). clear costs Hm.
    revert cs Hlen Hone. induction names as [|n names IH]; intros [|c cs] Hlen Hone;
      try done.
    apply list.Forall_cons in Hone as [Hc Hone].
    cbn [zip zip_with]. rewrite bind_cons. cbn [fst snd]. rewrite Hc.
    simpl. f_equal. apply IH; [|done]. simpl in Hlen. lia. }
  assert (∀ mask, index (loc_columns costs mask) = index costs) as Hloc.
  { intros mask. unfold index, loc_columns. cbn [rows].
    rewrite <- list_fmap_compose. by apply list_fmap_ext. }
  unfold spent_view, earnt_view. by rewrite !Hloc.
Qed.

Lemma cost_rows_follow_scenarios_witness :
  merge names_ex costs_ex esums_ex caps_ex = Ok merged_ex ∧
  let costs := costs_view merged_ex in
  index costs = names_ex ∧
  index (spent_view costs) = names_ex ∧
  index (earnt_view costs) = names_ex.
Proof.
  split; [apply merge_ex|].
  apply (cost_rows_follow_scenarios names_ex costs_ex esums_ex caps_ex);
    [apply merge_ex|reflexivity|].
  repeat (constructor; [reflexivity|]). constructor.
Defined.

(** The order of [ascending=[False, True]]: scenarios descending, the
    commodities of one scenario ascending. *)
Definition chart_order (a b : string * string) : Prop :=
  str_lt b.1 a.1 ∨ (a.1 = b.1 ∧ (a.2 = b.2 ∨ str_lt a.2 b.2)).

Global Instance chart_order_trans : Transitive chart_order.
Proof.
  intros [a1 a2] [b1 b2] [c1 c2]. unfold chart_order. simpl.
  intros [H1|[-> H1]] [H2|[-> H2]].
  - left. by transitivity b1.
  - by left.
  - by left.
  - right. split; [done|]. destruct H1 as [->|H1]; [done|].
    destruct H2 as [->|H2]; [by right|]. right. by transitivity b2.
Qed.

Lemma desc_asc_asym a b : desc_asc a b = true → desc_asc b a = false.
Proof.
  unfold desc_asc. rewrite (String.eqb_sym b.1 a.1).
  destruct (String.eqb a.1 b.1); intros H; by apply LegendMore.str_lt_asym.
Qed.

Lemma not_after_chart_order a b : desc_asc b a = false → chart_order a b.
Proof.
  unfold desc_asc, chart_order.
  destruct (String.eqb_spec b.1 a.1) as [E|E]; intros H.
  - right. split; [done|]. destruct (decide (a.2 = b.2)); [by left|right].
    apply str_lt_total; [congruence|done].
  - left. apply str_lt_total; [congruence|done].
Qed.

Lemma sort_index_chart_order {C} (f : DataFrame (string * string) C) :
  StronglySorted chart_order (index (sort_index desc_asc f)).
Proof.
  unfold index. cbn [rows sort_index].
  apply Sorted_StronglySorted; [apply _|].
  apply Sorted_fmap
    with (R1 := not_after (fun a b : (string * string) * list cell => desc_asc a.1 b.1)).
  - intros x y. apply not_after_chart_order.
  - apply sorted_not_after. intros x y. apply desc_asc_asym.
Qed.

Lemma drop_level1_chart_order {C} (f g : DataFrame (string * string) C) label :
  drop_level1 label f = Ok g →
  StronglySorted chart_order (index f) →
  StronglySorted chart_order (index g).
Proof.
  intros [_ ->]%drop_level1_inv.
  apply StronglySorted_sublist. unfold index. cbn [rows].
  apply fmap_sublist, sublist_filter.
Qed.

Lemma storage_view_sorted m sto :
  storage_view m = Ok sto → ∃ g, sto = sort_index desc_asc g.
Proof.
  destruct (loc_row (Some "Storage", "Retrieved")%string (m_esums m))
    as [[retrieved|t]|] eqn:Hloc.
  - rewrite (storage_view_found _ _ Hloc).
    destruct (set_where _ _ _ _) as [sto1|]; [|done]. rewrite bind_ok.
    destruct (set_where _ _ _ _) as [sto2|]; [|done]. rewrite bind_ok.
    intros [= <-]. by eexists.
  - unfold storage_view. rewrite Hloc, bind_ok. by case_bool_decide.
  - unfold storage_view. by rewrite Hloc.
Qed.

(** X25: the rows of the three energy views reach the charts with the
    scenarios in descending order of their names and, within one
    scenario, the commodities in ascending order. *)
Theorem energy_rows_chart_order (m : Merged) (v : Views) :
  analyse m = Ok v →
  StronglySorted chart_order (index (created v)) ∧
  StronglySorted chart_order (index (consumed v)) ∧
  StronglySorted chart_order (index (sto_sums v)).
Proof.
  intros (c0 & d0 & s0 & _ & _ & Hs & Hc1 & Hd1 & Hs1 & _)%analyse_views.
  apply storage_view_sorted in Hs as [g ->].
  split_and!;
    (eapply drop_level1_chart_order; [eassumption|apply sort_index_chart_order]).
Qed.

Lemma energy_rows_chart_order_witness :
  ∃ m v,
    analyse m = Ok v ∧
    StronglySorted chart_order (index (created v)) ∧
    StronglySorted chart_order (index (consumed v)) ∧
    StronglySorted chart_order (index (sto_sums v)).
Proof.
  assert (∃ v, analyse merged_ex = Ok v)
    as [v Hv] by (vm_compute; eexists; reflexivity).
  exists merged_ex, v.
  split; [exact Hv|]. exact (energy_rows_chart_order _ v Hv).
Defined.

End OrderFacts.

(** ** Finding the workbooks *)

Module FilesFacts.
Import Py Pandas Files PyFacts PandasFacts SortFacts.

Lemma Qltb_ge (x y : Q) : Qltb x y = false ↔ (y <= x)%Q.
Proof.
  rewrite <- not_true_iff_false, Qltb_lt.
  split; [apply Qnot_lt_le|apply Qle_not_lt].
Qed.

Lemma sorted_snoc {A} (ltb : A → A → bool) l x :
  sorted ltb (l ++ [x]) = insort ltb x (sorted ltb l).
Proof. unfold sorted. by rewrite foldl_snoc. Qed.

Section recent.
Context {A : Type} (key : A → Q).

(** The order of [sort(key=...)]. *)
Definition by_key (x y : A) : bool := Qltb (key x) (key y).

Lemma by_key_asym x y : by_key x y = true → by_key y x = false.
Proof. unfold by_key. rewrite Qltb_lt, Qltb_ge. apply Qlt_le_weak. Qed.

Lemma not_after_by_key_trans : Transitive (not_after by_key).
Proof.
  intros x y z. unfold not_after, by_key. rewrite !Qltb_ge. apply Qle_trans.
Qed.

Lemma sorted_by_key l : StronglySorted (not_after by_key) (sorted by_key l).
Proof.
  apply Sorted_StronglySorted; [apply not_after_by_key_trans|].
  apply sorted_not_after, by_key_asym.
Qed.

Lemma last_insort x acc :
  StronglySorted (not_after by_key) acc →
  list.last (insort by_key x acc)
  = match list.last acc with
    | None => Some x
    | Some y => if by_key x y then Some y else Some x
    end.
Proof.
  induction acc as [|y l IH]; intros Hs; [done|].
  apply StronglySorted_inv in Hs as [Hs Hall]. cbn [insort].
  destruct (by_key x y) eqn:E.
  - rewrite last_cons_cons.
    destruct (list.last (y :: l)) as [z|] eqn:Hz; [|by apply last_None in Hz].
    assert (by_key x z = true) as ->; [|done].
    assert (key y <= key z)%Q as Hyz.
    { apply last_Some_elem_of, elem_of_cons in Hz as [->|Hz]; [apply Qle_refl|].
      rewrite list.Forall_forall in Hall. by apply Qltb_ge, Hall. }
    unfold by_key in *. apply Qltb_lt. apply Qltb_lt in E.
    by apply Qlt_le_trans with (key y).
  - rewrite last_cons, IH by done. rewrite (last_cons y l).
    destruct (list.last l) as [z|]; [by destruct (by_key x z)|].
    by rewrite E.
Qed.

(** The last element after sorting is the latest of the greatest. *)
Lemma last_sorted_latest l :
  match list.last (sorted by_key l) with
  | None => l = []
  | Some e =>
      ∃ before after,
        l = before ++ e :: after ∧
        Forall (fun x => (key x <= key e)%Q) before ∧
        Forall (fun x => (key x < key e)%Q) after
  end.
Proof.
  induction l as [|x l IH] using rev_ind; [done|].
  rewrite sorted_snoc, last_insort by apply sorted_by_key.
  destruct (list.last (sorted by_key l)) as [y|].
  - destruct IH as (before & after & -> & Hb & Ha).
    destruct (by_key x y) eqn:E; unfold by_key in E.
    + exists before, (after ++ [x]). split; [by rewrite <- app_assoc|].
      split; [done|]. apply Forall_app. split; [done|].
      apply Forall_singleton. by apply Qltb_lt.
    + apply Qltb_ge in E.
      exists (before ++ y :: after), []. split; [done|]. split; [|constructor].
      apply Forall_app. split; [|apply list.Forall_cons; split; [done|]].
      * eapply list.Forall_impl; [exact Hb|]. intros z Hz.
        by apply Qle_trans with (key y).
      * eapply list.Forall_impl; [exact Ha|]. intros z Hz.
        apply Qlt_le_weak. by apply Qlt_le_trans with (key y).
  - subst l. by exists [], [].
Qed.

End recent.

Lemma sorted_str_le l : StronglySorted str_le (sorted String.ltb l).
Proof.
  apply Sorted_StronglySorted; [apply str_le_trans|].
  rewrite <- (list_fmap_id (sorted String.ltb l)).
  apply Sorted_fmap with (R1 := not_after String.ltb).
  - intros x y. apply not_after_str_le.
  - apply sorted_not_after. intros x y. apply LegendMore.str_lt_asym.
Qed.

Section os.
Variables (glob : string → list string) (getmtime : string → Q).

(** X26: with no entry in the directory [get_most_recent_entry] ends in
    [IndexError]; otherwise it returns an entry that none is newer than,
    and of several entries with that newest time the one listed last. *)
Theorem get_most_recent_entry_latest (search_dir : string) :
  let entries := glob (path_join search_dir "*") in
  match get_most_recent_entry glob getmtime search_dir with
  | Ok entry =>
      ∃ before after,
        entries = before ++ entry :: after ∧
        Forall (fun x => (getmtime x <= getmtime entry)%Q) before ∧
        Forall (fun x => (getmtime x < getmtime entry)%Q) after
  | Raise e => e = IndexError ∧ entries = []
  end.
Proof.
  intros entries. unfold get_most_recent_entry. fold entries.
  pose proof (last_sorted_latest getmtime entries) as H.
  unfold by_key in H.
  by destruct (list.last (sorted _ entries)).
Qed.

(** X27: [glob_result_files] returns what the pattern matched, each path
    as often as it was listed, in ascending order. *)
Theorem glob_result_files_ascending (folder_name : string) :
  glob_result_files glob folder_name ≡ₚ glob (path_join folder_name "s*.xlsx") ∧
  StronglySorted str_le (glob_result_files glob folder_name).
Proof.
  unfold glob_result_files. split; [apply sorted_perm|apply sorted_str_le].
Qed.

(** X28: the list handed to [compare_scenarios] holds the same paths in
    descending order. *)
Theorem reversed_result_files_descending (directory : string) :
  reversed_result_files glob directory ≡ₚ glob (path_join directory "s*.xlsx") ∧
  StronglySorted (flip str_le) (reversed_result_files glob directory).
Proof.
  unfold reversed_result_files, glob_result_files. split.
  - by rewrite reverse_Permutation, sorted_perm.
  - apply Sorted_StronglySorted.
    + intros a b c H1 H2. unfold flip in *. by apply (str_le_trans _ b).
    + apply Sorted_reverse, StronglySorted_Sorted, sorted_str_le.
Qed.

End os.
End FilesFacts.

(** ** Tick labels *)

Module TickFacts.
Import Pandas Ticks PandasFacts NameFacts.

(** [c.isdigit()] on ASCII. *)
Definition is_digit (c : ascii) : bool :=
  (48 <=? nat_of_ascii c) && (nat_of_ascii c <=? 57).

Abbreviation no_comma := (fun c : ascii => c ≠ ","%char).

Lemma digit_no_comma c : is_digit c = true → no_comma c.
Proof. by intros H ->. Qed.

Lemma digits_uint u : Forall (fun c => is_digit c = true) (chars (NilEmpty.string_of_uint u)).
Proof. induction u; simpl; by constructor. Qed.

Lemma digits_uint_zero u :
  Forall (fun c => is_digit c = true) (chars (NilZero.string_of_uint u)).
Proof.
  destruct u; try apply (digits_uint (_ _)). by repeat constructor.
Qed.

Lemma format_comma_sign n :
  ∃ sign digits,
    str n = String.append sign digits ∧ (sign = "" ∨ sign = "-")%string ∧
    Forall (fun c => is_digit c = true) (chars digits) ∧
    format_comma n = String.append sign (group digits).
Proof.
  unfold format_comma, str. destruct n as [|p|p]; cbn [Z.to_int NilZero.string_of_int].
  - exists ""%string, "0"%string. split_and!; [done|by left|by repeat constructor|done].
  - exists ""%string, (NilZero.string_of_uint (Pos.to_uint p)).
    pose proof (digits_uint_zero (Pos.to_uint p)) as H.
    split_and!; [done|by left|done|]. cbv zeta.
    destruct (NilZero.string_of_uint (Pos.to_uint p)) as [|c ds]; [done|].
    apply list.Forall_cons in H as [Hc _].
    destruct (Ascii.eqb_spec c "-") as [->|]; done.
  - exists "-"%string, (NilZero.string_of_uint (Pos.to_uint p)).
    split_and!; [done|by right|apply digits_uint_zero|done].
Qed.

Lemma group_rev_step a b c d rest :
  group_rev (a :: b :: c :: d :: rest)
  = a :: b :: c :: ","%char :: group_rev (d :: rest).
Proof. done. Qed.

Lemma group_rev_spec l :
  Forall no_comma l →
  filter no_comma (group_rev l) = l ∧
  ∀ i c, group_rev l !! i = Some c → (c = ","%char ↔ i mod 4 = 3).
Proof.
  remember (length l) as n eqn:Hn. revert l Hn.
  induction n as [n IH] using lt_wf_ind. intros l Hn Hall.
  assert (∀ k : list ascii, length k < 4 → Forall no_comma k →
            filter no_comma k = k ∧
            ∀ i c, k !! i = Some c → (c = ","%char ↔ i mod 4 = 3)) as Hshort.
  { intros k Hk Hno. split.
    - clear Hk. induction Hno as [|x k Hx Hno IHk]; [done|].
      by rewrite filter_cons_True, IHk.
    - intros i c Hi. pose proof (lookup_lt_Some _ _ _ Hi) as Hlt.
      rewrite list.Forall_forall in Hno.
      pose proof (Hno c (list_elem_of_lookup_2 _ _ _ Hi)) as Hc.
      split; [done|]. intros Hmod. rewrite Nat.mod_small in Hmod by lia. lia. }
  destruct l as [|a [|b [|c [|d rest]]]];
    try (apply Hshort; [simpl; lia|done]).
  rewrite group_rev_step.
  apply list.Forall_cons in Hall as [Ha Hall].
  apply list.Forall_cons in Hall as [Hb Hall].
  apply list.Forall_cons in Hall as [Hc Hall].
  destruct (IH (length (d :: rest))) with (l := d :: rest) as [Hf Hpos];
    [subst n; simpl; lia|done|done|].
  split.
  - rewrite !filter_cons_True by done. rewrite filter_cons_False by (by intros H).
    by rewrite Hf.
  - intros [|[|[|[|i]]]] x; cbn [lookup list_lookup].
    + intros [= <-]. split; [done|]. by rewrite Nat.mod_small by lia.
    + intros [= <-]. split; [done|]. by rewrite Nat.mod_small by lia.
    + intros [= <-]. split; [done|]. by rewrite Nat.mod_small by lia.
    + intros [= <-]. by rewrite Nat.mod_small by lia.
    + intros Hx. rewrite (Hpos _ _ Hx).
      replace (S (S (S (S i)))) with (i + 1 * 4) by lia.
      by rewrite Nat.Div0.mod_add.
Qed.

Lemma chars_group ds :
  chars (group ds) = reverse (group_rev (reverse (chars ds))).
Proof. unfold group. apply String.list_ascii_of_string_of_list_ascii. Qed.

Lemma group_spec ds :
  Forall (fun c => is_digit c = true) (chars ds) →
  filter no_comma (chars (group ds)) = chars ds ∧
  ∀ i c, reverse (chars (group ds)) !! i = Some c → (c = ","%char ↔ i mod 4 = 3).
Proof.
  intros Hd. rewrite chars_group, reverse_involutive, filter_reverse.
  destruct (group_rev_spec (reverse (chars ds))) as [Hf Hpos].
  { apply Forall_reverse. eapply list.Forall_impl; [exact Hd|].
    intros c. apply digit_no_comma. }
  split; [|done]. by rewrite Hf, reverse_involutive.
Qed.

(** X29: on an axis that reaches beyond 90 or below -90, the label of
    every tick but the first is the decimal numeral of the tick value
    cut to an integer, sign first, with commas added to its digits and
    nothing else changed; counted from the right, exactly every fourth
    character of the grouped digits is a comma. *)
Theorem grouped_label (xmin xmax x : Q) (pos : option Z) :
  (90 < xmax ∨ xmin < -90)%Q → pos ≠ Some 0%Z →
  ∃ sign digits grouped,
    str (int x) = String.append sign digits ∧
    (sign = "" ∨ sign = "-")%string ∧
    Forall (fun c => is_digit c = true) (chars digits) ∧
    major_formatter xmin xmax x pos = Text (String.append sign grouped) ∧
    filter no_comma (chars grouped) = chars digits ∧
    ∀ i c, reverse (chars grouped) !! i = Some c → (c = ","%char ↔ i mod 4 = 3).
Proof.
  intros Hlim Hpos.
  destruct (format_comma_sign (int x)) as (sign & digits & Hstr & Hsign & Hd & Hf).
  exists sign, digits, (group digits).
  destruct (group_spec digits Hd) as [Hfil Hcomma].
  split_and!; try done.
  unfold major_formatter, group_thousands_and_skip_first.
  assert (Qltb 90 xmax || Qltb xmin (-90) = true) as ->.
  { apply orb_true_iff. by rewrite !Qltb_lt. }
  rewrite bool_decide_false by done. by rewrite Hf.
Qed.

Lemma grouped_label_witness :
  ∃ sign digits grouped,
    str (int (12345678 # 10)) = String.append sign digits ∧
    (sign = "" ∨ sign = "-")%string ∧
    Forall (fun c => is_digit c = true) (chars digits) ∧
    major_formatter 0 100 (12345678 # 10) (Some 3%Z)
      = Text (String.append sign grouped) ∧
    filter no_comma (chars grouped) = chars digits ∧
    ∀ i c, reverse (chars grouped) !! i = Some c → (c = ","%char ↔ i mod 4 = 3).
Proof.
  apply (grouped_label 0 100 (12345678 # 10) (Some 3%Z)); [by left|done].
Defined.

End TickFacts.
